(** * Syncy: trim-decision engine, override validation, render checks,
      job creation and the per-job event stream

    A shallow embedding of the TypeScript sources of the API package
    ([decision/range.ts], [decision/engine.ts], [override.ts], [render.ts],
    [media.ts], [job-service.ts], [events.ts], [db.ts], [queue.ts] and the
    event route of [server.ts]) together with the properties proved of them.

    Numbers.  A JavaScript [number] is an IEEE 754 double.  The value of a
    finite double is a rational, so a number is modelled as a [Q]; [NaN],
    the infinities and the sign of zero are outside the model.  Comparisons,
    [Math.max], [Math.min], [Math.abs] and unary minus are exact on doubles
    and are the exact ones here; the functions that only select among their
    inputs ([Math.max], sorting, merging) return the very same
    representative, so list results can still be compared with Leibniz
    equality.  Sums, differences, products and quotients are rounded by the
    program.  Module [Rounded] embeds the range algebra, the decision engine
    and the override validator with that rounding (to the nearest double,
    ties to even; module [Binary64]) and with every decimal literal read as
    the double nearest to it: on doubles it computes what the program
    computes, as long as no result overflows.  The modules [Range], [Engine]
    and [Override], and the modules that compute with durations after them,
    embed the same arithmetic without the rounding: their theorems are
    about that exact reading, in which equality of numbers is [Qeq]
    (written [==]).

    Strings.  A string is the sequence of its UTF-16 code units, each below
    256; other strings are outside the model.

    Effects.  Code that touches the file system, spawns a process, reads the
    clock, writes to the database, pushes on the queue or writes to an HTTP
    response is modelled in a state-and-exception monad over an explicit
    state record; every call that leaves the modelled code is recorded in
    that record, and what the outside world answers is a parameter.  An
    [await] is modelled as a call: what other handlers do to the state while
    an [async] function is suspended is not part of that function's model.
    The interleaving of handlers is modelled separately, as sequences of
    turns of the event loop.  The calls to the file system and to the
    database are taken to succeed: a failing disk or database is outside the
    model.  A task that the queue starts is recorded as started; what the
    task itself does, part of it before the function that started it
    returns, is not part of the model of the queue or of [createJob]. *)

From stdpp Require Import base gmap sets list strings.
From Stdlib Require Import QArith Qminmax Qabs Qround Qpower Lqa Lia.
From Stdlib Require Import Sorting.Sorted Sorting.Permutation.
From Stdlib Require DecimalString.
From Stdlib Require Import Ascii.
Import ListNotations.

Local Open Scope Q_scope.

(** ** JavaScript primitives used by the sources *)

Module Js.

(** [a < b] on numbers. *)
Definition ltb (a b : Q) : bool := negb (Qle_bool b a).

(** [a <= b] on numbers. *)
Definition leb (a b : Q) : bool := Qle_bool a b.

(** [a > b] and [a >= b]. *)
Definition gtb (a b : Q) : bool := ltb b a.
Definition geb (a b : Q) : bool := leb b a.

(** [a === b] on numbers. *)
Definition eqb (a b : Q) : bool := Qeq_bool a b.

(** Truthiness of an optional string ([undefined] and the empty string are
    falsy), as in [if (job.replacementAudioPath && ...)] and [Boolean(p)]. *)
Definition truthy (s : option string) : bool :=
  match s with
  | Some EmptyString => false
  | Some _ => true
  | None => false
  end.

(** A string of [k] zeros, and left padding with zeros up to [k] characters. *)
Fixpoint zeros (k : nat) : string :=
  match k with
  | O => EmptyString
  | S k' => "0" +:+ zeros k'
  end.

Definition padZeros (k : nat) (s : string) : string :=
  zeros (k - String.length s) +:+ s.

Definition digitsOfZ (n : Z) : string :=
  DecimalString.NilZero.string_of_uint (N.to_uint (Z.to_N n)).

(** [Number.prototype.toFixed(fractionDigits)] for magnitudes below 1e21:
    the sign is split off, the magnitude is rounded to the nearest multiple
    of [10^-fractionDigits] (the larger one on a tie) and printed with
    exactly [fractionDigits] decimals.  What is rounded is the exact value
    of the number, as the language has it. *)
Definition toFixed (fractionDigits : nat) (x : Q) : string :=
  let negative := ltb x 0 in
  let n := Qfloor (Qabs x * inject_Z (10 ^ Z.of_nat fractionDigits) + (1 # 2)) in
  let m := padZeros (S fractionDigits) (digitsOfZ n) in
  let k := (String.length m - fractionDigits)%nat in
  let body :=
    match fractionDigits with
    | O => m
    | _ => String.substring 0 k m +:+ "." +:+ String.substring k fractionDigits m
    end in
  if negative then "-" +:+ body else body.

End Js.

(** ** Shared types ([packages/shared/src/index.ts]) *)

Record TimeRange : Type := mkRange { startSec : Q; endSec : Q }.

Record SpeechRegion : Type := mkSpeech {
  speechRange :> TimeRange;
  text : string;
  confidence : option Q
}.

Record LowInfoRegion : Type := mkLowInfo {
  lowInfoRange :> TimeRange;
  score : Q
}.

Record AnalysisResult : Type := mkAnalysis {
  speechRegions : list SpeechRegion;
  silenceRegions : list TimeRange;
  sceneCutsSec : list Q;
  lowInfoRegions : list LowInfoRegion;
  warnings : list string
}.

Inductive TrimStrategy : Type :=
  | outro | intro | intro_outro | fallback_low_density.

Inductive ErrorCode : Type :=
  | AUDIO_LONGER_THAN_VIDEO
  | NO_SYNC_SAFE_CUT
  | INVALID_OVERRIDE_RANGE
  | DEPENDENCY_MISSING
  | ANALYSIS_FAILED
  | RENDER_FAILED
  | JOB_NOT_FOUND
  | MODEL_MISSING.

Inductive JobStatus : Type :=
  | queued | analyzing | awaiting_review | rendering | completed | failed.

Record TrimDecision : Type := mkDecision {
  keepRange : TimeRange;
  trimNeededSec : Q;
  strategy : TrimStrategy;
  decisionConfidence : Q;
  reasoning : list string;
  protectedRanges : list TimeRange
}.

(** ** Errors ([errors.ts])

    A thrown value is either an [AppError] (code, message, HTTP status with
    default 400) or a plain [Error] carrying only a message. *)

Inductive Thrown : Type :=
  | AppError (code : ErrorCode) (message : string) (status : Z)
  | PlainError (message : string).

Definition appError (code : ErrorCode) (message : string) : Thrown :=
  AppError code message 400.

(** The code of a thrown value, when it is an [AppError]. *)
Definition thrownCode (e : Thrown) : option ErrorCode :=
  match e with
  | AppError c _ _ => Some c
  | PlainError _ => None
  end.

(** Outcome of a call that either returns or throws. *)
Inductive outcome (A : Type) : Type :=
  | Returns (a : A)
  | Throws (e : Thrown).
Arguments Returns {A} a.
Arguments Throws {A} e.

(** ** Range algebra ([decision/range.ts]) *)

Module Range.

Definition normalizeRange (range : TimeRange) : TimeRange :=
  if Js.leb (startSec range) (endSec range) then range
  else {| startSec := endSec range; endSec := startSec range |}.

Definition rangeLength (range : TimeRange) : Q :=
  Qmax 0 (endSec range - startSec range).

Definition overlaps (a b : TimeRange) : bool :=
  Js.ltb (startSec a) (endSec b) && Js.ltb (startSec b) (endSec a).

Definition intersectionLength (a b : TimeRange) : Q :=
  if negb (overlaps a b) then 0
  else Qmin (endSec a) (endSec b) - Qmax (startSec a) (startSec b).

Definition expandRange (range : TimeRange) (paddingSec durationSec : Q) : TimeRange :=
  {| startSec := Qmax 0 (startSec range - paddingSec);
     endSec := Qmin durationSec (endSec range + paddingSec) |}.

(** [Array.prototype.sort((a, b) => a.startSec - b.startSec)]: the sort is
    stable, so its result is the one of a stable insertion sort on
    [startSec]. *)
Fixpoint insertByStart (x : TimeRange) (l : list TimeRange) : list TimeRange :=
  match l with
  | [] => [x]
  | y :: t =>
      if Js.leb (startSec x) (startSec y) then x :: y :: t
      else y :: insertByStart x t
  end.

Fixpoint sortByStart (l : list TimeRange) : list TimeRange :=
  match l with
  | [] => []
  | x :: t => insertByStart x (sortByStart t)
  end.

(** The [for] loop of [mergeRanges]: [merged] is the output array so far,
    [current] the range being grown, [rest] is [sorted[idx..]]. *)
Fixpoint mergeLoop (merged : list TimeRange) (current : TimeRange)
    (rest : list TimeRange) : list TimeRange :=
  match rest with
  | [] => merged ++ [current]
  | candidate :: rest' =>
      if Js.leb (startSec candidate) (endSec current) then
        mergeLoop merged
          {| startSec := startSec current;
             endSec := Qmax (endSec current) (endSec candidate) |}
          rest'
      else mergeLoop (merged ++ [current]) candidate rest'
  end.

Definition mergeRanges (ranges : list TimeRange) : list TimeRange :=
  match ranges with
  | [] => []
  | _ =>
      let sorted :=
        List.filter (fun range => Js.gtb (endSec range) (startSec range))
          (sortByStart (List.map normalizeRange ranges)) in
      match sorted with
      | [] => []
      | first :: rest => mergeLoop [] first rest
      end
  end.

Definition totalOverlapLength (range : TimeRange) (protectedRanges : list TimeRange) : Q :=
  fold_left (fun sum protectedRange => sum + intersectionLength range protectedRange)
    protectedRanges 0.

End Range.

(** ** Decision engine ([decision/engine.ts]) *)

Module Engine.
Import Range.

Definition SPEECH_PADDING_SEC : Q := 0.35.
Definition OVERLAP_TOLERANCE_SEC : Q := 0.02.

Record DecisionInput : Type := mkInput {
  videoDurationSec : Q;
  targetDurationSec : Q;
  analysis : AnalysisResult;
  hasReplacementAudio : bool
}.

Record Candidate : Type := mkCandidate {
  candStrategy : TrimStrategy;
  candKeepRange : TimeRange;
  trimRanges : list TimeRange;
  candReasoning : list string
}.

Definition overlapWithRanges (trimRanges ranges : list TimeRange) : Q :=
  fold_left (fun sum trimRange => sum + totalOverlapLength trimRange ranges)
    trimRanges 0.

Definition silenceCoverage (trimRanges silenceRanges : list TimeRange) : Q :=
  let trimLength := fold_left (fun sum range => sum + rangeLength range) trimRanges 0 in
  if Js.eqb trimLength 0 then 1
  else
    let silenceOverlap :=
      fold_left
        (fun sum trimRange =>
           sum + fold_left
                   (fun acc silenceRange => acc + intersectionLength trimRange silenceRange)
                   silenceRanges 0)
        trimRanges 0 in
    Qmin 1 (silenceOverlap / trimLength).

Definition hasInvalidRange (ranges : list TimeRange) : bool :=
  existsb (fun range => Js.leb (endSec range) (startSec range)) ranges.

Definition buildCandidates (videoDurationSec targetDurationSec : Q)
    (hasReplacementAudio : bool) : list Candidate :=
  let trimNeededSec := Qmax 0 (videoDurationSec - targetDurationSec) in
  if Js.leb trimNeededSec 0 then
    [ {| candStrategy := outro;
         candKeepRange := {| startSec := 0; endSec := videoDurationSec |};
         trimRanges := [];
         candReasoning :=
           ["No trimming required because video already matches target duration."] |} ]
  else
    let outroTrim :=
      {| startSec := Qmax 0 targetDurationSec; endSec := videoDurationSec |} in
    let candidates :=
      [ {| candStrategy := outro;
           candKeepRange := {| startSec := 0; endSec := targetDurationSec |};
           trimRanges := [outroTrim];
           candReasoning := ["Preferred outro trim candidate selected first."] |} ] in
    let candidates :=
      if negb hasReplacementAudio then
        let introTrim := {| startSec := 0; endSec := trimNeededSec |} in
        let introShare := trimNeededSec / 2 in
        let outroShare := trimNeededSec - introShare in
        candidates ++
        [ {| candStrategy := intro;
             candKeepRange :=
               {| startSec := trimNeededSec; endSec := videoDurationSec |};
             trimRanges := [introTrim];
             candReasoning := ["No safe outro candidate found; evaluating intro trim."] |} ] ++
        [ {| candStrategy := intro_outro;
             candKeepRange :=
               {| startSec := introShare; endSec := videoDurationSec - outroShare |};
             trimRanges :=
               [ {| startSec := 0; endSec := introShare |};
                 {| startSec := videoDurationSec - outroShare;
                    endSec := videoDurationSec |} ];
             candReasoning :=
               ["Balancing trim between intro and outro as secondary fallback."] |} ]
      else candidates in
    List.filter (fun candidate => negb (hasInvalidRange (trimRanges candidate))) candidates.

(** The [default] branch of the [switch] cannot be reached with a value of
    type [TrimStrategy]. *)
Definition strategyBaseConfidence (strategy : TrimStrategy) : Q :=
  match strategy with
  | outro => 0.88
  | intro => 0.78
  | intro_outro => 0.72
  | fallback_low_density => 0.62
  end.

(** The closure [scoreFor] of [fallbackCandidate]. *)
Definition scoreFor (analysis : AnalysisResult) (range : TimeRange) : Q :=
  let lowInfoBonus :=
    fold_left
      (fun sum (lowInfo : LowInfoRegion) =>
         if negb (overlaps range lowInfo) then sum
         else sum + intersectionLength range lowInfo * score lowInfo)
      (lowInfoRegions analysis) 0 in
  - lowInfoBonus.

Definition fallbackCandidate (videoDurationSec targetDurationSec : Q)
    (analysis : AnalysisResult) : Candidate :=
  let trimNeededSec := Qmax 0 (videoDurationSec - targetDurationSec) in
  let introTrim := {| startSec := 0; endSec := trimNeededSec |} in
  let outroTrim := {| startSec := targetDurationSec; endSec := videoDurationSec |} in
  let introScore := scoreFor analysis introTrim in
  let outroScore := scoreFor analysis outroTrim in
  let pickOutro := Js.leb outroScore introScore in
  {| candStrategy := fallback_low_density;
     candKeepRange :=
       if pickOutro then {| startSec := 0; endSec := targetDurationSec |}
       else {| startSec := trimNeededSec; endSec := videoDurationSec |};
     trimRanges := [if pickOutro then outroTrim else introTrim];
     candReasoning :=
       ["Fallback selected by lowest semantic-density edge region when rule-based candidates were blocked."] |}.

Definition withinDuration (range : TimeRange) (durationSec : Q) : bool :=
  Js.geb (startSec range) 0 && Js.leb (endSec range) durationSec
  && Js.gtb (endSec range) (startSec range).

(** The body of the [for (const candidate of candidates)] loop: [Some] is
    the decision returned from inside the loop, [None] is falling out of
    the loop. *)
Fixpoint tryCandidates (input : DecisionInput) (trimNeededSec : Q)
    (protectedRanges : list TimeRange) (candidates : list Candidate)
    : option TrimDecision :=
  match candidates with
  | [] => None
  | candidate :: rest =>
      let speechOverlap := overlapWithRanges (trimRanges candidate) protectedRanges in
      if Js.gtb speechOverlap OVERLAP_TOLERANCE_SEC then
        tryCandidates input trimNeededSec protectedRanges rest
      else
        let candidateTrimLength :=
          fold_left (fun sum trimRange => sum + rangeLength trimRange)
            (trimRanges candidate) 0 in
        let silenceScore :=
          silenceCoverage (trimRanges candidate) (silenceRegions (analysis input)) in
        let overlapRatio :=
          if Js.gtb candidateTrimLength 0 then speechOverlap / candidateTrimLength else 0 in
        let confidence :=
          Qmax 0
            (Qmin 1
               (strategyBaseConfidence (candStrategy candidate)
                + silenceScore * 0.1 - overlapRatio * 0.5)) in
        let reasoning :=
          candReasoning candidate ++
          [ "Speech overlap across trim regions is " +:+ Js.toFixed 2 speechOverlap +:+ "s.";
            "Silence coverage of trim regions is "
              +:+ Js.toFixed 1 (silenceScore * 100) +:+ "%." ] in
        if negb (withinDuration (candKeepRange candidate) (videoDurationSec input)) then
          tryCandidates input trimNeededSec protectedRanges rest
        else
          Some {| keepRange := candKeepRange candidate;
                  trimNeededSec := Qmax 0 trimNeededSec;
                  strategy := candStrategy candidate;
                  decisionConfidence := confidence;
                  reasoning := reasoning;
                  protectedRanges := protectedRanges |}
  end.

Definition computeTrimDecision (input : DecisionInput) : outcome TrimDecision :=
  let trimNeededSec := videoDurationSec input - targetDurationSec input in
  if Js.ltb trimNeededSec (-0.01) then
    Throws (appError AUDIO_LONGER_THAN_VIDEO
      "Replacement audio is longer than the source video. V1 only supports trimming excess video.")
  else
    let protectedRanges :=
      mergeRanges
        (List.map
           (fun region : SpeechRegion =>
              expandRange region SPEECH_PADDING_SEC (videoDurationSec input))
           (speechRegions (analysis input))) in
    let candidates :=
      buildCandidates (videoDurationSec input) (targetDurationSec input)
        (hasReplacementAudio input) in
    match tryCandidates input trimNeededSec protectedRanges candidates with
    | Some decision => Returns decision
    | None =>
        if hasReplacementAudio input then
          Throws (appError NO_SYNC_SAFE_CUT
            "No sync-safe tail trim candidate was found while preserving protected speech regions.")
        else
          let fallback :=
            fallbackCandidate (videoDurationSec input) (targetDurationSec input)
              (analysis input) in
          let speechOverlap := overlapWithRanges (trimRanges fallback) protectedRanges in
          let fallbackConfidence :=
            Qmax 0.4 (0.62 - speechOverlap / Qmax 1 trimNeededSec) in
          Returns {| keepRange := candKeepRange fallback;
                     trimNeededSec := Qmax 0 trimNeededSec;
                     strategy := candStrategy fallback;
                     decisionConfidence := Qmin 1 fallbackConfidence;
                     reasoning :=
                       candReasoning fallback ++
                       [ "Fallback overlap with protected speech is "
                           +:+ Js.toFixed 2 speechOverlap +:+ "s." ];
                     protectedRanges := protectedRanges |}
    end.

End Engine.

(** ** Job records and events ([packages/shared/src/index.ts], [db.ts]) *)

Module Job.

Record JobRecord : Type := mkJob {
  id : string;
  status : JobStatus;
  videoPath : string;
  replacementAudioPath : option string;
  outputPath : option string;
  videoDurationSec : Q;
  targetDurationSec : Q;
  deltaSec : Q;
  decision : option TrimDecision;
  overrideKeepRange : option TimeRange;
  errorCode : option ErrorCode;
  errorMessage : option string;
  analysisResult : option AnalysisResult;
  createdAt : string;
  updatedAt : string
}.

(** The keys that the [Partial<JobRecord>] patches of the sources set.  A
    key that is present with value [undefined] is [Some None]. *)
Record JobPatch : Type := mkPatch {
  pStatus : option JobStatus;
  pOutputPath : option (option string);
  pDecision : option (option TrimDecision);
  pOverrideKeepRange : option (option TimeRange);
  pErrorCode : option (option ErrorCode);
  pErrorMessage : option (option string);
  pAnalysisResult : option (option AnalysisResult)
}.

Definition emptyPatch : JobPatch := mkPatch None None None None None None None.

(** The payload object of an event: the keys the sources put there.  A
    payload is stored as JSON text and parsed back when the history is
    replayed; on these keys that round trip is the identity (a key whose
    value is [undefined] is dropped by both the stored and the live copy), so
    a row carries the payload itself.  No payload has a [type] or a
    [timestamp] key, so spreading it never overrides those two. *)
Record Payload : Type := mkPayload {
  plStatus : option JobStatus;
  plMessage : option string;
  plProgress : option Q;
  plCode : option ErrorCode
}.

Definition emptyPayload : Payload := mkPayload None None None None.

(** A row of the [job_events] table. *)
Record JobEventRow : Type := mkRow {
  rowId : nat;
  rowJobId : string;
  rowTimestamp : string;
  rowType : string;
  rowPayload : Payload
}.

(** What is serialised into one server-sent [data:] frame. *)
Record JobEvent : Type := mkEvent {
  evType : string;
  evTimestamp : string;
  evPayload : Payload
}.

End Job.


(** ** Validators of the shared package ([packages/shared/src/index.ts])

    A zod schema is modelled by the predicate "parsing succeeds" on values
    that already have the shape of the record types above; the constraints
    that remain are the numeric ones ([min], [max]) and the refinements. *)

Module Schema.






End Schema.

(** ** Override validator ([override.ts]) *)

Module Override.

Definition validateOverrideRange (job : Job.JobRecord) (keepRange : TimeRange)
    : outcome unit :=
  if Js.ltb (startSec keepRange) 0
     || Js.gtb (endSec keepRange) (Job.videoDurationSec job) then
    Throws (appError INVALID_OVERRIDE_RANGE "Override range is outside video bounds.")
  else if Js.leb (endSec keepRange) (startSec keepRange) then
    Throws (appError INVALID_OVERRIDE_RANGE "Override end must be greater than start.")
  else
    let duration := endSec keepRange - startSec keepRange in
    if Js.gtb (Qabs (duration - Job.targetDurationSec job)) 0.25 then
      Throws (appError INVALID_OVERRIDE_RANGE
        ("Override duration must be within 0.25s of target "
           +:+ Js.toFixed 2 (Job.targetDurationSec job) +:+ "s."))
    else if Js.truthy (Job.replacementAudioPath job)
            && Js.gtb (startSec keepRange) 0.001 then
      Throws (appError NO_SYNC_SAFE_CUT
        "Replacement audio only supports tail-only ranges in V1.")
    else Returns tt.

End Override.

(** ** Double-precision arithmetic

    The value of a finite IEEE 754 double is a rational number, and the sum,
    difference, product or quotient that the program computes from two
    doubles is the exact result rounded to the nearest double, to the one
    with the even significand when two are equally near.  A double has a
    significand of 53 bits; below [2^-1022] the spacing of the doubles stays
    at [2^-1074].  A result of magnitude [2^1024] or more (which the program
    would turn into an infinity) is outside the model. *)

Module Binary64.

(** [2^e]. *)
Definition pow2 (e : Z) : Q :=
  match e with
  | Z0 => 1
  | Zpos p => inject_Z (Zpos (2 ^ p))
  | Zneg p => 1 # (2 ^ p)
  end.

(** For [x > 0], the integer [e] with [2^e <= x < 2^(e+1)]. *)
Definition exponent (x : Q) : Z :=
  let k := (Z.log2 (Qnum x) - Z.log2 (Zpos (Qden x)))%Z in
  if Qle_bool (pow2 k) x then k else (k - 1)%Z.

(** The integer nearest to [y], the even one on a tie. *)
Definition nearestEven (y : Q) : Z :=
  let f := Qfloor y in
  match Qcompare (y - inject_Z f) (1 # 2) with
  | Lt => f
  | Gt => (f + 1)%Z
  | Eq => if Z.even f then f else (f + 1)%Z
  end.

(** The spacing of the doubles around [x > 0]. *)
Definition ulp (x : Q) : Q := pow2 (Z.max (exponent x) (-1022) - 52).

(** The double nearest to [x], as a fraction in lowest terms. *)
Definition round (x : Q) : Q :=
  if Qeq_bool x 0 then 0
  else
    let r := Qred (inject_Z (nearestEven (Qabs x / ulp (Qabs x))) * ulp (Qabs x)) in
    if Qle_bool 0 x then r else - r.

(** [x] is the value of a double. *)
Definition representable (x : Q) : Prop := round x == x.

End Binary64.

(** ** The computations of the sources in double precision

    The functions of [decision/range.ts], [decision/engine.ts] and
    [override.ts] that add, subtract, multiply or divide, with every such
    operation rounded and every decimal literal read as the double nearest
    to it.  The functions of those files that only compare and select
    ([normalizeRange], [overlaps], [mergeRanges], [hasInvalidRange],
    [withinDuration]) are the ones of [Range] and [Engine].  A number that
    reaches these functions is a double: the samples write theirs with
    [num]. *)

Module Rounded.
Import Range.

(** A decimal literal of the sources. *)
Definition num (literal : Q) : Q := Binary64.round literal.

(** [a + b], [a - b], [a * b] and [a / b] on numbers. *)
Definition add (a b : Q) : Q := Binary64.round (a + b).
Definition sub (a b : Q) : Q := Binary64.round (a - b).
Definition mul (a b : Q) : Q := Binary64.round (a * b).
Definition div (a b : Q) : Q := Binary64.round (a / b).

Declare Scope double_scope.
Delimit Scope double_scope with double.
Infix "⊕" := add (at level 50, left associativity) : double_scope.
Infix "⊖" := sub (at level 50, left associativity) : double_scope.
Infix "⊗" := mul (at level 40, left associativity) : double_scope.
Infix "⊘" := div (at level 40, left associativity) : double_scope.
Local Open Scope double_scope.

(** *** [decision/range.ts] *)

Definition rangeLength (range : TimeRange) : Q :=
  Qmax 0 (endSec range ⊖ startSec range).

Definition intersectionLength (a b : TimeRange) : Q :=
  if negb (overlaps a b) then 0
  else Qmin (endSec a) (endSec b) ⊖ Qmax (startSec a) (startSec b).

Definition expandRange (range : TimeRange) (paddingSec durationSec : Q) : TimeRange :=
  {| startSec := Qmax 0 (startSec range ⊖ paddingSec);
     endSec := Qmin durationSec (endSec range ⊕ paddingSec) |}.

Definition totalOverlapLength (range : TimeRange) (protectedRanges : list TimeRange) : Q :=
  fold_left (fun sum protectedRange => sum ⊕ intersectionLength range protectedRange)
    protectedRanges 0.

(** *** [decision/engine.ts] *)

Definition SPEECH_PADDING_SEC : Q := num 0.35.
Definition OVERLAP_TOLERANCE_SEC : Q := num 0.02.

Definition overlapWithRanges (trimRanges ranges : list TimeRange) : Q :=
  fold_left (fun sum trimRange => sum ⊕ totalOverlapLength trimRange ranges)
    trimRanges 0.

Definition silenceCoverage (trimRanges silenceRanges : list TimeRange) : Q :=
  let trimLength := fold_left (fun sum range => sum ⊕ rangeLength range) trimRanges 0 in
  if Js.eqb trimLength 0 then 1
  else
    let silenceOverlap :=
      fold_left
        (fun sum trimRange =>
           sum ⊕ fold_left
                    (fun acc silenceRange => acc ⊕ intersectionLength trimRange silenceRange)
                    silenceRanges 0)
        trimRanges 0 in
    Qmin 1 (silenceOverlap ⊘ trimLength).

Definition buildCandidates (videoDurationSec targetDurationSec : Q)
    (hasReplacementAudio : bool) : list Engine.Candidate :=
  let trimNeededSec := Qmax 0 (videoDurationSec ⊖ targetDurationSec) in
  if Js.leb trimNeededSec 0 then
    [ {| Engine.candStrategy := outro;
         Engine.candKeepRange := {| startSec := 0; endSec := videoDurationSec |};
         Engine.trimRanges := [];
         Engine.candReasoning :=
           ["No trimming required because video already matches target duration."] |} ]
  else
    let outroTrim :=
      {| startSec := Qmax 0 targetDurationSec; endSec := videoDurationSec |} in
    let candidates :=
      [ {| Engine.candStrategy := outro;
           Engine.candKeepRange := {| startSec := 0; endSec := targetDurationSec |};
           Engine.trimRanges := [outroTrim];
           Engine.candReasoning := ["Preferred outro trim candidate selected first."] |} ] in
    let candidates :=
      if negb hasReplacementAudio then
        let introTrim := {| startSec := 0; endSec := trimNeededSec |} in
        let introShare := trimNeededSec ⊘ 2 in
        let outroShare := trimNeededSec ⊖ introShare in
        candidates ++
        [ {| Engine.candStrategy := intro;
             Engine.candKeepRange :=
               {| startSec := trimNeededSec; endSec := videoDurationSec |};
             Engine.trimRanges := [introTrim];
             Engine.candReasoning :=
               ["No safe outro candidate found; evaluating intro trim."] |} ] ++
        [ {| Engine.candStrategy := intro_outro;
             Engine.candKeepRange :=
               {| startSec := introShare; endSec := videoDurationSec ⊖ outroShare |};
             Engine.trimRanges :=
               [ {| startSec := 0; endSec := introShare |};
                 {| startSec := videoDurationSec ⊖ outroShare;
                    endSec := videoDurationSec |} ];
             Engine.candReasoning :=
               ["Balancing trim between intro and outro as secondary fallback."] |} ]
      else candidates in
    List.filter
      (fun candidate => negb (Engine.hasInvalidRange (Engine.trimRanges candidate)))
      candidates.

(** The [default] branch of the [switch] cannot be reached with a value of
    type [TrimStrategy]. *)
Definition strategyBaseConfidence (strategy : TrimStrategy) : Q :=
  match strategy with
  | outro => num 0.88
  | intro => num 0.78
  | intro_outro => num 0.72
  | fallback_low_density => num 0.62
  end.

(** The closure [scoreFor] of [fallbackCandidate]. *)
Definition scoreFor (analysis : AnalysisResult) (range : TimeRange) : Q :=
  let lowInfoBonus :=
    fold_left
      (fun sum (lowInfo : LowInfoRegion) =>
         if negb (overlaps range lowInfo) then sum
         else sum ⊕ intersectionLength range lowInfo ⊗ score lowInfo)
      (lowInfoRegions analysis) 0 in
  - lowInfoBonus.

Definition fallbackCandidate (videoDurationSec targetDurationSec : Q)
    (analysis : AnalysisResult) : Engine.Candidate :=
  let trimNeededSec := Qmax 0 (videoDurationSec ⊖ targetDurationSec) in
  let introTrim := {| startSec := 0; endSec := trimNeededSec |} in
  let outroTrim := {| startSec := targetDurationSec; endSec := videoDurationSec |} in
  let introScore := scoreFor analysis introTrim in
  let outroScore := scoreFor analysis outroTrim in
  let pickOutro := Js.leb outroScore introScore in
  {| Engine.candStrategy := fallback_low_density;
     Engine.candKeepRange :=
       if pickOutro then {| startSec := 0; endSec := targetDurationSec |}
       else {| startSec := trimNeededSec; endSec := videoDurationSec |};
     Engine.trimRanges := [if pickOutro then outroTrim else introTrim];
     Engine.candReasoning :=
       ["Fallback selected by lowest semantic-density edge region when rule-based candidates were blocked."] |}.

(** The body of the [for (const candidate of candidates)] loop: [Some] is
    the decision returned from inside the loop, [None] is falling out of
    the loop. *)
Fixpoint tryCandidates (input : Engine.DecisionInput) (trimNeededSec : Q)
    (protectedRanges : list TimeRange) (candidates : list Engine.Candidate)
    : option TrimDecision :=
  match candidates with
  | [] => None
  | candidate :: rest =>
      let speechOverlap :=
        overlapWithRanges (Engine.trimRanges candidate) protectedRanges in
      if Js.gtb speechOverlap OVERLAP_TOLERANCE_SEC then
        tryCandidates input trimNeededSec protectedRanges rest
      else
        let candidateTrimLength :=
          fold_left (fun sum trimRange => sum ⊕ rangeLength trimRange)
            (Engine.trimRanges candidate) 0 in
        let silenceScore :=
          silenceCoverage (Engine.trimRanges candidate)
            (silenceRegions (Engine.analysis input)) in
        let overlapRatio :=
          if Js.gtb candidateTrimLength 0 then speechOverlap ⊘ candidateTrimLength
          else 0 in
        let confidence :=
          Qmax 0
            (Qmin 1
               (strategyBaseConfidence (Engine.candStrategy candidate)
                ⊕ silenceScore ⊗ num 0.1 ⊖ overlapRatio ⊗ num 0.5)) in
        let reasoning :=
          Engine.candReasoning candidate ++
          [ "Speech overlap across trim regions is " +:+ Js.toFixed 2 speechOverlap +:+ "s.";
            "Silence coverage of trim regions is "
              +:+ Js.toFixed 1 (silenceScore ⊗ 100) +:+ "%." ] in
        if negb (Engine.withinDuration (Engine.candKeepRange candidate)
                   (Engine.videoDurationSec input)) then
          tryCandidates input trimNeededSec protectedRanges rest
        else
          Some {| keepRange := Engine.candKeepRange candidate;
                  trimNeededSec := Qmax 0 trimNeededSec;
                  strategy := Engine.candStrategy candidate;
                  decisionConfidence := confidence;
                  reasoning := reasoning;
                  protectedRanges := protectedRanges |}
  end.

Definition computeTrimDecision (input : Engine.DecisionInput) : outcome TrimDecision :=
  let trimNeededSec := Engine.videoDurationSec input ⊖ Engine.targetDurationSec input in
  if Js.ltb trimNeededSec (- num 0.01) then
    Throws (appError AUDIO_LONGER_THAN_VIDEO
      "Replacement audio is longer than the source video. V1 only supports trimming excess video.")
  else
    let protectedRanges :=
      mergeRanges
        (List.map
           (fun region : SpeechRegion =>
              expandRange region SPEECH_PADDING_SEC (Engine.videoDurationSec input))
           (speechRegions (Engine.analysis input))) in
    let candidates :=
      buildCandidates (Engine.videoDurationSec input) (Engine.targetDurationSec input)
        (Engine.hasReplacementAudio input) in
    match tryCandidates input trimNeededSec protectedRanges candidates with
    | Some decision => Returns decision
    | None =>
        if Engine.hasReplacementAudio input then
          Throws (appError NO_SYNC_SAFE_CUT
            "No sync-safe tail trim candidate was found while preserving protected speech regions.")
        else
          let fallback :=
            fallbackCandidate (Engine.videoDurationSec input)
              (Engine.targetDurationSec input) (Engine.analysis input) in
          let speechOverlap :=
            overlapWithRanges (Engine.trimRanges fallback) protectedRanges in
          let fallbackConfidence :=
            Qmax (num 0.4) (num 0.62 ⊖ speechOverlap ⊘ Qmax 1 trimNeededSec) in
          Returns {| keepRange := Engine.candKeepRange fallback;
                     trimNeededSec := Qmax 0 trimNeededSec;
                     strategy := Engine.candStrategy fallback;
                     decisionConfidence := Qmin 1 fallbackConfidence;
                     reasoning :=
                       Engine.candReasoning fallback ++
                       [ "Fallback overlap with protected speech is "
                           +:+ Js.toFixed 2 speechOverlap +:+ "s." ];
                     protectedRanges := protectedRanges |}
    end.

(** *** [override.ts] *)

Definition validateOverrideRange (job : Job.JobRecord) (keepRange : TimeRange)
    : outcome unit :=
  if Js.ltb (startSec keepRange) 0
     || Js.gtb (endSec keepRange) (Job.videoDurationSec job) then
    Throws (appError INVALID_OVERRIDE_RANGE "Override range is outside video bounds.")
  else if Js.leb (endSec keepRange) (startSec keepRange) then
    Throws (appError INVALID_OVERRIDE_RANGE "Override end must be greater than start.")
  else
    let duration := endSec keepRange ⊖ startSec keepRange in
    if Js.gtb (Qabs (duration ⊖ Job.targetDurationSec job)) (num 0.25) then
      Throws (appError INVALID_OVERRIDE_RANGE
        ("Override duration must be within 0.25s of target "
           +:+ Js.toFixed 2 (Job.targetDurationSec job) +:+ "s."))
    else if Js.truthy (Job.replacementAudioPath job)
            && Js.gtb (startSec keepRange) (num 0.001) then
      Throws (appError NO_SYNC_SAFE_CUT
        "Replacement audio only supports tail-only ranges in V1.")
    else Returns tt.

End Rounded.

(** ** The process state and the monad of effectful code *)

Module Sys.

Inductive Stream : Type := Stdout | Stderr.

(** What a spawned child does: the chunks it prints, in arrival order, and
    how it ends (["close"] with an exit code that may be [null], or
    ["error"]). *)
Inductive Finish : Type :=
  | Closed (code : option Z)
  | Errored (message : string).

Record SpawnRun : Type := mkRun {
  chunks : list (Stream * string);
  finish : Finish
}.

Inductive QueueTask : Type :=
  | AnalysisTask (jobId : string)
  | RenderTask (jobId : string).

(** Calls that leave the modelled code: file system, child processes, the
    clock, the random source, and the invocation of a queued task. *)
Inductive Call : Type :=
  | MkdirSync (dir : string)
  | WriteFileSync (file : string) (data : string)
  | ExistsSync (file : string)
  | Spawn (command : string) (args : list string) (cwd : option string)
  | Uuidv4
  | NewDate
  | InvokeTask (task : QueueTask).

(** What a response object has been asked to send. *)
Inductive Sent : Type :=
  | Head (statusCode : Z)
  | Json (statusCode : Z) (code : ErrorCode) (message : string)
  | Data (event : Job.JobEvent)
  | End.

Record State : Type := mkState {
  jobs : gmap string Job.JobRecord;        (* table [jobs] *)
  jobEvents : list Job.JobEventRow;        (* table [job_events], by [id] *)
  clients : gmap string (gset nat);        (* [JobEventBus.clients] *)
  responses : gmap nat (list Sent);        (* output of each [Response] *)
  tasks : list QueueTask;                  (* [JobQueue.tasks] *)
  running : nat;                           (* [JobQueue.running] *)
  calls : list Call                        (* calls made so far, oldest first *)
}.

(** The answers of the outside world.  Each may depend on every call made
    before it. *)
Record Env : Type := mkEnv {
  existsSyncAnswer : list Call -> string -> bool;
  spawnAnswer : list Call -> string -> list string -> SpawnRun;
  uuidAnswer : list Call -> string;
  dateAnswer : list Call -> string
}.

(** Library functions of the platform and the configuration constants. *)
Record Platform : Type := mkPlatform {
  pathJoin : list string -> string;
  pathDirname : string -> string;
  pathExtname : string -> string;
  toLowerCase : string -> string;
  trim : string -> string;
  numberToString : Q -> string;            (* template-literal conversion *)
  parseNumber : string -> option Q;        (* [Number(s)], [None] if not finite *)
  ffmpegBin : string;
  ffprobeBin : string;
  repoRoot : string;
  uploadsRoot : string;
  workRoot : string;
  outputsRoot : string;
  artifactsRoot : string;
  jobConcurrency : nat
}.

Definition M (A : Type) : Type := State -> outcome A * State.

Definition ret {A} (a : A) : M A := fun st => (Returns a, st).

Definition bind {A B} (c : M A) (k : A -> M B) : M B :=
  fun st =>
    match c st with
    | (Returns a, st') => k a st'
    | (Throws e, st') => (Throws e, st')
    end.

Definition throw {A} (e : Thrown) : M A := fun st => (Throws e, st).

Definition get : M State := fun st => (Returns st, st).

Definition modify (f : State -> State) : M unit := fun st => (Returns tt, f st).

(** [for (const x of xs) body(x)]. *)
Fixpoint forEach {A} (xs : list A) (body : A -> M unit) : M unit :=
  match xs with
  | [] => ret tt
  | x :: rest => bind (body x) (fun _ => forEach rest body)
  end.

(** [f?.(x)] for an optional callback. *)
Definition optCall {A} (f : option (A -> M unit)) (x : A) : M unit :=
  match f with
  | Some g => g x
  | None => ret tt
  end.

Definition record (c : Call) : M unit :=
  modify (fun st =>
    mkState (jobs st) (jobEvents st) (clients st) (responses st) (tasks st)
      (running st) (calls st ++ [c])).

Section WithEnv.
Context (E : Env).

Definition mkdirSync (dir : string) : M unit := record (MkdirSync dir).

Definition writeFileSync (file : string) (data : string) : M unit :=
  record (WriteFileSync file data).

Definition existsSync (file : string) : M bool :=
  bind get (fun st =>
  bind (record (ExistsSync file)) (fun _ =>
  ret (existsSyncAnswer E (calls st) file))).

Definition spawn (command : string) (args : list string) (cwd : option string)
    : M SpawnRun :=
  bind get (fun st =>
  bind (record (Spawn command args cwd)) (fun _ =>
  ret (spawnAnswer E (calls st) command args))).

Definition uuidv4 : M string :=
  bind get (fun st =>
  bind (record Uuidv4) (fun _ => ret (uuidAnswer E (calls st)))).

(** [new Date().toISOString()]. *)
Definition nowIso : M string :=
  bind get (fun st =>
  bind (record NewDate) (fun _ => ret (dateAnswer E (calls st)))).

End WithEnv.

End Sys.

Notation "x <- c1 ;; c2" := (Sys.bind c1 (fun x => c2))
  (at level 100, c1 at next level, right associativity, only parsing).
Notation "c1 ;;; c2" := (Sys.bind c1 (fun _ => c2))
  (at level 100, right associativity, only parsing).

(** [a || b] on strings: the first operand unless it is empty. *)
Definition orElse (a b : string) : string :=
  match a with
  | EmptyString => b
  | _ => a
  end.

(** ** Child processes and media probing ([process.ts], [media.ts]) *)

Module Media.
Import Sys.

Record ProcessResult : Type := mkResult {
  code : Z;
  stdout : string;
  stderr : string
}.

Section WithEnv.
Context (P : Platform) (E : Env).

(** The ["data"] handlers of [runProcess], applied to the chunks in
    arrival order; the result is the accumulated [stdout] and [stderr]. *)
Fixpoint feedChunks (cs : list (Stream * string)) (out err : string)
    (onStdout onStderr : option (string -> M unit)) : M (string * string) :=
  match cs with
  | [] => ret (out, err)
  | (Stdout, text) :: rest =>
      optCall onStdout text ;;;
      feedChunks rest (out +:+ text) err onStdout onStderr
  | (Stderr, text) :: rest =>
      optCall onStderr text ;;;
      feedChunks rest out (err +:+ text) onStdout onStderr
  end.

Definition runProcess (command : string) (args : list string) (cwd : option string)
    (onStdout onStderr : option (string -> M unit)) : M ProcessResult :=
  run <- spawn E command args cwd ;;
  io <- feedChunks (chunks run) "" "" onStdout onStderr ;;
  match finish run with
  | Errored message => throw (PlainError message)
  | Closed c =>
      ret {| code := default 1%Z c; stdout := fst io; stderr := snd io |}
  end.

Definition probeDurationSeconds (filePath : string) : M Q :=
  present <- existsSync E filePath ;;
  if negb present then
    throw (PlainError ("Media file does not exist: " +:+ filePath))
  else
    result <- runProcess (ffprobeBin P)
      [ "-v"; "error"; "-show_entries"; "format=duration"; "-of";
        "default=noprint_wrappers=1:nokey=1"; filePath ] None None None ;;
    if negb (code result =? 0)%Z then
      throw (PlainError ("ffprobe failed: " +:+ orElse (stderr result) (stdout result)))
    else
      match parseNumber P (trim P (stdout result)) with
      | Some value =>
          if Js.leb value 0 then
            throw (PlainError ("Invalid duration from ffprobe for " +:+ filePath))
          else ret value
      | None => throw (PlainError ("Invalid duration from ffprobe for " +:+ filePath))
      end.

End WithEnv.

(** [clampRange] of [media.ts]. *)
Definition clampRange (startSec' endSec' durationSec : Q) : TimeRange :=
  let start := Qmax 0 (Qmin durationSec startSec') in
  let end' := Qmax 0 (Qmin durationSec endSec') in
  {| startSec := Qmin start end'; endSec := Qmax start end' |}.

End Media.

(** ** Render orchestration ([render.ts]) *)

Module Render.
Import Sys Media.

Record RenderOptions : Type := mkOptions {
  videoPath : string;
  replacementAudioPath : option string;
  keepRange : TimeRange;
  videoDurationSec : Q;
  targetDurationSec : Q;
  outputPath : string;
  onProgress : option (Q * option string -> M unit);
  onLog : option (string -> M unit)
}.

Record RenderResult : Type := mkRendered {
  renderedPath : string;
  durationSec : Q
}.

Definition digitValue (c : ascii) : option Z :=
  let n := Z.of_nat (nat_of_ascii c) in
  if ((48 <=? n) && (n <=? 57))%Z then Some (n - 48)%Z else None.

(** One match of [/time=(\d{2}:\d{2}:\d{2}\.\d{2})/] at the head of [s],
    already converted as [Number(hh) * 3600 + Number(mm) * 60 + Number(ss)]. *)
Definition matchTimeAt (s : string) : option Q :=
  match s with
  | String "t"%char (String "i"%char (String "m"%char (String "e"%char (String "="%char
      (String h1 (String h2 (String ":"%char (String m1 (String m2 (String ":"%char
        (String s1 (String s2 (String "."%char (String f1 (String f2 _))))))))))))))) =>
      match digitValue h1, digitValue h2, digitValue m1, digitValue m2,
            digitValue s1, digitValue s2, digitValue f1, digitValue f2 with
      | Some a, Some b, Some c, Some d, Some e, Some f, Some g, Some h =>
          Some (inject_Z (10 * a + b) * 3600 + inject_Z (10 * c + d) * 60
                + (inject_Z (10 * e + f) + inject_Z (10 * g + h) / 100))
      | _, _, _, _, _, _, _, _ => None
      end
  | _ => None
  end.

(** The [while] loop over [regex.exec]: the last match wins. *)
Fixpoint scanProgress (s : string) (latest : option Q) : option Q :=
  match s with
  | EmptyString => latest
  | String _ rest =>
      scanProgress rest
        (match matchTimeAt s with
         | Some seconds => Some seconds
         | None => latest
         end)
  end.

Definition parseFfmpegProgressSeconds (stderrChunk : string) : option Q :=
  scanProgress stderrChunk None.

Definition shouldUseStreamCopy (keepRange : TimeRange)
    (replacementAudioPath : option string) : bool :=
  Js.leb (startSec keepRange) 0.001 && Js.gtb (endSec keepRange) 0
  && negb (Js.truthy replacementAudioPath).

Definition shouldUseStreamCopyWithReplacement (keepRange : TimeRange)
    (replacementAudioPath : option string) : bool :=
  Js.leb (startSec keepRange) 0.001 && Js.truthy replacementAudioPath.

Section WithEnv.
Context (P : Platform) (E : Env).

(** The argument vector handed to the encoder. *)
Definition encoderArgs (options : RenderOptions) : list string :=
  let useCopy :=
    shouldUseStreamCopy (keepRange options) (replacementAudioPath options) in
  let useCopyWithReplacement :=
    shouldUseStreamCopyWithReplacement (keepRange options)
      (replacementAudioPath options) in
  let args := ["-y"; "-hide_banner"; "-loglevel"; "info"] in
  let audio := default "" (replacementAudioPath options) in
  if useCopy then
    args ++ [ "-i"; videoPath options; "-to";
              numberToString P (endSec (keepRange options));
              "-c"; "copy"; outputPath options ]
  else if useCopyWithReplacement then
    args ++ [ "-i"; videoPath options; "-i"; audio; "-to";
              numberToString P (endSec (keepRange options));
              "-map"; "0:v:0"; "-map"; "1:a:0"; "-c:v"; "copy"; "-c:a"; "aac";
              "-shortest"; outputPath options ]
  else
    args ++ [ "-i"; videoPath options ]
      ++ (if Js.truthy (replacementAudioPath options) then ["-i"; audio] else [])
      ++ [ "-ss"; numberToString P (startSec (keepRange options));
           "-to"; numberToString P (endSec (keepRange options));
           "-map"; "0:v:0" ]
      ++ (if Js.truthy (replacementAudioPath options)
          then ["-map"; "1:a:0"] else ["-map"; "0:a?"])
      ++ [ "-c:v"; "libx264"; "-preset"; "veryfast"; "-crf"; "18"; "-c:a"; "aac";
           "-movflags"; "+faststart"; outputPath options ].

(** The [onStderr] handler passed to [runProcess]. *)
Definition onEncoderStderr (options : RenderOptions) (chunk : string) : M unit :=
  let expectedDuration := targetDurationSec options in
  optCall (onLog options) (trim P chunk) ;;;
  match parseFfmpegProgressSeconds chunk with
  | None => ret tt
  | Some seconds =>
      if Js.leb expectedDuration 0 then
        optCall (onProgress options) (1, Some "Rendering finished")
      else
        optCall (onProgress options)
          (Qmin 0.99 (Qmax 0 (seconds / expectedDuration)),
           Some "Rendering in progress")
  end.

Definition renderVideo (options : RenderOptions) : M RenderResult :=
  mkdirSync (pathDirname P (outputPath options)) ;;;
  if Js.ltb (startSec (keepRange options)) 0
     || Js.gtb (endSec (keepRange options)) (videoDurationSec options) then
    throw (appError INVALID_OVERRIDE_RANGE "Render range is outside video bounds.")
  else if Js.leb (endSec (keepRange options)) (startSec (keepRange options)) then
    throw (appError INVALID_OVERRIDE_RANGE "Render range must have positive duration.")
  else if Js.truthy (replacementAudioPath options)
          && Js.gtb (startSec (keepRange options)) 0.001 then
    throw (appError NO_SYNC_SAFE_CUT
      "Replacement audio supports tail-only trims in V1 to preserve synchronization.")
  else
    let expectedDuration := targetDurationSec options in
    result <- runProcess E (ffmpegBin P) (encoderArgs options) (Some (repoRoot P))
                None (Some (onEncoderStderr options)) ;;
    if negb (code result =? 0)%Z then
      throw (appError RENDER_FAILED
        (orElse (stderr result) (orElse (stdout result) "FFmpeg render failed.")))
    else
      present <- existsSync E (outputPath options) ;;
      if negb present then
        throw (appError RENDER_FAILED "FFmpeg completed but output file was not produced.")
      else
        renderedDurationSec <- probeDurationSeconds P E (outputPath options) ;;
        if Js.gtb (Qabs (renderedDurationSec - expectedDuration)) 0.25 then
          throw (appError RENDER_FAILED
            ("Output duration " +:+ Js.toFixed 2 renderedDurationSec
               +:+ "s is outside tolerance for target "
               +:+ Js.toFixed 2 expectedDuration +:+ "s."))
        else
          optCall (onProgress options) (1, Some "Rendering complete") ;;;
          ret {| renderedPath := outputPath options;
                 durationSec := renderedDurationSec |}.

End WithEnv.

End Render.

(** ** Persistence ([db.ts]) *)

Module Repo.
Import Sys.

Definition setJobs (f : gmap string Job.JobRecord -> gmap string Job.JobRecord)
    : M unit :=
  modify (fun st =>
    mkState (f (jobs st)) (jobEvents st) (clients st) (responses st) (tasks st)
      (running st) (calls st)).

Definition getJob (jobId : string) : M (option Job.JobRecord) :=
  st <- get ;; ret (jobs st !! jobId).

Section WithEnv.
Context (E : Env).

(** [insertJob]: the columns not named by the argument are [NULL]; a
    second row with the same primary key is refused by the database. *)
Definition insertJob (id : string) (status : JobStatus) (videoPath : string)
    (replacementAudioPath : option string)
    (videoDurationSec targetDurationSec deltaSec : Q)
    (createdAt updatedAt : string) : M Job.JobRecord :=
  st <- get ;;
  match jobs st !! id with
  | Some _ => throw (PlainError "UNIQUE constraint failed: jobs.id")
  | None =>
      setJobs (fun js =>
        <[ id := Job.mkJob id status videoPath replacementAudioPath None
                   videoDurationSec targetDurationSec deltaSec None None None None
                   None createdAt updatedAt ]> js) ;;;
      inserted <- getJob id ;;
      match inserted with
      | None => throw (PlainError ("Job insert failed for " +:+ id))
      | Some job => ret job
      end
  end.

(** [{ ...current, ...patch, updatedAt }]. *)
Definition mergePatch (current : Job.JobRecord) (patch : Job.JobPatch)
    (updatedAt : string) : Job.JobRecord :=
  Job.mkJob (Job.id current)
    (default (Job.status current) (Job.pStatus patch))
    (Job.videoPath current)
    (Job.replacementAudioPath current)
    (default (Job.outputPath current) (Job.pOutputPath patch))
    (Job.videoDurationSec current)
    (Job.targetDurationSec current)
    (Job.deltaSec current)
    (default (Job.decision current) (Job.pDecision patch))
    (default (Job.overrideKeepRange current) (Job.pOverrideKeepRange patch))
    (default (Job.errorCode current) (Job.pErrorCode patch))
    (default (Job.errorMessage current) (Job.pErrorMessage patch))
    (default (Job.analysisResult current) (Job.pAnalysisResult patch))
    (Job.createdAt current)
    updatedAt.

Definition updateJob (jobId : string) (patch : Job.JobPatch) : M Job.JobRecord :=
  current <- getJob jobId ;;
  match current with
  | None => throw (PlainError ("Job " +:+ jobId +:+ " not found"))
  | Some current =>
      updatedAt <- nowIso E ;;
      let merged := mergePatch current patch updatedAt in
      setJobs (fun js => <[ Job.id merged := merged ]> js) ;;;
      updated <- getJob jobId ;;
      match updated with
      | None => throw (PlainError ("Job update failed for " +:+ jobId))
      | Some job => ret job
      end
  end.

(** [insertEvent], called with an object payload as everywhere in the
    sources: the row gets the next [AUTOINCREMENT] id. *)
Definition insertEvent (jobId type : string) (payload : Job.Payload) : M unit :=
  timestamp <- nowIso E ;;
  modify (fun st =>
    mkState (jobs st)
      (jobEvents st ++
         [Job.mkRow (S (length (jobEvents st))) jobId timestamp type payload])
      (clients st) (responses st) (tasks st) (running st) (calls st)).

End WithEnv.

(** [SELECT ... WHERE job_id = ? ORDER BY id ASC]. *)
Definition listEvents (jobId : string) : M (list Job.JobEventRow) :=
  st <- get ;;
  ret (List.filter (fun row => String.eqb (Job.rowJobId row) jobId) (jobEvents st)).

End Repo.

(** ** Event bus ([events.ts]) *)

Module Bus.
Import Sys.

Definition setClients (f : gmap string (gset nat) -> gmap string (gset nat))
    : M unit :=
  modify (fun st =>
    mkState (jobs st) (jobEvents st) (f (clients st)) (responses st) (tasks st)
      (running st) (calls st)).

(** [res.write], [res.writeHead], [res.json], [res.end] on response [res]. *)
Definition send (res : nat) (x : Sent) : M unit :=
  modify (fun st =>
    mkState (jobs st) (jobEvents st) (clients st)
      (<[ res := default [] (responses st !! res) ++ [x] ]> (responses st))
      (tasks st) (running st) (calls st)).

Definition sseWrite (res : nat) (event : Job.JobEvent) : M unit :=
  send res (Data event).

Definition addClient (jobId : string) (res : nat) : M unit :=
  st <- get ;;
  (if negb (bool_decide (is_Some (clients st !! jobId)))
   then setClients (fun cs => <[ jobId := ∅ ]> cs) else ret tt) ;;;
  setClients (fun cs =>
    match cs !! jobId with
    | Some set => <[ jobId := set ∪ {[ res ]} ]> cs
    | None => cs
    end).

Definition removeClient (jobId : string) (res : nat) : M unit :=
  st <- get ;;
  match clients st !! jobId with
  | None => ret tt
  | Some set =>
      let set' := set ∖ {[ res ]} in
      setClients (fun cs => <[ jobId := set' ]> cs) ;;;
      if (size set' =? 0)%nat then setClients (fun cs => delete jobId cs) else ret tt
  end.

Definition publish (jobId : string) (event : Job.JobEvent) : M unit :=
  st <- get ;;
  match clients st !! jobId with
  | None => ret tt
  | Some set => forEach (elements set) (fun res => sseWrite res event)
  end.

Section WithEnv.
Context (E : Env).

Definition emitStatus (jobId : string) (status : JobStatus) (message : option string)
    : M unit :=
  timestamp <- nowIso E ;;
  publish jobId
    (Job.mkEvent "status" timestamp (Job.mkPayload (Some status) message None None)).

Definition emitProgress (jobId : string) (progress : Q) (message : option string)
    : M unit :=
  timestamp <- nowIso E ;;
  publish jobId
    (Job.mkEvent "progress" timestamp
       (Job.mkPayload None message (Some (Qmin 1 (Qmax 0 progress))) None)).

Definition emitError (jobId : string) (message : string) : M unit :=
  timestamp <- nowIso E ;;
  publish jobId
    (Job.mkEvent "error" timestamp (Job.mkPayload None (Some message) None None)).

Definition emitComplete (jobId : string) (message : option string) : M unit :=
  timestamp <- nowIso E ;;
  publish jobId
    (Job.mkEvent "complete" timestamp (Job.mkPayload None message None None)).

End WithEnv.

End Bus.

(** ** Task queue ([queue.ts]) *)

Module Queue.
Import Sys.

Definition setQueue (ts : list QueueTask) (r : nat) : M unit :=
  modify (fun st =>
    mkState (jobs st) (jobEvents st) (clients st) (responses st) ts r (calls st)).

(** [runNext]: the invocation [task()] is recorded as a call.  The body of
    the task is not modelled here: the program runs it up to its first
    [await] inside [task()], so for an analysis task the job is already
    marked as analyzing, with the event that says so, when [runNext]
    returns. *)
Definition runNext (concurrency : nat) : M unit :=
  st <- get ;;
  if (concurrency <=? running st)%nat then ret tt
  else
    match tasks st with
    | [] => ret tt
    | task :: rest =>
        setQueue rest (running st + 1) ;;;
        record (InvokeTask task)
    end.

Definition push (concurrency : nat) (task : QueueTask) : M unit :=
  st <- get ;;
  setQueue (tasks st ++ [task]) (running st) ;;;
  runNext concurrency.

(** The [finally] continuation attached to an invoked task; it runs in a
    later turn, once the task has settled. *)
Definition settled (concurrency : nat) : M unit :=
  st <- get ;;
  setQueue (tasks st) (running st - 1) ;;;
  runNext concurrency.

End Queue.

(** ** Job service ([job-service.ts]) *)

Module Service.
Import Sys.

Record UploadInput : Type := mkUpload {
  videoOriginalName : string;
  videoBuffer : string;
  replacementAudioOriginalName : option string;
  replacementAudioBuffer : option string
}.

(** The type narrowing shared by [emitAndPersistEvent] and the event route:
    one of the five event types, or ["log"]. *)
Definition eventType (type : string) : string :=
  if String.eqb type "status" || String.eqb type "progress" || String.eqb type "log"
     || String.eqb type "error" || String.eqb type "complete"
  then type else "log".

(** [s.replace(/[^a-z0-9.]/g, "")]. *)
Fixpoint keepExtChars (s : string) : string :=
  match s with
  | EmptyString => EmptyString
  | String c rest =>
      let n := nat_of_ascii c in
      if ((97 <=? n) && (n <=? 122) || (48 <=? n) && (n <=? 57) || (n =? 46))%nat
      then String c (keepExtChars rest) else keepExtChars rest
  end.

Section WithEnv.
Context (P : Platform) (E : Env).

Definition sanitizeExt (fileName : option string) (fallback : string) : string :=
  match fileName with
  | None => fallback
  | Some EmptyString => fallback
  | Some name =>
      let ext := toLowerCase P (pathExtname P name) in
      if String.eqb ext "" || (10 <? String.length ext)%nat then fallback
      else orElse (keepExtChars ext) fallback
  end.

Definition emitAndPersistEvent (jobId type : string) (payload : Job.Payload)
    : M unit :=
  Repo.insertEvent E jobId type payload ;;;
  timestamp <- nowIso E ;;
  Bus.publish jobId (Job.mkEvent (eventType type) timestamp payload).

Definition createJob (input : UploadInput) : M Job.JobRecord :=
  jobId <- uuidv4 E ;;
  let uploadDir := pathJoin P [uploadsRoot P; jobId] in
  let workDir := pathJoin P [workRoot P; jobId] in
  let artifactDir := pathJoin P [artifactsRoot P; jobId] in
  mkdirSync uploadDir ;;;
  mkdirSync workDir ;;;
  mkdirSync artifactDir ;;;
  let videoPath :=
    pathJoin P [uploadDir;
                "video" +:+ sanitizeExt (Some (videoOriginalName input)) ".mp4"] in
  writeFileSync videoPath (videoBuffer input) ;;;
  replacementAudioPath <-
    match replacementAudioBuffer input with
    | Some buffer =>
        if Js.truthy (replacementAudioOriginalName input) then
          let audioPath :=
            pathJoin P
              [uploadDir;
               "replacement-audio"
                 +:+ sanitizeExt (replacementAudioOriginalName input) ".wav"] in
          writeFileSync audioPath buffer ;;;
          ret (Some audioPath)
        else ret None
    | None => ret None
    end ;;
  videoDurationSec <- Media.probeDurationSeconds P E videoPath ;;
  targetDurationSec <-
    match replacementAudioPath with
    | Some audioPath =>
        if Js.truthy replacementAudioPath
        then Media.probeDurationSeconds P E audioPath
        else ret videoDurationSec
    | None => ret videoDurationSec
    end ;;
  let deltaSec := videoDurationSec - targetDurationSec in
  createdAt <- nowIso E ;;
  job <- Repo.insertJob jobId queued videoPath replacementAudioPath
           videoDurationSec targetDurationSec deltaSec createdAt createdAt ;;
  emitAndPersistEvent jobId "status"
    (Job.mkPayload (Some queued) (Some "Job accepted and queued.") None None) ;;;
  if Js.truthy replacementAudioPath && Js.leb deltaSec 0 then
    job <- Repo.updateJob E jobId
             (Job.mkPatch (Some failed) None None None
                (Some (Some AUDIO_LONGER_THAN_VIDEO))
                (Some (Some "Replacement audio is longer than the source video. V1 only supports trimming excess video."))
                None) ;;
    emitAndPersistEvent jobId "error"
      (Job.mkPayload None (Job.errorMessage job) None
         (Some AUDIO_LONGER_THAN_VIDEO)) ;;;
    ret job
  else
    Queue.push (jobConcurrency P) (AnalysisTask jobId) ;;;
    ret job.

(** A call to a function that returns or throws, inside effectful code. *)
Definition lift {A} (o : outcome A) : M A :=
  match o with
  | Returns a => ret a
  | Throws e => throw e
  end.

Definition saveOverride (jobId : string) (keepRange : TimeRange) : M Job.JobRecord :=
  job <- Repo.getJob jobId ;;
  match job with
  | None => throw (AppError JOB_NOT_FOUND ("Job " +:+ jobId +:+ " not found.") 404)
  | Some job =>
      lift (Override.validateOverrideRange job keepRange) ;;;
      updated <- Repo.updateJob E jobId
                   (Job.mkPatch None None None (Some (Some keepRange)) None None None) ;;
      emitAndPersistEvent jobId "log"
        (Job.mkPayload None
           (Some ("Manual override set: " +:+ Js.toFixed 2 (startSec keepRange)
                    +:+ "-" +:+ Js.toFixed 2 (endSec keepRange) +:+ "s"))
           None None) ;;;
      ret updated
  end.

End WithEnv.

End Service.

(** ** The event route of the HTTP server ([server.ts]) *)

Module Server.
Import Sys.

(** The object written for a stored row when the history is replayed. *)
Definition replayed (row : Job.JobEventRow) : Job.JobEvent :=
  Job.mkEvent (Service.eventType (Job.rowType row)) (Job.rowTimestamp row)
    (Job.rowPayload row).

(** Handler of [GET /api/jobs/:id/events] for the response object [res].
    It contains no [await]: it runs to its end before any other handler,
    callback or queued task continues. *)
Definition getJobEvents (jobId : string) (res : nat) : M unit :=
  job <- Repo.getJob jobId ;;
  match job with
  | None =>
      Bus.send res (Json 404 JOB_NOT_FOUND ("Job " +:+ jobId +:+ " not found."))
  | Some _ =>
      Bus.send res (Head 200) ;;;
      Bus.addClient jobId res ;;;
      rows <- Repo.listEvents jobId ;;
      forEach rows (fun row => Bus.send res (Data (replayed row)))
  end.

(** The ["close"] listener registered by the handler. *)
Definition onClose (jobId : string) (res : nat) : M unit :=
  Bus.removeClient jobId res ;;;
  Bus.send res End.

End Server.

(** ** Turns of the event loop

    The process is single-threaded: a handler, a callback or the part of an
    [async] function between two [await]s runs to its end before anything
    else runs.  The turns that touch the event stream of a job are the
    emission of a stored event ([emitAndPersistEvent], which has no [await]
    between storing and publishing), the broadcast of a status that is not
    stored ([JobEventBus.emitStatus]), the handler that attaches an observer
    and the listener that detaches it.  An interleaving of observers and
    emitters is a list of such turns. *)

Module Timeline.
Import Sys.

Inductive Turn : Type :=
  | Emit (jobId type : string) (payload : Job.Payload)
  | Broadcast (jobId : string) (status : JobStatus) (message : option string)
  | Attach (jobId : string) (res : nat)
  | Close (jobId : string) (res : nat).

Definition turn (E : Env) (t : Turn) : M unit :=
  match t with
  | Emit jobId type payload => Service.emitAndPersistEvent E jobId type payload
  | Broadcast jobId status message => Bus.emitStatus E jobId status message
  | Attach jobId res => Server.getJobEvents jobId res
  | Close jobId res => Server.onClose jobId res
  end.

Definition run (E : Env) (ts : list Turn) : M unit := forEach ts (turn E).

End Timeline.

(** ** Vocabulary of the statements *)

Module Spec.
Import Range.

(** Sorted by [startSec]. *)
Definition sortedByStart (l : list TimeRange) : Prop :=
  StronglySorted (fun a b => startSec a <= startSec b) l.

(** No two ranges of the list overlap. *)
Definition nonOverlapping (l : list TimeRange) : Prop :=
  ForallOrdPairs (fun a b => overlaps a b = false) l.

(** Sum of the lengths of the ranges of a list. *)
Definition totalLength (l : list TimeRange) : Q :=
  fold_left (fun sum range => sum + rangeLength range) l 0.

(** [inner] lies inside [outer]. *)
Definition contains (outer inner : TimeRange) : Prop :=
  startSec outer <= startSec inner /\ endSec inner <= endSec outer.

(** Every range has positive length and each one ends strictly before the
    next one starts. *)
Inductive separated : list TimeRange -> Prop :=
  | separated_nil : separated []
  | separated_one a : startSec a < endSec a -> separated [a]
  | separated_cons a b l :
      startSec a < endSec a -> endSec a < startSec b ->
      separated (b :: l) -> separated (a :: b :: l).

(** The merge loop started with an empty output array. *)
Definition mergeFrom (current : TimeRange) (rest : list TimeRange) : list TimeRange :=
  mergeLoop [] current rest.

(** Aggregate contact of a trimmed edge with the low-information regions:
    the sum of [intersectionLength(trim, region) * region.score]. *)
Definition contact (analysis : AnalysisResult) (trim : TimeRange) : Q :=
  fold_left
    (fun sum (lowInfo : LowInfoRegion) =>
       sum + intersectionLength trim lowInfo * score lowInfo)
    (lowInfoRegions analysis) 0.

(** The protected ranges of an input: every speech region expanded by the
    padding, clamped, then merged. *)
Definition protectedOf (input : Engine.DecisionInput) : list TimeRange :=
  mergeRanges
    (List.map
       (fun region : SpeechRegion =>
          expandRange region Engine.SPEECH_PADDING_SEC (Engine.videoDurationSec input))
       (speechRegions (Engine.analysis input))).

(** A candidate is accepted when its trim ranges overlap the protected
    ranges by at most the tolerance and its keep range lies within the
    video. *)
Definition acceptable (input : Engine.DecisionInput) (candidate : Engine.Candidate)
    : bool :=
  Js.leb (Engine.overlapWithRanges (Engine.trimRanges candidate) (protectedOf input))
    Engine.OVERLAP_TOLERANCE_SEC
  && Engine.withinDuration (Engine.candKeepRange candidate)
       (Engine.videoDurationSec input).

(** The candidates of an input, in the order in which they are tried. *)
Definition candidatesOf (input : Engine.DecisionInput) : list Engine.Candidate :=
  Engine.buildCandidates (Engine.videoDurationSec input)
    (Engine.targetDurationSec input) (Engine.hasReplacementAudio input).

(** The pure outro trim and the pure intro trim of an input. *)
Definition outroEdge (input : Engine.DecisionInput) : TimeRange :=
  {| startSec := Engine.targetDurationSec input;
     endSec := Engine.videoDurationSec input |}.

Definition introEdge (input : Engine.DecisionInput) : TimeRange :=
  {| startSec := 0;
     endSec := Qmax 0 (Engine.videoDurationSec input - Engine.targetDurationSec input) |}.

(** What is kept when the outro edge, respectively the intro edge, is
    trimmed. *)
Definition keepWithoutOutro (input : Engine.DecisionInput) : TimeRange :=
  {| startSec := 0; endSec := Engine.targetDurationSec input |}.

Definition keepWithoutIntro (input : Engine.DecisionInput) : TimeRange :=
  {| startSec := Qmax 0 (Engine.videoDurationSec input - Engine.targetDurationSec input);
     endSec := Engine.videoDurationSec input |}.

(** The choice made by the code: the edge with the higher contact is
    trimmed, the outro on ties. *)
Definition higherContactKeep (input : Engine.DecisionInput) : TimeRange :=
  if Js.leb (contact (Engine.analysis input) (introEdge input))
            (contact (Engine.analysis input) (outroEdge input))
  then keepWithoutOutro input else keepWithoutIntro input.

(** The call threw an [AppError] with the given code. *)
Definition throwsCode {A} (o : outcome A) (code : ErrorCode) : Prop :=
  exists message status, o = Throws (AppError code message status).

(** The checks on a keep range that come before the tail-only rule:
    inside the video and of positive length, and (for the validator only)
    of a duration within 0.25 s of the target. *)
Definition inBounds (videoDurationSec : Q) (range : TimeRange) : bool :=
  negb (Js.ltb (startSec range) 0 || Js.gtb (endSec range) videoDurationSec)
  && negb (Js.leb (endSec range) (startSec range)).

Definition inTolerance (targetDurationSec : Q) (range : TimeRange) : bool :=
  negb (Js.gtb (Qabs (endSec range - startSec range - targetDurationSec)) 0.25).

(** State [st] after the calls [cs] have been made. *)
Definition withCalls (st : Sys.State) (cs : list Sys.Call) : Sys.State :=
  Sys.mkState (Sys.jobs st) (Sys.jobEvents st) (Sys.clients st) (Sys.responses st)
    (Sys.tasks st) (Sys.running st) (Sys.calls st ++ cs).

(** A call to the encoder binary occurs among the calls. *)
Definition encoderInvoked (P : Sys.Platform) (cs : list Sys.Call) : bool :=
  existsb (fun c =>
             match c with
             | Sys.Spawn command _ _ => String.eqb command (Sys.ffmpegBin P)
             | _ => false
             end) cs.

(** The keep range passes every check that [renderVideo] makes before it
    starts the encoder. *)
Definition passesRenderChecks (options : Render.RenderOptions) : bool :=
  inBounds (Render.videoDurationSec options) (Render.keepRange options)
  && negb (Js.truthy (Render.replacementAudioPath options)
           && Js.gtb (startSec (Render.keepRange options)) 0.001).

(** State [st] with the response outputs replaced by [rs]. *)
Definition withResponses (st : Sys.State) (rs : gmap nat (list Sys.Sent)) : Sys.State :=
  Sys.mkState (Sys.jobs st) (Sys.jobEvents st) (Sys.clients st) rs
    (Sys.tasks st) (Sys.running st) (Sys.calls st).

(** Appending [x] to the output of every response of [targets]. *)
Definition sendAll (targets : list nat) (x : Sys.Sent) (rs : gmap nat (list Sys.Sent))
    : gmap nat (list Sys.Sent) :=
  fold_left (fun rs res => <[ res := default [] (rs !! res) ++ [x] ]> rs) targets rs.

(** The tasks whose invocation is recorded among the calls. *)
Definition invoked (cs : list Sys.Call) : list Sys.QueueTask :=
  omap (fun c => match c with Sys.InvokeTask task => Some task | _ => None end) cs.

(** Every task submitted to the queue so far, oldest first: those already
    invoked, then those still waiting. *)
Definition submitted (st : Sys.State) : list Sys.QueueTask :=
  invoked (Sys.calls st) ++ Sys.tasks st.

(** Where [createJob] stores the uploaded files of job [jobId]. *)
Definition uploadVideoPath (P : Sys.Platform) (jobId : string)
    (input : Service.UploadInput) : string :=
  Sys.pathJoin P
    [ Sys.pathJoin P [Sys.uploadsRoot P; jobId];
      "video" +:+ Service.sanitizeExt P (Some (Service.videoOriginalName input)) ".mp4" ].

Definition uploadAudioPath (P : Sys.Platform) (jobId : string)
    (input : Service.UploadInput) : option string :=
  match Service.replacementAudioBuffer input with
  | Some _ =>
      if Js.truthy (Service.replacementAudioOriginalName input) then
        Some (Sys.pathJoin P
                [ Sys.pathJoin P [Sys.uploadsRoot P; jobId];
                  "replacement-audio"
                    +:+ Service.sanitizeExt P (Service.replacementAudioOriginalName input)
                          ".wav" ])
      else None
  | None => None
  end.

(** The state in which [createJob] starts probing: the identifier has been
    drawn, the three directories created and the uploads written. *)
Definition afterUpload (P : Sys.Platform) (E : Sys.Env) (input : Service.UploadInput)
    (st : Sys.State) : Sys.State :=
  let jobId := Sys.uuidAnswer E (Sys.calls st) in
  withCalls st
    ([ Sys.Uuidv4;
       Sys.MkdirSync (Sys.pathJoin P [Sys.uploadsRoot P; jobId]);
       Sys.MkdirSync (Sys.pathJoin P [Sys.workRoot P; jobId]);
       Sys.MkdirSync (Sys.pathJoin P [Sys.artifactsRoot P; jobId]);
       Sys.WriteFileSync (uploadVideoPath P jobId input)
         (Service.videoBuffer input) ]
     ++ match uploadAudioPath P jobId input with
        | Some audioPath =>
            [ Sys.WriteFileSync audioPath
                (default "" (Service.replacementAudioBuffer input)) ]
        | None => []
        end).

(** The stored events of a job, in stored order: what [listEvents] returns. *)
Definition rowsOf (jobId : string) (st : Sys.State) : list Job.JobEventRow :=
  List.filter (fun row => String.eqb (Job.rowJobId row) jobId) (Sys.jobEvents st).

(** An event without its time stamp: the stored copy of an event and the
    copy published live are stamped by two readings of the clock. *)
Definition content (event : Job.JobEvent) : string * Job.Payload :=
  (Job.evType event, Job.evPayload event).

(** The events of the job published to the bus during the turns, and those
    of them that are also stored. *)
Fixpoint publishedContent (jobId : string) (ts : list Timeline.Turn)
    : list (string * Job.Payload) :=
  match ts with
  | [] => []
  | Timeline.Emit j type payload :: rest =>
      if String.eqb j jobId
      then (Service.eventType type, payload) :: publishedContent jobId rest
      else publishedContent jobId rest
  | Timeline.Broadcast j status message :: rest =>
      if String.eqb j jobId
      then ("status", Job.mkPayload (Some status) message None None)
             :: publishedContent jobId rest
      else publishedContent jobId rest
  | _ :: rest => publishedContent jobId rest
  end.

Fixpoint persistedContent (jobId : string) (ts : list Timeline.Turn)
    : list (string * Job.Payload) :=
  match ts with
  | [] => []
  | Timeline.Emit j type payload :: rest =>
      if String.eqb j jobId
      then (Service.eventType type, payload) :: persistedContent jobId rest
      else persistedContent jobId rest
  | _ :: rest => persistedContent jobId rest
  end.

(** The turn attaches or detaches the response object [res]. *)
Definition usesResponse (res : nat) (t : Timeline.Turn) : bool :=
  match t with
  | Timeline.Attach _ r | Timeline.Close _ r => Nat.eqb r res
  | _ => false
  end.

(** The events among what a response has been asked to send. *)
Definition dataOf (out : list Sys.Sent) : list Job.JobEvent :=
  omap (fun x => match x with Sys.Data event => Some event | _ => None end) out.

(** The observers of a job. *)
Definition observers (jobId : string) (st : Sys.State) : gset nat :=
  default ∅ (Sys.clients st !! jobId).

(** The observer [res] of job [jobId] is attached to that job only, has
    been sent [out] and the job has the stored events [rows]. *)
Definition tracks (jobId : string) (res : nat) (st : Sys.State)
    (out : list Sys.Sent) (rows : list Job.JobEventRow) : Prop :=
  res ∈ observers jobId st
  /\ (forall j, j <> jobId -> res ∉ observers j st)
  /\ Sys.responses st !! res = Some out
  /\ rowsOf jobId st = rows.

(** The instant [x] lies in the range (its end excluded). *)
Definition covers (range : TimeRange) (x : Q) : Prop :=
  startSec range <= x /\ x < endSec range.


(** What a child process printed on one of its two streams. *)
Fixpoint outputOf (stream : Sys.Stream) (chunks : list (Sys.Stream * string)) : string :=
  match chunks with
  | [] => ""
  | (Sys.Stdout, text) :: rest =>
      match stream with
      | Sys.Stdout => text +:+ outputOf stream rest
      | Sys.Stderr => outputOf stream rest
      end
  | (Sys.Stderr, text) :: rest =>
      match stream with
      | Sys.Stdout => outputOf stream rest
      | Sys.Stderr => text +:+ outputOf stream rest
      end
  end.

(** The arguments with which a media file is probed. *)
Definition probeArgs (filePath : string) : list string :=
  [ "-v"; "error"; "-show_entries"; "format=duration"; "-of";
    "default=noprint_wrappers=1:nokey=1"; filePath ].

(** An optional callback that returns whenever it is called. *)
Definition returnsAlways {A} (f : option (A -> Sys.M unit)) : Prop :=
  forall g, f = Some g -> forall x st, exists st', g x st = (Returns tt, st').

(** The options that [JobService.render] hands to [renderVideo] for a job
    and the keep range it has validated. *)
Definition renderOptionsOf (job : Job.JobRecord) (keepRange : TimeRange)
    (outputPath : string) (onProgress : option (Q * option string -> Sys.M unit))
    (onLog : option (string -> Sys.M unit)) : Render.RenderOptions :=
  {| Render.videoPath := Job.videoPath job;
     Render.replacementAudioPath := Job.replacementAudioPath job;
     Render.keepRange := keepRange;
     Render.videoDurationSec := Job.videoDurationSec job;
     Render.targetDurationSec := Job.targetDurationSec job;
     Render.outputPath := outputPath;
     Render.onProgress := onProgress;
     Render.onLog := onLog |}.

(** The queue runs at most [concurrency] tasks, and a task waits only
    while every slot is taken. *)
Definition withinCapacity (concurrency : nat) (st : Sys.State) : Prop :=
  (Sys.running st <= concurrency)%nat
  /\ (Sys.tasks st <> [] -> Sys.running st = concurrency).

(** No job is registered on the bus with an empty set of observers. *)
Definition tidy (st : Sys.State) : Prop :=
  forall jobId set, Sys.clients st !! jobId = Some set -> set <> ∅.

(** The response object [res] is attached to no job. *)
Definition detached (res : nat) (st : Sys.State) : Prop :=
  forall jobId, res ∉ observers jobId st.

(** Every row of the [jobs] table is stored under its own [id]. *)
Definition keyedById (st : Sys.State) : Prop :=
  forall key job, Sys.jobs st !! key = Some job -> Job.id job = key.

(** The rows of [job_events] carry the ids 1, 2, 3, ... in stored order. *)
Definition numbered (st : Sys.State) : Prop :=
  forall i row, Sys.jobEvents st !! i = Some row -> Job.rowId row = S i.

(** The characters that [sanitizeExt] lets through. *)
Definition extChar (c : ascii) : bool :=
  let n := nat_of_ascii c in
  ((97 <=? n) && (n <=? 122) || (48 <=? n) && (n <=? 57) || (n =? 46))%nat.

Fixpoint allChars (p : ascii -> bool) (s : string) : bool :=
  match s with
  | EmptyString => true
  | String c rest => p c && allChars p rest
  end.

(** Two job records describe the same upload: they agree on the
    identifier, the two paths, the three durations and the creation stamp
    (everything but the state of the job and its update stamp). *)
Definition sameUpload (a b : Job.JobRecord) : Prop :=
  Job.id a = Job.id b
  /\ Job.videoPath a = Job.videoPath b
  /\ Job.replacementAudioPath a = Job.replacementAudioPath b
  /\ Job.videoDurationSec a = Job.videoDurationSec b
  /\ Job.targetDurationSec a = Job.targetDurationSec b
  /\ Job.deltaSec a = Job.deltaSec b
  /\ Job.createdAt a = Job.createdAt b.

End Spec.

(** ** Sample inputs

    The inputs of the repository's tests ([tests/decision.test.ts],
    [tests/override.test.ts]) and a few more. *)

Module Samples.

Definition baseAnalysis (speech : list SpeechRegion) : AnalysisResult :=
  {| speechRegions := speech;
     silenceRegions := [mkRange 6 10];
     sceneCutsSec := [0; 3; 6; 10];
     lowInfoRegions := [mkLowInfo (mkRange 6 10) 0.9];
     warnings := [] |}.

(** "prefers outro when safe". *)
Definition safeOutro : Engine.DecisionInput :=
  Engine.mkInput 10 8 (baseAnalysis []) false.

(** "falls back from outro to intro when outro hits protected speech". *)
Definition spokenEnding : Engine.DecisionInput :=
  Engine.mkInput 10 8
    (baseAnalysis [mkSpeech (mkRange 8.2 9.8) "ending" (Some 0.8)]) false.


(** The job of [tests/override.test.ts], without and with replacement
    audio. *)
Definition job : Job.JobRecord :=
  Job.mkJob "job-1" awaiting_review "video.mp4" None None 10 8 2 None None None None
    None "2024-01-01T00:00:00.000Z" "2024-01-01T00:00:00.000Z".

Definition jobWithAudio : Job.JobRecord :=
  Job.mkJob "job-1" awaiting_review "video.mp4" (Some "audio.wav") None 10 8 2 None
    None None None None "2024-01-01T00:00:00.000Z" "2024-01-01T00:00:00.000Z".

(** A small platform and environment to run the effectful code on. *)

Fixpoint lastIndexFrom (c : ascii) (s : string) : option string :=
  match s with
  | EmptyString => None
  | String x rest =>
      match lastIndexFrom c rest with
      | Some tail => Some tail
      | None => if Ascii.eqb x c then Some s else None
      end
  end.

Fixpoint beforeLast (c : ascii) (s : string) : option string :=
  match s with
  | EmptyString => None
  | String x rest =>
      match beforeLast c rest with
      | Some head => Some (String x head)
      | None => if Ascii.eqb x c then Some EmptyString else None
      end
  end.

Definition isSpace (c : ascii) : bool :=
  let n := nat_of_ascii c in ((n =? 32) || (n =? 10) || (n =? 13) || (n =? 9))%nat.

Fixpoint trimLeft (s : string) : string :=
  match s with
  | String c rest => if isSpace c then trimLeft rest else s
  | EmptyString => EmptyString
  end.

Definition reverse (s : string) : string :=
  String.string_of_list_ascii (List.rev (String.list_ascii_of_string s)).

Definition trimBoth (s : string) : string :=
  reverse (trimLeft (reverse (trimLeft s))).

Definition lower (c : ascii) : ascii :=
  let n := nat_of_ascii c in
  if ((65 <=? n) && (n <=? 90))%nat then ascii_of_nat (n + 32) else c.

Fixpoint lowerAll (s : string) : string :=
  match s with
  | EmptyString => EmptyString
  | String c rest => String (lower c) (lowerAll rest)
  end.

(** Unsigned decimal numerals with an optional fraction. *)
Fixpoint parseDigits (s : string) (acc : Z) (scale : option Z) : option Q :=
  match s with
  | EmptyString =>
      Some (match scale with
            | None => inject_Z acc
            | Some k => inject_Z acc / inject_Z k
            end)
  | String c rest =>
      if Ascii.eqb c "."%char then
        match scale with
        | None => parseDigits rest acc (Some 1%Z)
        | Some _ => None
        end
      else
        match Render.digitValue c with
        | Some d => parseDigits rest (10 * acc + d)%Z (option_map (Z.mul 10) scale)
        | None => None
        end
  end.

(** The conversion of a template literal, for a number with at most three
    decimals: its decimal expansion without trailing zeros. *)
Fixpoint dropZeros (reversed : string) : string :=
  match reversed with
  | String "0" rest => dropZeros rest
  | String "." rest => rest
  | _ => reversed
  end.

Definition shortDecimal (x : Q) : string :=
  reverse (dropZeros (reverse (Js.toFixed 3 x))).

Definition platform : Sys.Platform :=
  {| Sys.pathJoin := String.concat "/";
     Sys.pathDirname := fun s => default "." (beforeLast "/"%char s);
     Sys.pathExtname := fun s => default "" (lastIndexFrom "."%char s);
     Sys.toLowerCase := lowerAll;
     Sys.trim := trimBoth;
     Sys.numberToString := shortDecimal;
     Sys.parseNumber := fun s => parseDigits s 0 None;
     Sys.ffmpegBin := "ffmpeg";
     Sys.ffprobeBin := "ffprobe";
     Sys.repoRoot := "/srv/syncy";
     Sys.uploadsRoot := "/srv/syncy/data/uploads";
     Sys.workRoot := "/srv/syncy/data/work";
     Sys.outputsRoot := "/srv/syncy/data/outputs";
     Sys.artifactsRoot := "/srv/syncy/data/artifacts";
     Sys.jobConcurrency := 1 |}.

(** Every file exists; the encoder prints one progress line and exits
    with status 0; the probe prints 10 s for a video, [audio] for a
    replacement audio file and [rendered] for anything else. *)
Definition env (audio rendered : string) : Sys.Env :=
  {| Sys.existsSyncAnswer := fun _ _ => true;
     Sys.spawnAnswer := fun _ command args =>
       if String.eqb command "ffprobe" then
         let file := List.last args "" in
         let ext := default "" (lastIndexFrom "."%char file) in
         let base := default "" (lastIndexFrom "/"%char file) in
         {| Sys.chunks :=
              [(Sys.Stdout,
                if String.prefix "/video" base then "10.000000" +:+ String "010" ""
                else if String.prefix "/replacement-audio" base
                     then audio +:+ String "010" ""
                     else rendered)];
            Sys.finish := Sys.Closed (Some 0%Z) |}
       else
         {| Sys.chunks := [(Sys.Stderr, "frame=  240 fps=0.0 time=00:00:04.00 bitrate=N/A")];
            Sys.finish := Sys.Closed (Some 0%Z) |};
     Sys.uuidAnswer := fun _ => "3f2b8c1e-0000-4000-8000-000000000001";
     Sys.dateAnswer := fun _ => "2024-01-01T00:00:00.000Z" |}.

Definition emptyState : Sys.State :=
  Sys.mkState ∅ [] ∅ ∅ [] 0 [].

(** Rendering the keep range [{0.5, 8.5}] (resp. [{0, 8}]) of the sample
    job with replacement audio. *)
Definition renderOptions (keep : TimeRange) : Render.RenderOptions :=
  {| Render.videoPath := "/srv/syncy/data/uploads/job-1/video.mp4";
     Render.replacementAudioPath := Some "/srv/syncy/data/uploads/job-1/replacement-audio.wav";
     Render.keepRange := keep;
     Render.videoDurationSec := 10;
     Render.targetDurationSec := 8;
     Render.outputPath := "/srv/syncy/data/outputs/job-1.mp4";
     Render.onProgress := None;
     Render.onLog := None |}.

Definition upload (withAudio : bool) : Service.UploadInput :=
  {| Service.videoOriginalName := "Talk.MP4";
     Service.videoBuffer := "video-bytes";
     Service.replacementAudioOriginalName :=
       if withAudio then Some "voice.wav" else None;
     Service.replacementAudioBuffer :=
       if withAudio then Some "audio-bytes" else None |}.

(** A job in the middle of its analysis, with two stored events and no
    observer yet, and what happens next: a log line, a second observer, an
    event of another job, the end of the analysis, the second observer
    leaving. *)
Definition midJob : Sys.State :=
  Sys.mkState {[ "job-1" := job ]}
    [ Job.mkRow 1 "job-1" "2024-01-01T00:00:00.000Z" "status"
        (Job.mkPayload (Some queued) (Some "Job accepted and queued.") None None);
      Job.mkRow 2 "job-1" "2024-01-01T00:00:00.100Z" "status"
        (Job.mkPayload (Some analyzing) (Some "Running AI analysis.") None None) ]
    ∅ ∅ [] 1 [].

Definition laterTurns : list Timeline.Turn :=
  [ Timeline.Emit "job-1" "log"
      (Job.mkPayload None (Some "Transcribing audio.") None None);
    Timeline.Attach "job-1" 8;
    Timeline.Emit "job-2" "status"
      (Job.mkPayload (Some queued) (Some "Job accepted and queued.") None None);
    Timeline.Emit "job-1" "status"
      (Job.mkPayload (Some awaiting_review)
         (Some "Trim suggestion is ready for review.") None None);
    Timeline.Close "job-1" 8 ].

(** No speech at all, with a replacement audio track of 8 s. *)
Definition safeOutroWithAudio : Engine.DecisionInput :=
  Engine.mkInput 10 8 (baseAnalysis []) true.

(** Speech that ends 1.5 s before the target duration. *)
Definition earlySpeech : Engine.DecisionInput :=
  Engine.mkInput 10 8
    (baseAnalysis [mkSpeech (mkRange 1 6.5) "body" (Some 0.9)]) false.

(** Every file exists, and every child process prints a diagnostic and
    exits with status 1. *)
Definition failingTools : Sys.Env :=
  {| Sys.existsSyncAnswer := fun _ _ => true;
     Sys.spawnAnswer := fun _ _ _ =>
       {| Sys.chunks := [(Sys.Stderr, "Conversion failed!")];
          Sys.finish := Sys.Closed (Some 1%Z) |};
     Sys.uuidAnswer := fun _ => "3f2b8c1e-0000-4000-8000-000000000001";
     Sys.dateAnswer := fun _ => "2024-01-01T00:00:00.000Z" |}.

(** One task running and one waiting, on a queue of concurrency 1. *)
Definition busyQueue : Sys.State :=
  Sys.mkState ∅ [] ∅ ∅ [Sys.RenderTask "job-2"] 1
    [Sys.InvokeTask (Sys.AnalysisTask "job-1")].

(** The sample job stored, with one observer attached. *)
Definition observed : Sys.State :=
  Sys.mkState {[ "job-1" := job ]} [] {[ "job-1" := {[ 7%nat ]} ]}
    {[ 7%nat := [Sys.Head 200] ]} [] 0 [].

(** The sample job stored, with its first event. *)
Definition stored : Sys.State :=
  Sys.mkState {[ "job-1" := job ]}
    [ Job.mkRow 1 "job-1" "2024-01-01T00:00:00.000Z" "status"
        (Job.mkPayload (Some queued) (Some "Job accepted and queued.") None None) ]
    ∅ ∅ [] 0 [].

End Samples.

(** ** Vocabulary of the statements about the computations in double
       precision *)

Module RoundedSpec.
Import Range Rounded.
Local Open Scope double_scope.

(** By how much the video is longer than the target, as computed. *)
Definition excess (input : Engine.DecisionInput) : Q :=
  Engine.videoDurationSec input ⊖ Engine.targetDurationSec input.

(** The length to trim, the two halves into which the balanced candidate
    splits it and where the part kept by that candidate ends. *)
Definition trimNeeded (input : Engine.DecisionInput) : Q := Qmax 0 (excess input).

Definition introShare (input : Engine.DecisionInput) : Q := trimNeeded input ⊘ 2.

Definition outroShare (input : Engine.DecisionInput) : Q :=
  trimNeeded input ⊖ introShare input.

Definition balancedEnd (input : Engine.DecisionInput) : Q :=
  Engine.videoDurationSec input ⊖ outroShare input.

(** A speech region with its padding: moved out by 0.35 s at both ends, its
    start not before 0, its end not after the end of the video, and put in
    normal order. *)
Definition padded (input : Engine.DecisionInput) (region : SpeechRegion) : TimeRange :=
  normalizeRange (expandRange region SPEECH_PADDING_SEC (Engine.videoDurationSec input)).

(** The protected ranges of an input. *)
Definition protectedOf (input : Engine.DecisionInput) : list TimeRange :=
  mergeRanges
    (List.map
       (fun region : SpeechRegion =>
          expandRange region SPEECH_PADDING_SEC (Engine.videoDurationSec input))
       (speechRegions (Engine.analysis input))).

(** A candidate is accepted when its trim ranges overlap the protected
    ranges by at most the tolerance and its keep range has positive length
    and lies within the video. *)
Definition acceptable (input : Engine.DecisionInput) (candidate : Engine.Candidate)
    : bool :=
  Js.leb (overlapWithRanges (Engine.trimRanges candidate) (protectedOf input))
    OVERLAP_TOLERANCE_SEC
  && Engine.withinDuration (Engine.candKeepRange candidate)
       (Engine.videoDurationSec input).

(** The candidates of an input, in the order in which they are tried. *)
Definition candidatesOf (input : Engine.DecisionInput) : list Engine.Candidate :=
  buildCandidates (Engine.videoDurationSec input) (Engine.targetDurationSec input)
    (Engine.hasReplacementAudio input).

(** The four candidates that [buildCandidates] can generate. *)
Definition untrimmed (input : Engine.DecisionInput) : Engine.Candidate :=
  {| Engine.candStrategy := outro;
     Engine.candKeepRange := {| startSec := 0; endSec := Engine.videoDurationSec input |};
     Engine.trimRanges := [];
     Engine.candReasoning :=
       ["No trimming required because video already matches target duration."] |}.

Definition outroCandidate (input : Engine.DecisionInput) : Engine.Candidate :=
  {| Engine.candStrategy := outro;
     Engine.candKeepRange := {| startSec := 0; endSec := Engine.targetDurationSec input |};
     Engine.trimRanges :=
       [ {| startSec := Qmax 0 (Engine.targetDurationSec input);
            endSec := Engine.videoDurationSec input |} ];
     Engine.candReasoning := ["Preferred outro trim candidate selected first."] |}.

Definition introCandidate (input : Engine.DecisionInput) : Engine.Candidate :=
  {| Engine.candStrategy := intro;
     Engine.candKeepRange :=
       {| startSec := trimNeeded input; endSec := Engine.videoDurationSec input |};
     Engine.trimRanges := [ {| startSec := 0; endSec := trimNeeded input |} ];
     Engine.candReasoning := ["No safe outro candidate found; evaluating intro trim."] |}.

Definition introOutroCandidate (input : Engine.DecisionInput) : Engine.Candidate :=
  {| Engine.candStrategy := intro_outro;
     Engine.candKeepRange :=
       {| startSec := introShare input; endSec := balancedEnd input |};
     Engine.trimRanges :=
       [ {| startSec := 0; endSec := introShare input |};
         {| startSec := balancedEnd input; endSec := Engine.videoDurationSec input |} ];
     Engine.candReasoning :=
       ["Balancing trim between intro and outro as secondary fallback."] |}.

(** The pure outro trim and the pure intro trim of an input. *)
Definition outroEdge (input : Engine.DecisionInput) : TimeRange :=
  {| startSec := Engine.targetDurationSec input;
     endSec := Engine.videoDurationSec input |}.

Definition introEdge (input : Engine.DecisionInput) : TimeRange :=
  {| startSec := 0; endSec := trimNeeded input |}.

(** What is kept when the outro edge, respectively the intro edge, is
    trimmed. *)
Definition keepWithoutOutro (input : Engine.DecisionInput) : TimeRange :=
  {| startSec := 0; endSec := Engine.targetDurationSec input |}.

Definition keepWithoutIntro (input : Engine.DecisionInput) : TimeRange :=
  {| startSec := trimNeeded input; endSec := Engine.videoDurationSec input |}.

(** Aggregate contact of a trimmed edge with the low-information regions:
    the sum, over the regions that overlap the edge and in their order, of
    [intersectionLength(trim, region) * region.score]. *)
Definition contact (analysis : AnalysisResult) (trim : TimeRange) : Q :=
  fold_left
    (fun sum (lowInfo : LowInfoRegion) =>
       if overlaps trim lowInfo
       then sum ⊕ intersectionLength trim lowInfo ⊗ score lowInfo
       else sum)
    (lowInfoRegions analysis) 0.

(** What would be kept if the edge with the lower contact were trimmed (the
    outro on ties), and what is kept when the edge with the higher contact
    is trimmed (the outro on ties). *)
Definition lowerContactKeep (input : Engine.DecisionInput) : TimeRange :=
  if Js.leb (contact (Engine.analysis input) (outroEdge input))
            (contact (Engine.analysis input) (introEdge input))
  then keepWithoutOutro input else keepWithoutIntro input.

Definition higherContactKeep (input : Engine.DecisionInput) : TimeRange :=
  if Js.leb (contact (Engine.analysis input) (introEdge input))
            (contact (Engine.analysis input) (outroEdge input))
  then keepWithoutOutro input else keepWithoutIntro input.

(** The duration of a keep range is within the tolerance of the target, as
    the validator computes it. *)
Definition inTolerance (targetDurationSec : Q) (range : TimeRange) : bool :=
  negb (Js.gtb (Qabs (endSec range ⊖ startSec range ⊖ targetDurationSec)) (num 0.25)).

(** Every range of the list lies within [[0, durationSec]]. *)
Definition withinVideo (durationSec : Q) (l : list TimeRange) : Prop :=
  forall p, In p l -> 0 <= startSec p /\ endSec p <= durationSec.

End RoundedSpec.

(** ** Sample inputs in double precision *)

Module RoundedSamples.
Import Rounded.

Definition baseAnalysis (speech : list SpeechRegion) : AnalysisResult :=
  {| speechRegions := speech;
     silenceRegions := [mkRange 6 10];
     sceneCutsSec := [0; 3; 6; 10];
     lowInfoRegions := [mkLowInfo (mkRange 6 10) (num 0.9)];
     warnings := [] |}.

(** "falls back from outro to intro when outro hits protected speech". *)
Definition spokenEnding : Engine.DecisionInput :=
  Engine.mkInput 10 8
    (baseAnalysis [mkSpeech (mkRange (num 8.2) (num 9.8)) "ending" (Some (num 0.8))]) false.

(** Speech at both edges: every ordered candidate is blocked. *)
Definition spokenEdges : Engine.DecisionInput :=
  Engine.mkInput 10 8
    (baseAnalysis [ mkSpeech (mkRange (num 0.5) (num 1.5)) "opening" None;
                    mkSpeech (mkRange 9 (num 9.8)) "ending" None ]) false.

(** Every ordered candidate is blocked and the two edges have contacts that
    are equal as sums of decimals and differ as computed. *)
Definition nearTie : Engine.DecisionInput :=
  Engine.mkInput (num 2.9) (num 1.83)
    {| speechRegions :=
         [ mkSpeech (mkRange (num 0.75) (num 1.49)) "first" None;
           mkSpeech (mkRange (num 0.54) (num 2.52)) "second" None ];
       silenceRegions := [];
       sceneCutsSec := [];
       lowInfoRegions :=
         [ mkLowInfo (mkRange (num 1.56) (num 2.15)) (num 0.6);
           mkLowInfo (mkRange (num 0.42) (num 2.16)) (num 0.6) ];
       warnings := [] |} false.

(** A target 5 ms longer than the video: inside the engine's 10 ms slack. *)
Definition slightlyLongTarget : Engine.DecisionInput :=
  Engine.mkInput 10 (num 10.005) (baseAnalysis []) false.

(** A target 10 ms longer than the video, as decimals; the computed
    difference is below -0.01. *)
Definition tenMillisecondsLonger : Engine.DecisionInput :=
  Engine.mkInput (num 0.3) (num 0.31) (baseAnalysis []) false.

(** A speech region that starts one padding after the end of the video, and
    one that starts later still. *)
Definition speechPastEnd : Engine.DecisionInput :=
  Engine.mkInput 10 8
    (baseAnalysis [mkSpeech (mkRange (num 10.35) 11) "late" None]) false.

Definition speechAfterEnd : Engine.DecisionInput :=
  Engine.mkInput 10 8
    (baseAnalysis [mkSpeech (mkRange 11 12) "later" None]) false.

(** With replacement audio, speech whose padding reaches 20 ms into the
    outro trim as decimals; the computed overlap exceeds the tolerance. *)
Definition paddingAtTolerance : Engine.DecisionInput :=
  Engine.mkInput 4 2
    {| speechRegions := [mkSpeech (mkRange 1 (num 1.67)) "body" None];
       silenceRegions := [];
       sceneCutsSec := [];
       lowInfoRegions := [];
       warnings := [] |} true.

(** A job with a target of 1.78 s, without and with replacement audio, and
    a keep range that is 0.25 s longer as decimals; the computed difference
    exceeds 0.25. *)
Definition shortJob : Job.JobRecord :=
  Job.mkJob "job-2" awaiting_review "video.mp4" None None 10 (num 1.78)
    (10 ⊖ num 1.78)%double
    None None None None None "2024-01-01T00:00:00.000Z" "2024-01-01T00:00:00.000Z".

Definition shortJobWithAudio : Job.JobRecord :=
  Job.mkJob "job-2" awaiting_review "video.mp4" (Some "audio.wav") None 10 (num 1.78)
    (10 ⊖ num 1.78)%double
    None None None None None "2024-01-01T00:00:00.000Z" "2024-01-01T00:00:00.000Z".

Definition quarterSecondOff : TimeRange := mkRange (num 0.24) (num 2.27).

End RoundedSamples.

(** * Properties *)

(** ** Comparisons and selections on numbers *)

Section JsFacts.

Lemma ltb_true (a b : Q) : Js.ltb a b = true <-> a < b.
Proof.
  unfold Js.ltb. rewrite negb_true_iff.
  destruct (Qle_bool b a) eqn:H.
  - apply Qle_bool_iff in H. split; [discriminate | lra].
  - split; [intros _ | reflexivity].
    destruct (Qlt_le_dec a b) as [|Hle]; [assumption|].
    apply Qle_bool_iff in Hle. congruence.
Qed.

Lemma ltb_false (a b : Q) : Js.ltb a b = false <-> b <= a.
Proof.
  destruct (Js.ltb a b) eqn:H.
  - apply ltb_true in H. split; [discriminate | lra].
  - split; [intros _ | reflexivity].
    destruct (Qlt_le_dec a b) as [Hlt|]; [|assumption].
    apply ltb_true in Hlt. congruence.
Qed.

Lemma leb_true (a b : Q) : Js.leb a b = true <-> a <= b.
Proof. apply Qle_bool_iff. Qed.

Lemma leb_false (a b : Q) : Js.leb a b = false <-> b < a.
Proof.
  destruct (Js.leb a b) eqn:H.
  - apply leb_true in H. split; [discriminate | lra].
  - split; [intros _ | reflexivity].
    destruct (Qlt_le_dec b a) as [|Hle]; [assumption|].
    apply leb_true in Hle. congruence.
Qed.

Lemma gtb_true (a b : Q) : Js.gtb a b = true <-> b < a.
Proof. apply ltb_true. Qed.

Lemma gtb_false (a b : Q) : Js.gtb a b = false <-> a <= b.
Proof. apply ltb_false. Qed.

Lemma geb_true (a b : Q) : Js.geb a b = true <-> b <= a.
Proof. apply leb_true. Qed.

Lemma Qmax_pick (a b : Q) : (a < b /\ Qmax a b = b) \/ (b <= a /\ Qmax a b = a).
Proof.
  unfold Qmax, GenericMinMax.gmax.
  destruct (a ?= b) eqn:H.
  - right. apply Qeq_alt in H. split; [lra | reflexivity].
  - left. apply Qlt_alt in H. auto.
  - right. apply Qgt_alt in H. split; [lra | reflexivity].
Qed.

Lemma Qmin_pick (a b : Q) : (a <= b /\ Qmin a b = a) \/ (b < a /\ Qmin a b = b).
Proof.
  unfold Qmin, GenericMinMax.gmin.
  destruct (a ?= b) eqn:H.
  - left. apply Qeq_alt in H. split; [lra | reflexivity].
  - left. apply Qlt_alt in H. split; [lra | reflexivity].
  - right. apply Qgt_alt in H. auto.
Qed.

End JsFacts.

(** Case analysis on every [Qmax] and [Qmin] in sight, then linear arithmetic. *)
Ltac pick_minmax :=
  repeat match goal with
  | |- context [Qmax ?a ?b] =>
      let H := fresh "Hm" in let e := fresh "Em" in
      destruct (Qmax_pick a b) as [[H e]|[H e]]; rewrite ?e in *; clear e
  | |- context [Qmin ?a ?b] =>
      let H := fresh "Hm" in let e := fresh "Em" in
      destruct (Qmin_pick a b) as [[H e]|[H e]]; rewrite ?e in *; clear e
  | h : context [Qmax ?a ?b] |- _ =>
      let H := fresh "Hm" in let e := fresh "Em" in
      destruct (Qmax_pick a b) as [[H e]|[H e]]; rewrite ?e in *; clear e
  | h : context [Qmin ?a ?b] |- _ =>
      let H := fresh "Hm" in let e := fresh "Em" in
      destruct (Qmin_pick a b) as [[H e]|[H e]]; rewrite ?e in *; clear e
  end.

(** Turns boolean comparisons in the context into propositions. *)
Ltac reflect_cmp :=
  repeat match goal with
  | h : Js.ltb _ _ = true |- _ => apply ltb_true in h
  | h : Js.ltb _ _ = false |- _ => apply ltb_false in h
  | h : Js.leb _ _ = true |- _ => apply leb_true in h
  | h : Js.leb _ _ = false |- _ => apply leb_false in h
  | h : Js.gtb _ _ = true |- _ => apply gtb_true in h
  | h : Js.gtb _ _ = false |- _ => apply gtb_false in h
  | h : Js.geb _ _ = true |- _ => apply geb_true in h
  | h : (_ && _)%bool = true |- _ => apply andb_true_iff in h; destruct h
  | h : negb _ = true |- _ => apply negb_true_iff in h
  | h : negb _ = false |- _ => apply negb_false_iff in h
  end.

(** ** Range algebra *)

Module RangeFacts.
Import Range Spec.

Create HintDb ranges.
Local Hint Constructors separated StronglySorted Forall : ranges.

Lemma rangeLength_nonneg r : 0 <= rangeLength r.
Proof. unfold rangeLength. pick_minmax; lra. Qed.

Lemma normalizeRange_ordered r : startSec (normalizeRange r) <= endSec (normalizeRange r).
Proof.
  unfold normalizeRange. destruct (Js.leb _ _) eqn:H; reflect_cmp; simpl; lra.
Qed.

Lemma normalizeRange_id r : startSec r <= endSec r -> normalizeRange r = r.
Proof.
  intros H. unfold normalizeRange. apply leb_true in H. now rewrite H.
Qed.

(** *** Sorting *)

Lemma insertByStart_perm x l : Permutation (x :: l) (insertByStart x l).
Proof.
  induction l as [|y t IH]; simpl; [reflexivity|].
  destruct (Js.leb _ _); [reflexivity|].
  rewrite perm_swap. now constructor.
Qed.

Lemma sortByStart_perm l : Permutation l (sortByStart l).
Proof.
  induction l as [|x t IH]; simpl; [constructor|].
  rewrite <- insertByStart_perm. now constructor.
Qed.

Lemma insertByStart_sorted x l : sortedByStart l -> sortedByStart (insertByStart x l).
Proof.
  unfold sortedByStart. induction 1 as [|y t Hs IH Hy]; simpl.
  - repeat constructor.
  - destruct (Js.leb _ _) eqn:Hc; reflect_cmp.
    + constructor; [now constructor|].
      constructor; [assumption|].
      eapply List.Forall_impl; [|exact Hy]. simpl. intros; lra.
    + constructor; [assumption|].
      eapply Permutation_Forall; [apply insertByStart_perm|].
      constructor; [lra | assumption].
Qed.

Lemma sortByStart_sorted l : sortedByStart (sortByStart l).
Proof.
  induction l; simpl; [constructor | now apply insertByStart_sorted].
Qed.

Lemma filter_sorted (f : TimeRange -> bool) l :
  sortedByStart l -> sortedByStart (List.filter f l).
Proof.
  unfold sortedByStart. induction 1 as [|y t Hs IH Hy]; simpl; [constructor|].
  destruct (f y); [|assumption].
  constructor; [assumption|].
  apply List.Forall_forall. intros z Hz. apply List.filter_In in Hz as [Hz _].
  rewrite List.Forall_forall in Hy. auto.
Qed.

Lemma sortByStart_fixed l : sortedByStart l -> sortByStart l = l.
Proof.
  unfold sortedByStart. induction 1 as [|y t Hs IH Hy]; simpl; [reflexivity|].
  rewrite IH. destruct t as [|z t']; simpl; [reflexivity|].
  inversion Hy as [|? ? Hz]; subst. apply leb_true in Hz. now rewrite Hz.
Qed.

(** *** The merge loop *)

Lemma mergeLoop_acc rest : forall merged current,
  mergeLoop merged current rest = merged ++ mergeFrom current rest.
Proof.
  unfold mergeFrom.
  induction rest as [|candidate rest IH]; intros merged current; simpl; [reflexivity|].
  destruct (Js.leb _ _).
  - apply IH.
  - rewrite IH. rewrite (IH [current]). now rewrite <- app_assoc.
Qed.

Lemma mergeFrom_nil current : mergeFrom current [] = [current].
Proof. reflexivity. Qed.

Lemma mergeFrom_cons current candidate rest :
  mergeFrom current (candidate :: rest) =
  if Js.leb (startSec candidate) (endSec current) then
    mergeFrom {| startSec := startSec current;
                 endSec := Qmax (endSec current) (endSec candidate) |} rest
  else current :: mergeFrom candidate rest.
Proof.
  unfold mergeFrom at 1. simpl. destruct (Js.leb _ _); [reflexivity|].
  now rewrite mergeLoop_acc.
Qed.

(** The first range produced starts where [current] starts and reaches at
    least as far as [current]. *)
Lemma mergeFrom_head rest : forall current,
  exists h t, mergeFrom current rest = h :: t
              /\ startSec h = startSec current /\ endSec current <= endSec h.
Proof.
  induction rest as [|candidate rest IH]; intros current.
  - exists current, []. repeat split. lra.
  - rewrite mergeFrom_cons. destruct (Js.leb _ _).
    + destruct (IH {| startSec := startSec current;
                      endSec := Qmax (endSec current) (endSec candidate) |})
        as (h & t & -> & Hs & He). simpl in *.
      exists h, t. repeat split; [assumption|]. pick_minmax; lra.
    + exists current, (mergeFrom candidate rest). repeat split. lra.
Qed.

Lemma mergeFrom_separated rest : forall current,
  startSec current < endSec current ->
  Forall (fun r => startSec r < endSec r) rest ->
  separated (mergeFrom current rest).
Proof.
  induction rest as [|candidate rest IH]; intros current Hc Hall.
  - now constructor.
  - inversion Hall as [|? ? Hcand Hrest]; subst.
    rewrite mergeFrom_cons. destruct (Js.leb _ _) eqn:Hm; reflect_cmp.
    + apply IH; [|assumption]. simpl. pick_minmax; lra.
    + destruct (mergeFrom_head rest candidate) as (h & t & Heq & Hs & He).
      specialize (IH candidate Hcand Hrest). rewrite Heq in *.
      constructor; [assumption | rewrite Hs; assumption | assumption].
Qed.

Lemma separated_positive l : separated l -> Forall (fun r => startSec r < endSec r) l.
Proof. induction 1; auto with ranges. Qed.

Lemma separated_after a l :
  separated (a :: l) -> Forall (fun b => endSec a < startSec b) l.
Proof.
  revert a. induction l as [|b l IH]; intros a H; [constructor|].
  inversion H as [| |? ? ? Ha Hab Hbl]; subst.
  constructor; [assumption|].
  eapply List.Forall_impl; [|apply (IH b Hbl)]. simpl. intros c Hc.
  apply separated_positive in Hbl. inversion Hbl; subst. lra.
Qed.

Lemma separated_tail a l : separated (a :: l) -> separated l.
Proof. inversion 1; subst; [constructor | assumption]. Qed.

Lemma separated_sorted l : separated l -> sortedByStart l.
Proof.
  unfold sortedByStart. induction l as [|a l IH]; intros H; [constructor|].
  constructor; [apply IH; eapply separated_tail; eassumption|].
  pose proof (separated_positive _ H) as Hp. inversion Hp; subst.
  eapply List.Forall_impl; [|apply (separated_after _ _ H)]. simpl. intros; lra.
Qed.

Lemma separated_nonOverlapping l : separated l -> nonOverlapping l.
Proof.
  unfold nonOverlapping. induction l as [|a l IH]; intros H; [constructor|].
  constructor; [|apply IH; eapply separated_tail; eassumption].
  eapply List.Forall_impl; [|apply (separated_after _ _ H)]. simpl. intros b Hb.
  unfold overlaps. apply andb_false_iff. right. apply ltb_false. lra.
Qed.

Lemma mergeFrom_fixed l : forall a, separated (a :: l) -> mergeFrom a l = a :: l.
Proof.
  induction l as [|b l IH]; intros a H; [reflexivity|].
  inversion H as [| |? ? ? Ha Hab Hbl]; subst.
  rewrite mergeFrom_cons.
  assert (Hc : Js.leb (startSec b) (endSec a) = false) by (apply leb_false; lra).
  rewrite Hc. now rewrite IH.
Qed.

(** *** [mergeRanges] *)

(** The array called [sorted] in [mergeRanges]. *)
Lemma mergeRanges_unfold ranges :
  mergeRanges ranges =
  match List.filter (fun range => Js.gtb (endSec range) (startSec range))
          (sortByStart (List.map normalizeRange ranges)) with
  | [] => []
  | first :: rest => mergeFrom first rest
  end.
Proof. destruct ranges; reflexivity. Qed.

Lemma mergeRanges_separated ranges : separated (mergeRanges ranges).
Proof.
  rewrite mergeRanges_unfold.
  destruct (List.filter _ _) as [|first rest] eqn:Hf; [constructor|].
  assert (Hall : Forall (fun r => startSec r < endSec r) (first :: rest)).
  { rewrite <- Hf. apply List.Forall_forall. intros r Hr.
    apply List.filter_In in Hr as [_ Hr]. now apply gtb_true in Hr. }
  inversion Hall; subst. now apply mergeFrom_separated.
Qed.

Lemma mergeRanges_fixed l : separated l -> mergeRanges l = l.
Proof.
  intros H. rewrite mergeRanges_unfold.
  pose proof (separated_positive _ H) as Hp.
  assert (Hn : List.map normalizeRange l = l).
  { clear H. induction Hp as [|r l Hr Hl IH]; simpl; [reflexivity|].
    rewrite IH, normalizeRange_id; [reflexivity | lra]. }
  rewrite Hn, (sortByStart_fixed _ (separated_sorted _ H)).
  assert (Hk : List.filter (fun range => Js.gtb (endSec range) (startSec range)) l = l).
  { clear H Hn. induction Hp as [|r l Hr Hl IH]; simpl; [reflexivity|].
    apply gtb_true in Hr. now rewrite Hr, IH. }
  rewrite Hk. destruct l as [|a l]; [reflexivity|]. now apply mergeFrom_fixed.
Qed.

(** *** Sums *)

Lemma fold_sum_shift {A} (f : A -> Q) l : forall a,
  fold_left (fun sum x => sum + f x) l a == a + fold_left (fun sum x => sum + f x) l 0.
Proof.
  induction l as [|x l IH]; intros a; simpl; [lra|].
  rewrite IH, (IH (0 + f x)). lra.
Qed.

Lemma fold_sum_cons {A} (f : A -> Q) x l :
  fold_left (fun sum x => sum + f x) (x :: l) 0
  == f x + fold_left (fun sum x => sum + f x) l 0.
Proof. simpl. rewrite fold_sum_shift. lra. Qed.

Lemma fold_sum_nonneg {A} (f : A -> Q) l :
  (forall x, In x l -> 0 <= f x) -> 0 <= fold_left (fun sum x => sum + f x) l 0.
Proof.
  induction l as [|x l IH]; intros H; [simpl; lra|].
  rewrite fold_sum_cons.
  assert (0 <= f x) by (apply H; now left).
  assert (0 <= fold_left (fun sum x => sum + f x) l 0) by (apply IH; intros; apply H; now right).
  lra.
Qed.

Lemma totalLength_cons x l : totalLength (x :: l) == rangeLength x + totalLength l.
Proof. apply (fold_sum_cons rangeLength). Qed.

Lemma totalLength_nonneg l : 0 <= totalLength l.
Proof. apply fold_sum_nonneg. intros; apply rangeLength_nonneg. Qed.

Lemma totalLength_perm l l' : Permutation l l' -> totalLength l == totalLength l'.
Proof.
  induction 1 as [|x l l' Hp IH|x y l|l l' l'' H1 IH1 H2 IH2].
  - reflexivity.
  - rewrite !totalLength_cons, IH. reflexivity.
  - rewrite !totalLength_cons. lra.
  - now rewrite IH1.
Qed.

Lemma totalLength_filter (f : TimeRange -> bool) l :
  totalLength (List.filter f l) <= totalLength l.
Proof.
  induction l as [|x l IH]; simpl; [lra|].
  pose proof (rangeLength_nonneg x).
  destruct (f x); rewrite !totalLength_cons; lra.
Qed.

Lemma mergeFrom_totalLength rest : forall current,
  totalLength (mergeFrom current rest) <= rangeLength current + totalLength rest.
Proof.
  induction rest as [|candidate rest IH]; intros current.
  - rewrite mergeFrom_nil, totalLength_cons. lra.
  - rewrite mergeFrom_cons, (totalLength_cons candidate).
    destruct (Js.leb _ _) eqn:Hm; reflect_cmp.
    + eapply Qle_trans; [apply IH|].
      enough (rangeLength {| startSec := startSec current;
                             endSec := Qmax (endSec current) (endSec candidate) |}
              <= rangeLength current + rangeLength candidate) by lra.
      unfold rangeLength. simpl. pick_minmax; lra.
    + rewrite totalLength_cons. specialize (IH candidate). lra.
Qed.

Lemma mergeRanges_totalLength ranges :
  totalLength (mergeRanges ranges) <= totalLength (List.map normalizeRange ranges).
Proof.
  rewrite mergeRanges_unfold.
  rewrite (totalLength_perm _ _ (sortByStart_perm (List.map normalizeRange ranges))).
  eapply Qle_trans; [|apply (totalLength_filter
    (fun range => Js.gtb (endSec range) (startSec range)))].
  destruct (List.filter _ _) as [|first rest]; [lra|].
  rewrite totalLength_cons. apply mergeFrom_totalLength.
Qed.

(** *** Coverage *)

Lemma contains_trans a b c : contains a b -> contains b c -> contains a c.
Proof. unfold contains. intros [] []. split; lra. Qed.

Lemma mergeFrom_covers rest : forall current,
  sortedByStart (current :: rest) ->
  forall x, In x (current :: rest) ->
  exists p, In p (mergeFrom current rest) /\ contains p x.
Proof.
  unfold sortedByStart.
  induction rest as [|candidate rest IH]; intros current Hs x Hx.
  - destruct Hx as [<-|[]]. exists current. split; [now left|]. split; lra.
  - rewrite mergeFrom_cons.
    inversion Hs as [|? ? Hs' Hc]; subst.
    inversion Hs' as [|? ? Hs'' Hcand]; subst.
    inversion Hc as [|? ? Hcc Hcr]; subst.
    destruct (Js.leb _ _) eqn:Hm; reflect_cmp.
    + set (grown := {| startSec := startSec current;
                       endSec := Qmax (endSec current) (endSec candidate) |}).
      assert (Hg : StronglySorted (fun a b => startSec a <= startSec b) (grown :: rest)).
      { constructor; assumption. }
      assert (Hin : contains grown x \/ In x rest).
      { destruct Hx as [<-|[<-|Hx]]; [left|left|now right];
          unfold contains, grown; simpl; pick_minmax; split; lra. }
      destruct Hin as [Hin|Hin].
      * destruct (IH grown Hg grown (or_introl eq_refl)) as (p & Hp & Hpc).
        exists p. split; [assumption|]. eapply contains_trans; eassumption.
      * apply (IH grown Hg x). now right.
    + destruct Hx as [<-|Hx].
      * exists current. split; [now left|]. split; lra.
      * destruct (IH candidate Hs' x Hx) as (p & Hp & Hpc).
        exists p. split; [now right | assumption].
Qed.

Lemma mergeRanges_covers ranges r :
  In r ranges ->
  startSec (normalizeRange r) < endSec (normalizeRange r) ->
  exists p, In p (mergeRanges ranges) /\ contains p (normalizeRange r).
Proof.
  intros Hin Hpos. rewrite mergeRanges_unfold.
  set (kept := List.filter _ _).
  assert (Hk : In (normalizeRange r) kept).
  { apply List.filter_In. split; [|now apply gtb_true].
    eapply Permutation_in; [apply sortByStart_perm|]. now apply in_map. }
  assert (Hs : sortedByStart kept) by (apply filter_sorted, sortByStart_sorted).
  destruct kept as [|first rest]; [destruct Hk|].
  now apply mergeFrom_covers.
Qed.

(** *** Claims about [mergeRanges] *)

(** C9, as stated, fails: for the single reversed range [{5, 2}] the input
    lengths sum to [0] (the length of a reversed range is [0]) while
    [mergeRanges] normalises it to [{2, 5}], of length [3]. *)
Lemma mergeRanges_length_counterexample :
  ~ (sortedByStart (mergeRanges [mkRange 5 2])
     /\ nonOverlapping (mergeRanges [mkRange 5 2])
     /\ totalLength (mergeRanges [mkRange 5 2]) <= totalLength [mkRange 5 2]
     /\ mergeRanges (mergeRanges [mkRange 5 2]) = mergeRanges [mkRange 5 2]).
Proof.
  intros (_ & _ & H & _). apply Qle_bool_iff in H. vm_compute in H. discriminate.
Qed.

(** C9, amended: for every list of time ranges, the result of [mergeRanges]
    is sorted by start, pairwise non-overlapping, of total length at most
    the sum of the lengths of the normalised input ranges, and
    [mergeRanges] is idempotent. *)
Theorem mergeRanges_sorted_disjoint_bounded_idempotent (ranges : list TimeRange) :
  sortedByStart (mergeRanges ranges)
  /\ nonOverlapping (mergeRanges ranges)
  /\ totalLength (mergeRanges ranges) <= totalLength (List.map normalizeRange ranges)
  /\ mergeRanges (mergeRanges ranges) = mergeRanges ranges.
Proof.
  pose proof (mergeRanges_separated ranges) as Hsep.
  repeat split.
  - now apply separated_sorted.
  - now apply separated_nonOverlapping.
  - apply mergeRanges_totalLength.
  - now apply mergeRanges_fixed.
Qed.

End RangeFacts.

(** ** Decision engine *)

Module EngineFacts.
Import Range Engine Spec RangeFacts.

Lemma leb_proper a a' b b' : a == a' -> b == b' -> Js.leb a b = Js.leb a' b'.
Proof.
  intros Ha Hb. destruct (Js.leb a' b') eqn:H; reflect_cmp.
  - apply leb_true. lra.
  - apply leb_false. lra.
Qed.

Lemma acceptable_code input candidate :
  acceptable input candidate =
  negb (Js.gtb (overlapWithRanges (trimRanges candidate) (protectedOf input))
          OVERLAP_TOLERANCE_SEC)
  && negb (negb (withinDuration (candKeepRange candidate) (videoDurationSec input))).
Proof.
  unfold acceptable, Js.gtb, Js.ltb, Js.leb. now rewrite !negb_involutive.
Qed.

(** *** The loop over the candidates *)

Lemma tryCandidates_first input tn pre c post :
  existsb (acceptable input) pre = false ->
  acceptable input c = true ->
  exists d,
    tryCandidates input tn (protectedOf input) (pre ++ c :: post) = Some d
    /\ strategy d = candStrategy c /\ keepRange d = candKeepRange c
    /\ protectedRanges d = protectedOf input.
Proof.
  induction pre as [|x pre IH]; simpl; intros Hpre Hc.
  - rewrite acceptable_code in Hc. apply andb_true_iff in Hc as [Ho Hw].
    apply negb_true_iff in Ho. apply negb_true_iff in Hw.
    rewrite Ho, Hw. eexists. repeat split.
  - apply orb_false_iff in Hpre as [Hx Hpre].
    rewrite acceptable_code in Hx.
    destruct (Js.gtb _ _); [now apply IH|].
    simpl in Hx. destruct (negb (withinDuration _ _)); [now apply IH | discriminate].
Qed.

(** *** The candidates *)

Lemma buildCandidates_outro v t r c :
  In c (buildCandidates v t r) -> candStrategy c = outro ->
  startSec (candKeepRange c) = 0 /\ endSec (candKeepRange c) == Qmin v t.
Proof.
  unfold buildCandidates. destruct (Js.leb _ 0) eqn:Hn; reflect_cmp.
  - intros [<-|[]] _. simpl. split; [reflexivity|]. pick_minmax; lra.
  - intros Hin Hs. apply List.filter_In in Hin as [Hin _].
    assert (Hc : candKeepRange c = {| startSec := 0; endSec := t |}).
    { destruct r; simpl in Hin;
        repeat (destruct Hin as [<-|Hin]; [reflexivity || discriminate|]);
        destruct Hin. }
    rewrite Hc. simpl. split; [reflexivity|]. pick_minmax; lra.
Qed.

(** *** The fallback *)

Lemma scoreFor_contact analysis range :
  scoreFor analysis range == - contact analysis range.
Proof.
  unfold scoreFor, contact.
  enough (H : forall l a b, a == b ->
            fold_left
              (fun sum (lowInfo : LowInfoRegion) =>
                 if negb (overlaps range lowInfo) then sum
                 else sum + intersectionLength range lowInfo * score lowInfo) l a
            == fold_left
                 (fun sum (lowInfo : LowInfoRegion) =>
                    sum + intersectionLength range lowInfo * score lowInfo) l b).
  { rewrite (H _ 0 0); reflexivity. }
  induction l as [|x l IH]; intros a b Hab; simpl; [assumption|].
  apply IH. unfold intersectionLength.
  destruct (negb (overlaps range x)); lra.
Qed.

Lemma fallbackCandidate_keep input :
  candKeepRange
    (fallbackCandidate (videoDurationSec input) (targetDurationSec input) (analysis input))
  = higherContactKeep input
  /\ candStrategy
       (fallbackCandidate (videoDurationSec input) (targetDurationSec input)
          (analysis input))
     = fallback_low_density.
Proof.
  split; [|reflexivity].
  unfold fallbackCandidate, higherContactKeep. cbn [candKeepRange].
  rewrite (leb_proper _ (- contact (analysis input) (outroEdge input))
             _ (- contact (analysis input) (introEdge input)))
    by apply scoreFor_contact.
  assert (E : Js.leb (- contact (analysis input) (outroEdge input))
                (- contact (analysis input) (introEdge input))
              = Js.leb (contact (analysis input) (introEdge input))
                  (contact (analysis input) (outroEdge input))).
  { destruct (Js.leb (contact _ (introEdge input)) _) eqn:H; reflect_cmp.
    - apply leb_true. lra.
    - apply leb_false. lra. }
  rewrite E. reflexivity.
Qed.

(** *** Claims about [computeTrimDecision] *)



End EngineFacts.

(** ** Override validator and render orchestration *)

Module RenderFacts.
Import Sys Media Render Spec.

Lemma validateOverrideRange_cases job keepRange :
  Override.validateOverrideRange job keepRange
  = if negb (inBounds (Job.videoDurationSec job) keepRange
             && inTolerance (Job.targetDurationSec job) keepRange) then
      Throws (appError INVALID_OVERRIDE_RANGE
        (if Js.ltb (startSec keepRange) 0
            || Js.gtb (endSec keepRange) (Job.videoDurationSec job)
         then "Override range is outside video bounds."
         else if Js.leb (endSec keepRange) (startSec keepRange)
         then "Override end must be greater than start."
         else "Override duration must be within 0.25s of target "
                +:+ Js.toFixed 2 (Job.targetDurationSec job) +:+ "s."))
    else if Js.truthy (Job.replacementAudioPath job)
            && Js.gtb (startSec keepRange) 0.001 then
      Throws (appError NO_SYNC_SAFE_CUT
        "Replacement audio only supports tail-only ranges in V1.")
    else Returns tt.
Proof.
  unfold Override.validateOverrideRange, inBounds, inTolerance.
  destruct (Js.ltb (startSec keepRange) 0 || Js.gtb _ _); [reflexivity|].
  destruct (Js.leb (endSec keepRange) _); [reflexivity|].
  destruct (Js.gtb (Qabs _) _); reflexivity.
Qed.

Lemma inBounds_true v r :
  inBounds v r = true <-> ~ (startSec r < 0 \/ v < endSec r \/ endSec r <= startSec r).
Proof.
  unfold inBounds. rewrite andb_true_iff, !negb_true_iff, orb_false_iff.
  rewrite ltb_false, gtb_false, leb_false. split.
  - intros [[] ?] [|[|]]; lra.
  - intros H. repeat split.
    + destruct (Qlt_le_dec (startSec r) 0); [exfalso; apply H; now left | assumption].
    + destruct (Qlt_le_dec v (endSec r)); [exfalso; apply H; right; now left | assumption].
    + destruct (Qlt_le_dec (startSec r) (endSec r));
        [assumption | exfalso; apply H; right; now right].
Qed.


(** *** Running [renderVideo] *)

Lemma renderVideo_rejected P E options st :
  passesRenderChecks options = false ->
  exists message status,
    renderVideo P E options st
    = (Throws (AppError
                 (if inBounds (videoDurationSec options) (keepRange options)
                  then NO_SYNC_SAFE_CUT else INVALID_OVERRIDE_RANGE)
                 message status),
       withCalls st [MkdirSync (pathDirname P (outputPath options))]).
Proof.
  unfold passesRenderChecks, inBounds, renderVideo, bind, mkdirSync, record, modify,
    throw, appError, withCalls.
  destruct (Js.ltb (startSec (keepRange options)) 0 || Js.gtb _ _);
    [intros _; eexists _, _; reflexivity|].
  destruct (Js.leb (endSec (keepRange options)) _);
    [intros _; eexists _, _; reflexivity|].
  destruct (Js.truthy _ && Js.gtb _ _); [|discriminate].
  intros _. eexists _, _. reflexivity.
Qed.

Lemma renderVideo_accepted P E options st :
  passesRenderChecks options = true ->
  renderVideo P E options st
  = (result <- runProcess E (ffmpegBin P) (encoderArgs P options) (Some (repoRoot P))
                 None (Some (onEncoderStderr P options)) ;;
     if negb (code result =? 0)%Z then
       throw (appError RENDER_FAILED
         (orElse (stderr result) (orElse (stdout result) "FFmpeg render failed.")))
     else
       present <- existsSync E (outputPath options) ;;
       if negb present then
         throw (appError RENDER_FAILED "FFmpeg completed but output file was not produced.")
       else
         renderedDurationSec <- probeDurationSeconds P E (outputPath options) ;;
         if Js.gtb (Qabs (renderedDurationSec - targetDurationSec options)) 0.25 then
           throw (appError RENDER_FAILED
             ("Output duration " +:+ Js.toFixed 2 renderedDurationSec
                +:+ "s is outside tolerance for target "
                +:+ Js.toFixed 2 (targetDurationSec options) +:+ "s."))
         else
           optCall (onProgress options) (1, Some "Rendering complete") ;;;
           ret {| renderedPath := outputPath options;
                  durationSec := renderedDurationSec |})
      (withCalls st [MkdirSync (pathDirname P (outputPath options))]).
Proof.
  unfold passesRenderChecks, inBounds, renderVideo.
  unfold bind at 1. unfold mkdirSync, record, modify. cbn [fst snd].
  destruct (Js.ltb (startSec (keepRange options)) 0 || Js.gtb _ _); [discriminate|].
  destruct (Js.leb (endSec (keepRange options)) _); [discriminate|].
  destruct (Js.truthy _ && Js.gtb _ _); [discriminate|].
  intros _. reflexivity.
Qed.

(** *** Claim about the output tolerance *)



End RenderFacts.

(** ** Running effectful code *)

Module SysFacts.
Import Sys Spec.

Lemma bind_returns {A B} (c : M A) (k : A -> M B) st a st' :
  c st = (Returns a, st') -> bind c k st = k a st'.
Proof. unfold bind. now intros ->. Qed.

Lemma bind_throws {A B} (c : M A) (k : A -> M B) st e st' :
  c st = (Throws e, st') -> bind c k st = (Throws e, st').
Proof. unfold bind. now intros ->. Qed.

Lemma withCalls_withCalls st cs cs' :
  withCalls (withCalls st cs) cs' = withCalls st (cs ++ cs').
Proof. unfold withCalls. cbn. now rewrite app_assoc. Qed.

Lemma withCalls_nil st : withCalls st [] = st.
Proof. destruct st. unfold withCalls. cbn. now rewrite app_nil_r. Qed.

Lemma record_run c st : record c st = (Returns tt, withCalls st [c]).
Proof. reflexivity. Qed.

Lemma mkdirSync_run dir st : mkdirSync dir st = (Returns tt, withCalls st [MkdirSync dir]).
Proof. reflexivity. Qed.

Lemma writeFileSync_run file data st :
  writeFileSync file data st = (Returns tt, withCalls st [WriteFileSync file data]).
Proof. reflexivity. Qed.

Lemma uuidv4_run E st :
  uuidv4 E st = (Returns (uuidAnswer E (calls st)), withCalls st [Uuidv4]).
Proof. reflexivity. Qed.

Lemma nowIso_run E st :
  nowIso E st = (Returns (dateAnswer E (calls st)), withCalls st [NewDate]).
Proof. reflexivity. Qed.

Lemma existsSync_run E file st :
  existsSync E file st
  = (Returns (existsSyncAnswer E (calls st) file), withCalls st [ExistsSync file]).
Proof. reflexivity. Qed.

Lemma spawn_run E command args cwd st :
  spawn E command args cwd st
  = (Returns (spawnAnswer E (calls st) command args),
     withCalls st [Spawn command args cwd]).
Proof. reflexivity. Qed.

(** Without callbacks, feeding the chunks only accumulates the output. *)
Lemma feedChunks_silent cs : forall out err st,
  exists io, Media.feedChunks cs out err None None st = (Returns io, st).
Proof.
  induction cs as [|[[] text] cs IH]; intros out err st; cbn.
  - eexists. reflexivity.
  - unfold bind, ret. cbn. apply IH.
  - unfold bind, ret. cbn. apply IH.
Qed.

(** Probing a file only adds calls to the state, none of them the
    invocation of a task. *)
Lemma probeDurationSeconds_frame P E file st :
  exists cs, snd (Media.probeDurationSeconds P E file st) = withCalls st cs
             /\ invoked cs = [].
Proof.
  unfold Media.probeDurationSeconds.
  rewrite (bind_returns _ _ _ _ _ (existsSync_run E file st)).
  destruct (negb _); [eexists; split; reflexivity|].
  unfold Media.runProcess.
  unfold bind at 1.
  rewrite (bind_returns _ _ _ _ _ (spawn_run E _ _ _ _)).
  rewrite withCalls_withCalls.
  destruct (feedChunks_silent
              (chunks (spawnAnswer E (calls (withCalls st [ExistsSync file]))
                         (ffprobeBin P)
                         [ "-v"; "error"; "-show_entries"; "format=duration"; "-of";
                           "default=noprint_wrappers=1:nokey=1"; file ]))
              "" "" (withCalls st ([ExistsSync file] ++
                 [Spawn (ffprobeBin P)
                    [ "-v"; "error"; "-show_entries"; "format=duration"; "-of";
                      "default=noprint_wrappers=1:nokey=1"; file ] None])))
    as [io Hio].
  rewrite (bind_returns _ _ _ _ _ Hio).
  destruct (finish _); [|eexists; split; reflexivity].
  unfold ret. destruct (negb _); [eexists; split; reflexivity|].
  destruct (parseNumber P _); [|eexists; split; reflexivity].
  destruct (Js.leb _ _); eexists; split; reflexivity.
Qed.

Lemma probeDurationSeconds_returns P E file st v st' :
  Media.probeDurationSeconds P E file st = (Returns v, st') ->
  exists cs, st' = withCalls st cs /\ invoked cs = [].
Proof.
  intros H. destruct (probeDurationSeconds_frame P E file st) as (cs & Hcs & Hinv).
  rewrite H in Hcs. now exists cs.
Qed.

(** Writing one frame to each of the listed responses. *)
Lemma forEach_send targets x : forall st,
  forEach targets (fun res => Bus.send res x) st
  = (Returns tt, withResponses st (sendAll targets x (responses st))).
Proof.
  induction targets as [|res targets IH]; intros st; cbn.
  - destruct st; reflexivity.
  - unfold bind. cbn. rewrite IH. reflexivity.
Qed.

Lemma publish_run jobId event st :
  Bus.publish jobId event st
  = (Returns tt,
     withResponses st
       (sendAll (elements (default ∅ (clients st !! jobId))) (Data event)
          (responses st))).
Proof.
  unfold Bus.publish, bind, get, ret. cbn.
  destruct (clients st !! jobId) as [set|]; cbn.
  - apply (forEach_send (elements set) (Data event)).
  - rewrite elements_empty. destruct st; reflexivity.
Qed.

(** *** Persistence, events and the queue *)

Lemma insertJob_run id status videoPath audio v t delta createdAt updatedAt st :
  jobs st !! id = None ->
  Repo.insertJob id status videoPath audio v t delta createdAt updatedAt st
  = (Returns (Job.mkJob id status videoPath audio None v t delta None None None None
                None createdAt updatedAt),
     mkState
       (<[ id := Job.mkJob id status videoPath audio None v t delta None None None None
                   None createdAt updatedAt ]> (jobs st))
       (jobEvents st) (clients st) (responses st) (tasks st) (running st) (calls st)).
Proof.
  intros Hfresh.
  unfold Repo.insertJob, Repo.setJobs, Repo.getJob, bind, get, modify, ret.
  cbn [jobs]. rewrite Hfresh. cbn [jobs]. rewrite lookup_insert_eq. reflexivity.
Qed.

Lemma updateJob_run E jobId patch st current :
  jobs st !! jobId = Some current ->
  Job.id current = jobId ->
  Repo.updateJob E jobId patch st
  = (Returns (Repo.mergePatch current patch (dateAnswer E (calls st))),
     mkState
       (<[ jobId := Repo.mergePatch current patch (dateAnswer E (calls st)) ]> (jobs st))
       (jobEvents st) (clients st) (responses st) (tasks st) (running st)
       (calls st ++ [NewDate])).
Proof.
  intros Hcur Hid.
  unfold Repo.updateJob, Repo.setJobs, Repo.getJob, nowIso, record, bind, get, modify, ret.
  cbn [jobs calls]. rewrite Hcur. cbn [jobs calls Repo.mergePatch Job.id].
  rewrite Hid, lookup_insert_eq. reflexivity.
Qed.

Lemma emitAndPersistEvent_run E jobId type payload st :
  exists rows rs,
    Service.emitAndPersistEvent E jobId type payload st
    = (Returns tt,
       mkState (jobs st) (jobEvents st ++ rows) (clients st) rs (tasks st) (running st)
         (calls st ++ [NewDate; NewDate])).
Proof.
  unfold Service.emitAndPersistEvent, Repo.insertEvent.
  unfold bind at 1. unfold bind at 1. rewrite nowIso_run. unfold modify.
  rewrite (bind_returns _ _ _ _ _ (nowIso_run E _)).
  rewrite publish_run. unfold withResponses, withCalls. cbn.
  rewrite <- app_assoc. eexists _, _. reflexivity.
Qed.

Lemma push_run concurrency task st :
  exists st',
    Queue.push concurrency task st = (Returns tt, st')
    /\ jobs st' = jobs st
    /\ submitted st' = submitted st ++ [task].
Proof.
  unfold Queue.push, Queue.runNext, Queue.setQueue, record, bind, get, modify, ret.
  cbn [tasks running].
  destruct (concurrency <=? running st)%nat.
  - eexists. split; [reflexivity|]. split; [reflexivity|].
    unfold submitted. cbn. now rewrite app_assoc.
  - destruct (tasks st) as [|first rest] eqn:Ht; cbn [app].
    + eexists. split; [reflexivity|]. split; [reflexivity|].
      unfold submitted, invoked. cbn [calls tasks]. rewrite Ht.
      rewrite omap_app. cbn. now rewrite !app_nil_r.
    + eexists. split; [reflexivity|]. split; [reflexivity|].
      unfold submitted, invoked. cbn [calls tasks]. rewrite Ht.
      rewrite omap_app. cbn. now rewrite <- !app_assoc.
Qed.

Lemma invoked_app cs cs' : invoked (cs ++ cs') = invoked cs ++ invoked cs'.
Proof. apply omap_app. Qed.

End SysFacts.

(** ** Job creation *)

Module ServiceFacts.
Import Sys Spec SysFacts.

(** C7: for an upload whose durations are probed as [v] (video) and [t]
    (target: the replacement audio when there is one, the video otherwise)
    and whose fresh identifier is [jobId]: when a replacement audio track is
    attached and [deltaSec = v - t <= 0], [createJob] marks the job failed
    with AUDIO_LONGER_THAN_VIDEO and returns it without submitting anything
    to the queue; in every other case the job it returns is queued and
    exactly one analysis task, for that job, has been submitted. *)
Theorem createJob_outcome
    (P : Platform) (E : Env) (input : Service.UploadInput) (st sV sT : State)
    (v t : Q) :
  jobs st !! uuidAnswer E (calls st) = None ->
  Media.probeDurationSeconds P E
    (uploadVideoPath P (uuidAnswer E (calls st)) input) (afterUpload P E input st)
  = (Returns v, sV) ->
  match uploadAudioPath P (uuidAnswer E (calls st)) input with
  | Some audioPath =>
      if Js.truthy (Some audioPath)
      then Media.probeDurationSeconds P E audioPath sV = (Returns t, sT)
      else t = v /\ sT = sV
  | None => t = v /\ sT = sV
  end ->
  exists job st',
    Service.createJob P E input st = (Returns job, st')
    /\ Job.id job = uuidAnswer E (calls st)
    /\ Job.replacementAudioPath job = uploadAudioPath P (uuidAnswer E (calls st)) input
    /\ Job.videoDurationSec job = v
    /\ Job.targetDurationSec job = t
    /\ Job.deltaSec job = v - t
    /\ if Js.truthy (uploadAudioPath P (uuidAnswer E (calls st)) input)
          && Js.leb (v - t) 0
       then
         Job.status job = failed
         /\ Job.errorCode job = Some AUDIO_LONGER_THAN_VIDEO
         /\ jobs st' !! Job.id job = Some job
         /\ tasks st' = tasks st /\ running st' = running st
         /\ submitted st' = submitted st
       else
         Job.status job = queued
         /\ Job.errorCode job = None
         /\ submitted st' = submitted st ++ [AnalysisTask (Job.id job)].
Proof.
  intros Hfresh Hv Ht.
  set (jobId := uuidAnswer E (calls st)) in *.
  unfold Service.createJob.
  rewrite (bind_returns _ _ _ _ _ (uuidv4_run E st)). fold jobId.
  rewrite (bind_returns _ _ _ _ _ (mkdirSync_run _ _)).
  rewrite (bind_returns _ _ _ _ _ (mkdirSync_run _ _)).
  rewrite (bind_returns _ _ _ _ _ (mkdirSync_run _ _)).
  rewrite (bind_returns _ _ _ _ _ (writeFileSync_run _ _ _)).
  rewrite !withCalls_withCalls. cbn [app].
  fold (uploadVideoPath P jobId input).
  match goal with
  | |- exists job st', bind ?c _ ?s = _ /\ _ =>
      assert (Haudio : c s = (Returns (uploadAudioPath P jobId input),
                              afterUpload P E input st))
  end.
  { unfold afterUpload, uploadAudioPath. fold jobId.
    destruct (Service.replacementAudioBuffer input) as [buffer|]; [|reflexivity].
    destruct (Js.truthy (Service.replacementAudioOriginalName input)); [|reflexivity].
    rewrite (bind_returns _ _ _ _ _ (writeFileSync_run _ _ _)).
    rewrite withCalls_withCalls. reflexivity. }
  rewrite (bind_returns _ _ _ _ _ Haudio). clear Haudio.
  rewrite (bind_returns _ _ _ _ _ Hv).
  assert (Htarget :
    match uploadAudioPath P jobId input with
    | Some audioPath =>
        if Js.truthy (uploadAudioPath P jobId input)
        then Media.probeDurationSeconds P E audioPath
        else ret v
    | None => ret v
    end sV = (Returns t, sT)).
  { destruct (uploadAudioPath P jobId input) as [audioPath|].
    - destruct (Js.truthy (Some audioPath)); [exact Ht|].
      destruct Ht as [-> ->]. reflexivity.
    - destruct Ht as [-> ->]. reflexivity. }
  rewrite (bind_returns _ _ _ _ _ Htarget).
  assert (Hframe : exists cs, sT = withCalls st cs /\ invoked cs = []).
  { destruct (probeDurationSeconds_returns _ _ _ _ _ _ Hv) as (cs1 & HsV & Hi1).
    unfold afterUpload in HsV. fold jobId in HsV. rewrite withCalls_withCalls in HsV.
    assert (Hup :
              invoked
                ([ Uuidv4; MkdirSync (pathJoin P [uploadsRoot P; jobId]);
                   MkdirSync (pathJoin P [workRoot P; jobId]);
                   MkdirSync (pathJoin P [artifactsRoot P; jobId]);
                   WriteFileSync (uploadVideoPath P jobId input)
                     (Service.videoBuffer input) ]
                 ++ match uploadAudioPath P jobId input with
                    | Some audioPath =>
                        [ WriteFileSync audioPath
                            (default "" (Service.replacementAudioBuffer input)) ]
                    | None => []
                    end) = []).
    { destruct (uploadAudioPath P jobId input); reflexivity. }
    destruct (uploadAudioPath P jobId input) as [audioPath|] eqn:Hpath.
    - destruct (Js.truthy (Some audioPath)).
      + destruct (probeDurationSeconds_returns _ _ _ _ _ _ Ht) as (cs2 & -> & Hi2).
        rewrite HsV, withCalls_withCalls. eexists. split; [reflexivity|].
        now rewrite 2 invoked_app, Hup, Hi1, Hi2.
      + destruct Ht as [_ ->]. rewrite HsV. eexists. split; [reflexivity|].
        now rewrite invoked_app, Hup, Hi1.
    - destruct Ht as [_ ->]. rewrite HsV. eexists. split; [reflexivity|].
      now rewrite invoked_app, Hup, Hi1. }
  destruct Hframe as (cs & -> & Hcs). clear Hv Ht Htarget.
  rewrite (bind_returns _ _ _ _ _ (nowIso_run E _)).
  erewrite bind_returns by (apply insertJob_run; exact Hfresh).
  set (job0 := Job.mkJob _ _ _ _ _ _ _ _ _ _ _ _ _ _ _).
  match goal with
  | |- exists job st', bind (Service.emitAndPersistEvent E ?j ?ty ?pl) _ ?s = _ /\ _ =>
      destruct (emitAndPersistEvent_run E j ty pl s) as (rows & rs & Hemit)
  end.
  rewrite (bind_returns _ _ _ _ _ Hemit). clear Hemit.
  cbn [jobs jobEvents clients responses tasks running calls withCalls].
  destruct (Js.truthy (uploadAudioPath P jobId input) && Js.leb (v - t) 0).
  - erewrite bind_returns
      by (apply updateJob_run with (current := job0);
          [cbn [jobs]; apply lookup_insert_eq | reflexivity]).
    match goal with
    | |- exists job st', bind (Service.emitAndPersistEvent E ?j ?ty ?pl) _ ?s = _ /\ _ =>
        destruct (emitAndPersistEvent_run E j ty pl s) as (rows' & rs' & Hemit)
    end.
    rewrite (bind_returns _ _ _ _ _ Hemit). clear Hemit.
    cbn [jobs jobEvents clients responses tasks running calls].
    eexists _, _. split; [reflexivity|].
    cbn [Repo.mergePatch Job.id Job.status Job.replacementAudioPath
         Job.videoDurationSec Job.targetDurationSec Job.deltaSec Job.errorCode
         Job.pStatus Job.pErrorCode default job0 jobs tasks running].
    repeat split.
    + now rewrite insert_insert_eq, lookup_insert_eq.
    + unfold submitted. cbn [calls tasks].
      rewrite !invoked_app, Hcs. cbn. now rewrite !app_nil_r.
  - destruct (push_run (jobConcurrency P) (AnalysisTask jobId)
                {| jobs := <[jobId:=job0]> (jobs st);
                   jobEvents := jobEvents st ++ rows;
                   clients := clients st;
                   responses := rs;
                   tasks := tasks st;
                   running := running st;
                   calls := ((calls st ++ cs) ++ [NewDate]) ++ [NewDate; NewDate] |})
      as (st' & Hpush & _ & Hsub).
    rewrite (bind_returns _ _ _ _ _ Hpush).
    exists job0, st'. split; [reflexivity|].
    repeat split. rewrite Hsub. unfold submitted. cbn [calls tasks].
    rewrite !invoked_app, Hcs. cbn. now rewrite !app_nil_r.
Qed.

Lemma createJob_outcome_witness :
  (exists job st',
     Service.createJob Samples.platform (Samples.env "12.5" "")
       (Samples.upload true) Samples.emptyState = (Returns job, st')
     /\ Job.status job = failed
     /\ Job.errorCode job = Some AUDIO_LONGER_THAN_VIDEO
     /\ submitted st' = [])
  /\ (exists job st',
        Service.createJob Samples.platform (Samples.env "8.0" "")
          (Samples.upload true) Samples.emptyState = (Returns job, st')
        /\ Job.status job = queued
        /\ submitted st' = [AnalysisTask (Job.id job)]).
Proof.
  split.
  - edestruct (createJob_outcome Samples.platform (Samples.env "12.5" "")
                 (Samples.upload true) Samples.emptyState)
      as (job & st' & Hrun & _ & _ & _ & _ & _ & Hcase).
    + vm_compute. reflexivity.
    + cbv. reflexivity.
    + cbv. reflexivity.
    + exists job, st'. split; [exact Hrun|].
      destruct Hcase as (Hs & He & _ & _ & _ & Hq). repeat split; assumption.
  - edestruct (createJob_outcome Samples.platform (Samples.env "8.0" "")
                 (Samples.upload true) Samples.emptyState)
      as (job & st' & Hrun & _ & _ & _ & _ & _ & Hcase).
    + vm_compute. reflexivity.
    + cbv. reflexivity.
    + cbv. reflexivity.
    + exists job, st'. split; [exact Hrun|].
      destruct Hcase as (Hs & _ & Hq). split; assumption.
Defined.

End ServiceFacts.

(** ** The event stream of a job *)

Module StreamFacts.
Import Sys Spec SysFacts Timeline.

Lemma sendAll_lookup targets x : forall rs r,
  NoDup targets ->
  sendAll targets x rs !! r
  = if decide (r ∈ targets) then Some (default [] (rs !! r) ++ [x]) else rs !! r.
Proof.
  induction targets as [|a targets IH]; intros rs r Hnd.
  - destruct (decide (r ∈ [])) as [H|]; [|reflexivity]. now apply elem_of_nil in H.
  - apply NoDup_cons in Hnd as [Ha Hnd].
    change (sendAll (a :: targets) x rs)
      with (sendAll targets x (<[ a := default [] (rs !! a) ++ [x] ]> rs)).
    rewrite (IH _ r Hnd).
    destruct (decide (r = a)) as [->|Hne].
    + destruct (decide (a ∈ targets)); [contradiction|].
      rewrite lookup_insert_eq.
      destruct (decide (a ∈ a :: targets)) as [|Hn]; [reflexivity|].
      exfalso. apply Hn. now left.
    + rewrite lookup_insert_ne by congruence.
      destruct (decide (r ∈ targets)) as [Hin|Hin];
        destruct (decide (r ∈ a :: targets)) as [Hin'|Hin']; try reflexivity.
      * exfalso. apply Hin'. now right.
      * exfalso. apply elem_of_cons in Hin' as [|]; [congruence | contradiction].
Qed.

(** What publishing an event does to the output of response [res]. *)
Lemma publish_lookup jobId event st res :
  exists st',
    Bus.publish jobId event st = (Returns tt, st')
    /\ jobs st' = jobs st /\ jobEvents st' = jobEvents st /\ clients st' = clients st
    /\ responses st' !! res
       = if decide (res ∈ observers jobId st)
         then Some (default [] (responses st !! res) ++ [Data event])
         else responses st !! res.
Proof.
  eexists. split; [apply publish_run|]. repeat split.
  cbn [responses withResponses]. rewrite sendAll_lookup by apply NoDup_elements.
  unfold observers.
  destruct (decide (res ∈ elements (default ∅ (clients st !! jobId)))) as [H|H];
    destruct (decide (res ∈ default ∅ (clients st !! jobId))) as [H'|H'];
    try reflexivity; rewrite elem_of_elements in H; contradiction.
Qed.

(** Sending frames to one response. *)
Lemma send_lookup res x st r :
  exists st',
    Bus.send res x st = (Returns tt, st')
    /\ jobs st' = jobs st /\ jobEvents st' = jobEvents st /\ clients st' = clients st
    /\ responses st' !! r
       = if decide (r = res) then Some (default [] (responses st !! res) ++ [x])
         else responses st !! r.
Proof.
  eexists. split; [reflexivity|]. repeat split. cbn [responses].
  destruct (decide (r = res)) as [->|H].
  - apply lookup_insert_eq.
  - apply lookup_insert_ne. congruence.
Qed.

Lemma replay_lookup res (rows : list Job.JobEventRow) : forall st r,
  exists st',
    forEach rows (fun row => Bus.send res (Data (Server.replayed row))) st
    = (Returns tt, st')
    /\ jobs st' = jobs st /\ jobEvents st' = jobEvents st /\ clients st' = clients st
    /\ responses st' !! r
       = if decide (r = res)
         then match rows with
              | [] => responses st !! res
              | _ => Some (default [] (responses st !! res)
                           ++ List.map Data (List.map Server.replayed rows))
              end
         else responses st !! r.
Proof.
  induction rows as [|row rows IH]; intros st r.
  - exists st. repeat split. now destruct (decide (r = res)) as [->|].
  - cbn [forEach].
    destruct (send_lookup res (Data (Server.replayed row)) st res)
      as (st1 & Hrun & Hj & He & Hc & Hres).
    rewrite (bind_returns _ _ _ _ _ Hrun).
    destruct (IH st1 r) as (st2 & Hrun2 & Hj2 & He2 & Hc2 & Hres2).
    exists st2. split; [exact Hrun2|].
    split; [congruence|]. split; [congruence|]. split; [congruence|].
    rewrite Hres2.
    destruct (decide (r = res)) as [->|Hne].
    + rewrite Hres. destruct (decide (res = res)); [|congruence].
      destruct rows; cbn [from_option List.map]; unfold id; [reflexivity|].
      now rewrite <- app_assoc.
    + destruct (send_lookup res (Data (Server.replayed row)) st r)
        as (st1' & Hrun' & _ & _ & _ & Hres').
      rewrite Hrun in Hrun'. injection Hrun' as <-.
      rewrite Hres'. now destruct (decide (r = res)).
Qed.

(** *** The bus registry *)

Lemma observers_insert (cs : gmap string (gset nat)) j j' S :
  default ∅ (<[ j' := S ]> cs !! j) = if decide (j' = j) then S else default ∅ (cs !! j).
Proof.
  destruct (decide (j' = j)) as [->|H].
  - now rewrite lookup_insert_eq.
  - now rewrite lookup_insert_ne.
Qed.

Lemma observers_delete (cs : gmap string (gset nat)) j j' :
  default ∅ (delete j' cs !! j) = if decide (j' = j) then ∅ else default ∅ (cs !! j).
Proof.
  destruct (decide (j' = j)) as [->|H].
  - now rewrite lookup_delete_eq.
  - now rewrite lookup_delete_ne.
Qed.

Lemma addClient_run jobId res st :
  exists st',
    Bus.addClient jobId res st = (Returns tt, st')
    /\ jobs st' = jobs st /\ jobEvents st' = jobEvents st
    /\ responses st' = responses st
    /\ forall j, observers j st'
                 = if decide (jobId = j) then observers jobId st ∪ {[ res ]}
                   else observers j st.
Proof.
  unfold Bus.addClient, Bus.setClients, bind, get, modify, ret, observers.
  destruct (clients st !! jobId) as [set|] eqn:Hset; cbn [negb clients].
  - rewrite bool_decide_eq_true_2 by (now exists set). cbn [negb clients].
    rewrite Hset. eexists. split; [reflexivity|]. repeat split.
    intros j. cbn [clients]. apply observers_insert.
  - rewrite bool_decide_eq_false_2 by (intros [x Hx]; discriminate).
    cbn [negb clients]. rewrite lookup_insert_eq.
    eexists. split; [reflexivity|]. repeat split.
    intros j. cbn [clients]. rewrite insert_insert_eq. apply observers_insert.
Qed.

Lemma removeClient_run jobId res st :
  exists st',
    Bus.removeClient jobId res st = (Returns tt, st')
    /\ jobs st' = jobs st /\ jobEvents st' = jobEvents st
    /\ responses st' = responses st
    /\ forall j, observers j st'
                 = if decide (jobId = j) then observers jobId st ∖ {[ res ]}
                   else observers j st.
Proof.
  unfold Bus.removeClient, Bus.setClients, bind, get, modify, ret, observers.
  destruct (clients st !! jobId) as [set|] eqn:Hset; cbn [clients].
  - destruct (size (set ∖ {[res]}) =? 0)%nat eqn:Hsize.
    + eexists. split; [reflexivity|]. repeat split.
      intros j. cbn [clients]. rewrite observers_delete.
      destruct (decide (jobId = j)) as [->|Hne].
      * apply Nat.eqb_eq in Hsize. apply size_empty_inv in Hsize.
        now apply leibniz_equiv in Hsize.
      * now rewrite lookup_insert_ne.
    + eexists. split; [reflexivity|]. repeat split.
      intros j. cbn [clients]. apply observers_insert.
  - exists st. split; [reflexivity|]. repeat split.
    intros j. destruct (decide (jobId = j)) as [<-|]; [|reflexivity].
    rewrite Hset. cbn. symmetry. apply empty_difference_L.
Qed.

(** *** One turn, seen from an attached observer *)

Lemma rowsOf_app jobId st st' (more : list Job.JobEventRow) :
  jobEvents st' = jobEvents st ++ more ->
  rowsOf jobId st'
  = rowsOf jobId st
    ++ List.filter (fun row => String.eqb (Job.rowJobId row) jobId) more.
Proof. unfold rowsOf. intros ->. apply List.filter_app. Qed.

Lemma emit_run E jobId type payload st res :
  exists st' row event,
    Service.emitAndPersistEvent E jobId type payload st = (Returns tt, st')
    /\ jobs st' = jobs st /\ clients st' = clients st
    /\ jobEvents st' = jobEvents st ++ [row]
    /\ Job.rowJobId row = jobId
    /\ content (Server.replayed row) = (Service.eventType type, payload)
    /\ content event = (Service.eventType type, payload)
    /\ responses st' !! res
       = if decide (res ∈ observers jobId st)
         then Some (default [] (responses st !! res) ++ [Data event])
         else responses st !! res.
Proof.
  unfold Service.emitAndPersistEvent, Repo.insertEvent.
  unfold bind at 1. unfold bind at 1. rewrite nowIso_run. unfold modify.
  rewrite (bind_returns _ _ _ _ _ (nowIso_run E _)).
  match goal with
  | |- context [Bus.publish ?j ?ev ?s] =>
      destruct (publish_lookup j ev s res) as (st' & Hrun & Hj & He & Hc & Hres)
  end.
  match type of Hrun with
  | Bus.publish _ ?ev _ = _ => eexists st', _, ev
  end.
  split; [exact Hrun|].
  split; [exact Hj|]. split; [exact Hc|]. split; [exact He|].
  split; [reflexivity|]. split; [reflexivity|]. split; [reflexivity|].
  exact Hres.
Qed.

Lemma broadcast_run E jobId status message st res :
  exists st' event,
    Bus.emitStatus E jobId status message st = (Returns tt, st')
    /\ jobs st' = jobs st /\ clients st' = clients st
    /\ jobEvents st' = jobEvents st
    /\ content event = ("status", Job.mkPayload (Some status) message None None)
    /\ responses st' !! res
       = if decide (res ∈ observers jobId st)
         then Some (default [] (responses st !! res) ++ [Data event])
         else responses st !! res.
Proof.
  unfold Bus.emitStatus.
  rewrite (bind_returns _ _ _ _ _ (nowIso_run E _)).
  match goal with
  | |- context [Bus.publish ?j ?ev ?s] =>
      destruct (publish_lookup j ev s res) as (st' & Hrun & Hj & He & Hc & Hres)
  end.
  match type of Hrun with
  | Bus.publish _ ?ev _ = _ => exists st', ev
  end.
  split; [exact Hrun|].
  split; [exact Hj|]. split; [exact Hc|]. split; [exact He|].
  split; [reflexivity|]. exact Hres.
Qed.

(** The handler run for another response object [r]. *)
Lemma attach_other_run jobId r st res :
  r <> res ->
  exists st',
    Server.getJobEvents jobId r st = (Returns tt, st')
    /\ jobs st' = jobs st /\ jobEvents st' = jobEvents st
    /\ responses st' !! res = responses st !! res
    /\ forall j, observers j st' = observers j st
                 \/ (j = jobId /\ observers j st' = observers j st ∪ {[ r ]}).
Proof.
  intros Hne. unfold Server.getJobEvents, Repo.getJob, Repo.listEvents.
  unfold bind at 1. unfold bind at 1. unfold get, ret.
  destruct (jobs st !! jobId) as [job|].
  - destruct (send_lookup r (Head 200) st res) as (s1 & H1 & Hj1 & He1 & Hc1 & Hr1).
    rewrite (bind_returns _ _ _ _ _ H1).
    destruct (addClient_run jobId r s1) as (s2 & H2 & Hj2 & He2 & Hr2 & Ho2).
    rewrite (bind_returns _ _ _ _ _ H2).
    unfold bind at 1. unfold bind at 1.
    destruct (replay_lookup r
                (List.filter (fun row => String.eqb (Job.rowJobId row) jobId)
                   (jobEvents s2)) s2 res)
      as (s3 & H3 & Hj3 & He3 & Hc3 & Hr3).
    exists s3. split; [exact H3|]. split; [congruence|]. split; [congruence|].
    split.
    + rewrite Hr3, Hr2, Hr1.
      destruct (decide (res = r)); [congruence | reflexivity].
    + intros j. unfold observers in *. rewrite Hc3. specialize (Ho2 j).
      rewrite Hc1 in Ho2.
      destruct (decide (jobId = j)) as [<-|]; [right | left]; auto.
  - destruct (send_lookup r (Json 404 JOB_NOT_FOUND ("Job " +:+ jobId +:+ " not found."))
                st res) as (s1 & H1 & Hj1 & He1 & Hc1 & Hr1).
    exists s1. split; [exact H1|]. split; [exact Hj1|]. split; [exact He1|]. split.
    + rewrite Hr1. destruct (decide (res = r)); [congruence | reflexivity].
    + intros j. left. unfold observers. now rewrite Hc1.
Qed.

Lemma close_other_run jobId r st res :
  r <> res ->
  exists st',
    Server.onClose jobId r st = (Returns tt, st')
    /\ jobs st' = jobs st /\ jobEvents st' = jobEvents st
    /\ responses st' !! res = responses st !! res
    /\ forall j, observers j st' = observers j st
                 \/ (j = jobId /\ observers j st' = observers j st ∖ {[ r ]}).
Proof.
  intros Hne. unfold Server.onClose.
  destruct (removeClient_run jobId r st) as (s1 & H1 & Hj1 & He1 & Hr1 & Ho1).
  rewrite (bind_returns _ _ _ _ _ H1).
  destruct (send_lookup r End s1 res) as (s2 & H2 & Hj2 & He2 & Hc2 & Hr2).
  exists s2. split; [exact H2|]. split; [congruence|]. split; [congruence|]. split.
  - rewrite Hr2, Hr1. destruct (decide (res = r)); [congruence | reflexivity].
  - intros j. unfold observers in *. rewrite Hc2. specialize (Ho1 j).
    destruct (decide (jobId = j)) as [<-|]; [right | left]; auto.
Qed.

Lemma turn_tracks E jobId res t st out rows :
  usesResponse res t = false ->
  tracks jobId res st out rows ->
  exists st' live new,
    turn E t st = (Returns tt, st')
    /\ tracks jobId res st' (out ++ List.map Data live) (rows ++ new)
    /\ List.map content live = publishedContent jobId [t]
    /\ List.map content (List.map Server.replayed new) = persistedContent jobId [t].
Proof.
  intros Huse (Hin & Hout & Hres & Hrows).
  destruct t as [j type payload|j status message|j r|j r]; cbn [turn usesResponse] in *.
  - cbn [publishedContent persistedContent].
    destruct (String.eqb j jobId) eqn:Hj.
    + apply String.eqb_eq in Hj. subst j.
      destruct (emit_run E jobId type payload st res)
        as (st' & row & event & Hrun & _ & Hc & He & Hrj & Hrc & Hec & Hr).
      pose proof (rowsOf_app jobId st st' [row] He) as Hrows'.
      cbn [List.filter] in Hrows'. rewrite Hrj, String.eqb_refl, Hrows in Hrows'.
      destruct (decide (res ∈ observers jobId st)); [|contradiction].
      exists st', [event], [row]. split; [exact Hrun|]. split.
      * unfold tracks, observers in *. rewrite Hc. repeat split; try assumption.
        rewrite Hr, Hres. reflexivity.
      * cbn [List.map]. now rewrite Hrc, Hec.
    + destruct (emit_run E j type payload st res)
        as (st' & row & event & Hrun & _ & Hc & He & Hrj & Hrc & Hec & Hr).
      pose proof (rowsOf_app jobId st st' [row] He) as Hrows'.
      cbn [List.filter] in Hrows'. rewrite Hrj, Hj, Hrows in Hrows'.
      apply String.eqb_neq in Hj.
      destruct (decide (res ∈ observers j st)) as [Hbad|_];
        [exfalso; exact (Hout j Hj Hbad)|].
      exists st', [], []. split; [exact Hrun|]. split.
      * unfold tracks, observers in *. rewrite Hc.
        repeat split; try assumption. now rewrite Hr, app_nil_r.
      * split; reflexivity.
  - cbn [publishedContent persistedContent].
    destruct (broadcast_run E j status message st res)
      as (st' & event & Hrun & _ & Hc & He & Hec & Hr).
    pose proof (rowsOf_app jobId st st' [] ltac:(now rewrite app_nil_r)) as Hrows'.
    cbn [List.filter] in Hrows'. rewrite Hrows in Hrows'.
    destruct (String.eqb j jobId) eqn:Hj.
    + apply String.eqb_eq in Hj. subst j.
      destruct (decide (res ∈ observers jobId st)); [|contradiction].
      exists st', [event], []. split; [exact Hrun|]. split.
      * unfold tracks, observers in *. rewrite Hc. repeat split; try assumption.
        rewrite Hr, Hres. reflexivity.
      * cbn [List.map]. now rewrite Hec.
    + apply String.eqb_neq in Hj.
      destruct (decide (res ∈ observers j st)) as [Hbad|_];
        [exfalso; exact (Hout j Hj Hbad)|].
      exists st', [], []. split; [exact Hrun|]. split.
      * unfold tracks, observers in *. rewrite Hc.
        repeat split; try assumption. now rewrite Hr, app_nil_r.
      * split; reflexivity.
  - apply Nat.eqb_neq in Huse.
    destruct (attach_other_run j r st res Huse) as (st' & Hrun & _ & He & Hr & Ho).
    pose proof (rowsOf_app jobId st st' [] ltac:(now rewrite app_nil_r)) as Hrows'.
    cbn [List.filter] in Hrows'. rewrite Hrows in Hrows'.
    exists st', [], []. split; [exact Hrun|]. split; [|split; reflexivity].
    cbn [List.map]. rewrite !app_nil_r. repeat split.
    + destruct (Ho jobId) as [->|[_ ->]]; [assumption | now apply elem_of_union_l].
    + intros j' Hj'. specialize (Hout j' Hj').
      destruct (Ho j') as [->|[_ ->]]; [assumption|].
      rewrite elem_of_union, elem_of_singleton. intros [|]; [contradiction | congruence].
    + now rewrite Hr.
    + now rewrite app_nil_r in Hrows'.
  - apply Nat.eqb_neq in Huse.
    destruct (close_other_run j r st res Huse) as (st' & Hrun & _ & He & Hr & Ho).
    pose proof (rowsOf_app jobId st st' [] ltac:(now rewrite app_nil_r)) as Hrows'.
    cbn [List.filter] in Hrows'. rewrite Hrows in Hrows'.
    exists st', [], []. split; [exact Hrun|]. split; [|split; reflexivity].
    cbn [List.map]. rewrite !app_nil_r. repeat split.
    + destruct (Ho jobId) as [->|[_ ->]]; [assumption|].
      apply elem_of_difference. split; [assumption|].
      rewrite elem_of_singleton. congruence.
    + intros j' Hj'. specialize (Hout j' Hj').
      destruct (Ho j') as [->|[_ ->]]; [assumption|].
      rewrite elem_of_difference. intros []. contradiction.
    + now rewrite Hr.
    + now rewrite app_nil_r in Hrows'.
Qed.

Lemma publishedContent_cons jobId t ts :
  publishedContent jobId (t :: ts)
  = publishedContent jobId [t] ++ publishedContent jobId ts.
Proof. destruct t; cbn; try reflexivity; destruct (String.eqb _ _); reflexivity. Qed.

Lemma persistedContent_cons jobId t ts :
  persistedContent jobId (t :: ts)
  = persistedContent jobId [t] ++ persistedContent jobId ts.
Proof. destruct t; cbn; try reflexivity; destruct (String.eqb _ _); reflexivity. Qed.

Lemma run_tracks E jobId res ts : forall st out rows,
  forallb (fun t => negb (usesResponse res t)) ts = true ->
  tracks jobId res st out rows ->
  exists st' live new,
    run E ts st = (Returns tt, st')
    /\ tracks jobId res st' (out ++ List.map Data live) (rows ++ new)
    /\ List.map content live = publishedContent jobId ts
    /\ List.map content (List.map Server.replayed new) = persistedContent jobId ts.
Proof.
  induction ts as [|t ts IH]; intros st out rows Huse Htr.
  - exists st, [], []. cbn [List.map]. rewrite !app_nil_r.
    split; [reflexivity|]. split; [assumption|]. split; reflexivity.
  - cbn [forallb] in Huse. apply andb_true_iff in Huse as [Ht Hts].
    apply negb_true_iff in Ht.
    destruct (turn_tracks E jobId res t st out rows Ht Htr)
      as (s1 & live1 & new1 & Hrun1 & Htr1 & Hl1 & Hn1).
    destruct (IH s1 _ _ Hts Htr1) as (s2 & live2 & new2 & Hrun2 & Htr2 & Hl2 & Hn2).
    exists s2, (live1 ++ live2), (new1 ++ new2).
    split; [|split; [|split]].
    + unfold run. cbn [forEach]. rewrite (bind_returns _ _ _ _ _ Hrun1). exact Hrun2.
    + rewrite List.map_app, !app_assoc. exact Htr2.
    + rewrite List.map_app, Hl1, Hl2. symmetry. apply publishedContent_cons.
    + rewrite !List.map_app, Hn1, Hn2. symmetry. apply persistedContent_cons.
Qed.

Lemma attach_tracks jobId res st :
  is_Some (jobs st !! jobId) ->
  responses st !! res = None ->
  (forall j, res ∉ observers j st) ->
  exists st',
    Server.getJobEvents jobId res st = (Returns tt, st')
    /\ tracks jobId res st'
         (Head 200 :: List.map Data (List.map Server.replayed (rowsOf jobId st)))
         (rowsOf jobId st).
Proof.
  intros [job Hjob] Hnew Hfree.
  unfold Server.getJobEvents, Repo.getJob, Repo.listEvents.
  unfold bind at 1. unfold bind at 1. unfold get, ret. rewrite Hjob.
  destruct (send_lookup res (Head 200) st res) as (s1 & H1 & Hj1 & He1 & Hc1 & Hr1).
  rewrite (bind_returns _ _ _ _ _ H1).
  destruct (addClient_run jobId res s1) as (s2 & H2 & Hj2 & He2 & Hr2 & Ho2).
  rewrite (bind_returns _ _ _ _ _ H2).
  unfold bind at 1. unfold bind at 1.
  destruct (replay_lookup res
              (List.filter (fun row => String.eqb (Job.rowJobId row) jobId)
                 (jobEvents s2)) s2 res)
    as (s3 & H3 & Hj3 & He3 & Hc3 & Hr3).
  exists s3. split; [exact H3|].
  assert (Hrows : List.filter (fun row => String.eqb (Job.rowJobId row) jobId)
                    (jobEvents s2) = rowsOf jobId st).
  { unfold rowsOf. now rewrite He2, He1. }
  rewrite Hrows in Hr3.
  assert (Hobs : forall j, observers j s3 = observers j s2).
  { intros j. unfold observers. now rewrite Hc3. }
  assert (Hobs1 : forall j, observers j s1 = observers j st).
  { intros j. unfold observers. now rewrite Hc1. }
  repeat split.
  - rewrite Hobs, Ho2. destruct (decide (jobId = jobId)); [|congruence].
    apply elem_of_union_r. now apply elem_of_singleton.
  - intros j Hj. rewrite Hobs, Ho2.
    destruct (decide (jobId = j)); [congruence|]. rewrite Hobs1. apply Hfree.
  - rewrite Hr3, Hr2, Hr1, Hnew.
    destruct (decide (res = res)); [|congruence].
    destruct (rowsOf jobId st); reflexivity.
  - unfold rowsOf. now rewrite He3, He2, He1.
Qed.

Lemma dataOf_frames events : dataOf (Head 200 :: List.map Data events) = events.
Proof.
  unfold dataOf. cbn. induction events as [|e events IH]; [reflexivity|].
  cbn. now rewrite IH.
Qed.

(** *** The claim *)

(** C10: an observer whose response object [res] is attached to the event
    stream of an existing job at any point, followed by any sequence of
    turns of other observers and of emitters, has been sent: the full stored
    history of the job at the time of the attachment, in stored order, and
    then one event for each event of the job published afterwards, in
    emission order.  The events stored afterwards are exactly those that
    were emitted through [emitAndPersistEvent] afterwards; so, status
    broadcasts that are not stored apart, what the observer received is the
    stored event stream of the job, each event once and in order. *)
Theorem observer_receives_history_then_live
    (E : Env) (jobId : string) (res : nat) (st : State) (ts : list Turn) :
  is_Some (jobs st !! jobId) ->
  responses st !! res = None ->
  (forall j, res ∉ observers j st) ->
  forallb (fun t => negb (usesResponse res t)) ts = true ->
  exists st' live new,
    run E (Attach jobId res :: ts) st = (Returns tt, st')
    /\ responses st' !! res
       = Some (Head 200
               :: List.map Data (List.map Server.replayed (rowsOf jobId st) ++ live))
    /\ List.map content live = publishedContent jobId ts
    /\ rowsOf jobId st' = rowsOf jobId st ++ new
    /\ List.map content (List.map Server.replayed new) = persistedContent jobId ts
    /\ (publishedContent jobId ts = persistedContent jobId ts ->
        List.map content (dataOf (default [] (responses st' !! res)))
        = List.map content (List.map Server.replayed (rowsOf jobId st'))).
Proof.
  intros Hjob Hnew Hfree Huse.
  destruct (attach_tracks jobId res st Hjob Hnew Hfree) as (s1 & Hrun1 & Htr1).
  destruct (run_tracks E jobId res ts s1 _ _ Huse Htr1)
    as (s2 & live & new & Hrun2 & (_ & _ & Hres & Hrows) & Hl & Hn).
  exists s2, live, new.
  assert (Hout : responses s2 !! res
                 = Some (Head 200
                         :: List.map Data
                              (List.map Server.replayed (rowsOf jobId st) ++ live))).
  { rewrite Hres, List.map_app. reflexivity. }
  split; [|split; [exact Hout|split; [exact Hl|split; [exact Hrows|split; [exact Hn|]]]]].
  - unfold run. cbn [forEach turn]. rewrite (bind_returns _ _ _ _ _ Hrun1). exact Hrun2.
  - intros Hsame. rewrite Hout. cbn [from_option]. unfold id.
    rewrite dataOf_frames, Hrows, !List.map_app, Hl, Hn, Hsame. reflexivity.
Qed.

Lemma observer_receives_history_then_live_witness :
  exists st',
    run (Samples.env "8.0" "8.0") (Attach "job-1" 7%nat :: Samples.laterTurns) Samples.midJob
    = (Returns tt, st')
    /\ List.map content (dataOf (default [] (responses st' !! 7%nat)))
       = [ ("status",
            Job.mkPayload (Some queued) (Some "Job accepted and queued.") None None);
           ("status",
            Job.mkPayload (Some analyzing) (Some "Running AI analysis.") None None);
           ("log", Job.mkPayload None (Some "Transcribing audio.") None None);
           ("status",
            Job.mkPayload (Some awaiting_review)
              (Some "Trim suggestion is ready for review.") None None) ].
Proof.
  destruct (observer_receives_history_then_live (Samples.env "8.0" "8.0") "job-1" 7%nat
              Samples.midJob Samples.laterTurns)
    as (st' & live & new & Hrun & _ & _ & Hrows & Hn & Hall).
  - exists Samples.job. vm_compute. reflexivity.
  - reflexivity.
  - intros j. unfold observers. cbn [clients Samples.midJob].
    rewrite lookup_empty. apply not_elem_of_empty.
  - reflexivity.
  - exists st'. split; [exact Hrun|].
    rewrite (Hall eq_refl), Hrows, !List.map_app, Hn. reflexivity.
Defined.

End StreamFacts.

(** ** More on the range algebra *)

Module RangeLaws.
Import Range Spec RangeFacts.

Lemma overlaps_sym a b : overlaps a b = overlaps b a.
Proof. unfold overlaps. apply andb_comm. Qed.

Lemma overlaps_true a b :
  overlaps a b = true <-> startSec a < endSec b /\ startSec b < endSec a.
Proof.
  unfold overlaps. rewrite andb_true_iff, !ltb_true. reflexivity.
Qed.

Lemma overlaps_false a b :
  overlaps a b = false <-> endSec b <= startSec a \/ endSec a <= startSec b.
Proof.
  unfold overlaps. rewrite andb_false_iff, !ltb_false. reflexivity.
Qed.

(** X1: two ranges of positive length overlap exactly when the length of
    their intersection is positive; that length is symmetric, never
    negative and at most the length of either range. *)
Theorem intersectionLength_overlap (a b : TimeRange) :
  startSec a < endSec a ->
  startSec b < endSec b ->
  (overlaps a b = true <-> 0 < intersectionLength a b)
  /\ intersectionLength a b == intersectionLength b a
  /\ 0 <= intersectionLength a b
  /\ intersectionLength a b <= rangeLength a
  /\ intersectionLength a b <= rangeLength b.
Proof.
  intros Ha Hb. unfold intersectionLength, rangeLength.
  rewrite (overlaps_sym b a).
  destruct (overlaps a b) eqn:Ho; cbn [negb].
  - apply overlaps_true in Ho. destruct Ho as [H1 H2].
    repeat split; try discriminate; intros; pick_minmax; lra.
  - repeat split; try discriminate; try (intros; pick_minmax; lra).
Qed.

Lemma intersectionLength_overlap_witness :
  (overlaps (mkRange 0 2) (mkRange 1 5) = true
   <-> 0 < intersectionLength (mkRange 0 2) (mkRange 1 5))
  /\ intersectionLength (mkRange 0 2) (mkRange 1 5) == 1.
Proof.
  destruct (intersectionLength_overlap (mkRange 0 2) (mkRange 1 5)) as (H & _);
    [reflexivity | reflexivity |].
  split; [exact H | reflexivity].
Defined.

Lemma totalOverlapLength_cons range p l :
  totalOverlapLength range (p :: l)
  == intersectionLength range p + totalOverlapLength range l.
Proof. unfold totalOverlapLength. apply (fold_sum_cons (intersectionLength range)). Qed.





(** Without merging the bound fails: two copies of a protected range are
    counted twice. *)
Lemma totalOverlapLength_unmerged_exceeds :
  rangeLength (mkRange 0 2) < totalOverlapLength (mkRange 0 2) [mkRange 0 2; mkRange 0 2].
Proof. reflexivity. Qed.

Lemma mergeFrom_sound rest x : forall current p,
  In p (mergeFrom current rest) -> covers p x ->
  exists r, In r (current :: rest) /\ covers r x.
Proof.
  induction rest as [|candidate rest IH]; intros current p Hin Hc.
  - rewrite mergeFrom_nil in Hin. destruct Hin as [<-|[]].
    exists current. split; [now left | assumption].
  - rewrite mergeFrom_cons in Hin.
    destruct (Js.leb (startSec candidate) (endSec current)) eqn:Hle.
    + apply leb_true in Hle.
      destruct (IH _ _ Hin Hc) as (r & [<-|Hr] & Hcr).
      * unfold covers in Hcr. cbn [startSec endSec] in Hcr.
        destruct (Qlt_le_dec x (endSec current)) as [Hlt|Hge].
        -- exists current. split; [now left|]. unfold covers. lra.
        -- exists candidate. split; [right; now left|]. unfold covers.
           revert Hcr. pick_minmax; lra.
      * exists r. split; [right; now right | assumption].
    + destruct Hin as [<-|Hin].
      * exists current. split; [now left | assumption].
      * destruct (IH _ _ Hin Hc) as (r & Hr & Hcr).
        exists r. split; [now right | assumption].
Qed.

(** X3: merging neither loses nor invents coverage: an instant lies in one
    of the merged ranges exactly when it lies in one of the input ranges
    (each taken in normal order, its end excluded). *)
Theorem mergeRanges_same_points (ranges : list TimeRange) (x : Q) :
  (exists p, In p (mergeRanges ranges) /\ covers p x)
  <-> (exists r, In r ranges /\ covers (normalizeRange r) x).
Proof.
  split.
  - intros (p & Hin & Hc). rewrite mergeRanges_unfold in Hin.
    destruct (List.filter _ _) as [|first rest] eqn:Hf; [destruct Hin|].
    destruct (mergeFrom_sound _ _ _ _ Hin Hc) as (r & Hr & Hcr).
    rewrite <- Hf in Hr. apply filter_In in Hr. destruct Hr as [Hr _].
    apply (Permutation_in _ (Permutation_sym (sortByStart_perm _))) in Hr.
    apply in_map_iff in Hr. destruct Hr as (r0 & <- & Hr0).
    exists r0. split; assumption.
  - intros (r & Hin & Hc).
    assert (Hpos : startSec (normalizeRange r) < endSec (normalizeRange r)).
    { unfold covers in Hc. lra. }
    destruct (mergeRanges_covers _ _ Hin Hpos) as (p & Hp & Hcp).
    exists p. split; [assumption|]. unfold covers, contains in *. lra.
Qed.

Lemma mergeFrom_starts rest : forall current p,
  In p (mergeFrom current rest) ->
  exists r, In r (current :: rest) /\ startSec p = startSec r.
Proof.
  induction rest as [|candidate rest IH]; intros current p Hin.
  - rewrite mergeFrom_nil in Hin. destruct Hin as [<-|[]].
    exists current. split; [now left | reflexivity].
  - rewrite mergeFrom_cons in Hin.
    destruct (Js.leb (startSec candidate) (endSec current)).
    + destruct (IH _ _ Hin) as (r & [<-|Hr] & Hs).
      * exists current. split; [now left | exact Hs].
      * exists r. split; [right; now right | exact Hs].
    + destruct Hin as [<-|Hin].
      * exists current. split; [now left | reflexivity].
      * destruct (IH _ _ Hin) as (r & Hr & Hs).
        exists r. split; [now right | exact Hs].
Qed.

(** Every merged range starts where one of the inputs starts. *)
Lemma mergeRanges_starts ranges p :
  In p (mergeRanges ranges) ->
  exists r, In r ranges /\ startSec p = startSec (normalizeRange r).
Proof.
  intros Hin. rewrite mergeRanges_unfold in Hin.
  destruct (List.filter _ _) as [|first rest] eqn:Hf; [destruct Hin|].
  destruct (mergeFrom_starts _ _ _ Hin) as (r & Hr & Hs).
  rewrite <- Hf in Hr. apply filter_In in Hr. destruct Hr as [Hr _].
  apply (Permutation_in _ (Permutation_sym (sortByStart_perm _))) in Hr.
  apply in_map_iff in Hr. destruct Hr as (r0 & <- & Hr0).
  exists r0. split; assumption.
Qed.


Lemma mergeFrom_ends rest : forall current p,
  In p (mergeFrom current rest) ->
  exists r, In r (current :: rest) /\ endSec p = endSec r.
Proof.
  induction rest as [|candidate rest IH]; intros current p Hin.
  - rewrite mergeFrom_nil in Hin. destruct Hin as [<-|[]].
    exists current. split; [now left | reflexivity].
  - rewrite mergeFrom_cons in Hin.
    destruct (Js.leb (startSec candidate) (endSec current)).
    + destruct (IH _ _ Hin) as (r & [<-|Hr] & He).
      * cbn [endSec] in He.
        destruct (Qmax_pick (endSec current) (endSec candidate)) as [[_ Hm]|[_ Hm]];
          rewrite Hm in He.
        -- exists candidate. split; [right; now left | exact He].
        -- exists current. split; [now left | exact He].
      * exists r. split; [right; now right | exact He].
    + destruct Hin as [<-|Hin].
      * exists current. split; [now left | reflexivity].
      * destruct (IH _ _ Hin) as (r & Hr & He).
        exists r. split; [now right | exact He].
Qed.

(** No merged range ends after the last end of the inputs. *)
Lemma mergeRanges_ends_bounded ranges bound :
  (forall r, In r ranges -> endSec (normalizeRange r) <= bound) ->
  forall p, In p (mergeRanges ranges) -> endSec p <= bound.
Proof.
  intros Hall p Hin. rewrite mergeRanges_unfold in Hin.
  destruct (List.filter _ _) as [|first rest] eqn:Hf; [destruct Hin|].
  destruct (mergeFrom_ends _ _ _ Hin) as (r & Hr & He).
  rewrite <- Hf in Hr. apply filter_In in Hr. destruct Hr as [Hr _].
  apply (Permutation_in _ (Permutation_sym (sortByStart_perm _))) in Hr.
  apply in_map_iff in Hr. destruct Hr as (r0 & <- & Hr0).
  rewrite He. apply Hall. exact Hr0.
Qed.

End RangeLaws.

(** ** More on the decision engine *)

Module EngineLaws.
Import Range Engine Spec RangeFacts EngineFacts RangeLaws.

(** What the loop over the candidates returns is one of the candidates,
    accepted by both tests of the loop. *)
Lemma tryCandidates_sound input tn prot candidates d :
  tryCandidates input tn prot candidates = Some d ->
  exists c,
    In c candidates
    /\ keepRange d = candKeepRange c /\ strategy d = candStrategy c
    /\ withinDuration (candKeepRange c) (videoDurationSec input) = true
    /\ overlapWithRanges (trimRanges c) prot <= OVERLAP_TOLERANCE_SEC
    /\ trimNeededSec d = Qmax 0 tn
    /\ 0 <= decisionConfidence d <= 1
    /\ protectedRanges d = prot.
Proof.
  induction candidates as [|c rest IH]; [discriminate|].
  cbn [tryCandidates].
  destruct (Js.gtb (overlapWithRanges (trimRanges c) prot) OVERLAP_TOLERANCE_SEC) eqn:Ho.
  - intros H. destruct (IH H) as (c' & Hin & Hrest). exists c'. split; [now right | exact Hrest].
  - destruct (withinDuration (candKeepRange c) (videoDurationSec input)) eqn:Hw; cbn [negb].
    + intros [= <-]. exists c. cbn [keepRange strategy trimNeededSec decisionConfidence protectedRanges].
      apply gtb_false in Ho.
      repeat split; try reflexivity; try assumption; [now left | |]; pick_minmax; lra.
    + intros H. destruct (IH H) as (c' & Hin & Hrest). exists c'. split; [now right | exact Hrest].
Qed.

(** The keep range of every candidate: the whole video when nothing has to
    be trimmed, otherwise a range as long as the target; with replacement
    audio the only candidate is the outro one. *)
Lemma buildCandidates_keep v t r c :
  In c (buildCandidates v t r) ->
  ((v <= t /\ candKeepRange c = mkRange 0 v /\ candStrategy c = outro)
   \/ (t < v /\ endSec (candKeepRange c) - startSec (candKeepRange c) == t))
  /\ (r = true -> candStrategy c = outro /\ startSec (candKeepRange c) = 0).
Proof.
  unfold buildCandidates.
  destruct (Js.leb (Qmax 0 (v - t)) 0) eqn:Hle.
  - apply leb_true in Hle. intros [<-|[]]. cbn [candKeepRange candStrategy startSec].
    split; [left|auto]. repeat split. revert Hle. pick_minmax; lra.
  - apply leb_false in Hle.
    assert (Htv : t < v) by (revert Hle; pick_minmax; lra).
    assert (Hm : Qmax 0 (v - t) == v - t) by (pick_minmax; lra).
    intros Hin. apply filter_In in Hin. destruct Hin as [Hin _].
    destruct r; cbn [negb app] in Hin.
    + destruct Hin as [<-|[]]. cbn [candKeepRange candStrategy startSec endSec].
      split; [right; split; [assumption|lra] | auto].
    + split; [right; split; [assumption|] | discriminate].
      destruct Hin as [<-|[<-|[<-|[]]]]; cbn [candKeepRange startSec endSec];
        rewrite ?Hm; field.
Qed.

Lemma tryCandidates_none_inv input tn candidates :
  tryCandidates input tn (protectedOf input) candidates = None ->
  existsb (acceptable input) candidates = false.
Proof.
  induction candidates as [|c rest IH]; [reflexivity|].
  cbn [tryCandidates existsb]. rewrite acceptable_code.
  destruct (Js.gtb _ OVERLAP_TOLERANCE_SEC); cbn [negb andb orb]; [exact IH|].
  destruct (withinDuration _ _); cbn [negb orb]; [discriminate | exact IH].
Qed.

(** The two ways in which [computeTrimDecision] returns: with an accepted
    candidate, or with the fallback after every candidate was refused. *)
Lemma computeTrimDecision_returns input d :
  computeTrimDecision input = Returns d ->
  ~ videoDurationSec input - targetDurationSec input < -0.01
  /\ trimNeededSec d = Qmax 0 (videoDurationSec input - targetDurationSec input)
  /\ 0 <= decisionConfidence d <= 1
  /\ protectedRanges d = protectedOf input
  /\ ((exists c,
         In c (candidatesOf input)
         /\ keepRange d = candKeepRange c /\ strategy d = candStrategy c
         /\ withinDuration (candKeepRange c) (videoDurationSec input) = true
         /\ overlapWithRanges (trimRanges c) (protectedOf input)
            <= OVERLAP_TOLERANCE_SEC)
      \/ (hasReplacementAudio input = false
          /\ existsb (acceptable input) (candidatesOf input) = false
          /\ strategy d = fallback_low_density
          /\ keepRange d = higherContactKeep input)).
Proof.
  unfold computeTrimDecision.
  destruct (Js.ltb _ (-0.01)) eqn:Hlong; [discriminate|].
  apply ltb_false in Hlong.
  fold (protectedOf input). fold (candidatesOf input).
  destruct (tryCandidates _ _ _ _) as [d0|] eqn:Htry.
  - intros [= <-].
    destruct (tryCandidates_sound _ _ _ _ _ Htry)
      as (c & Hin & Hk & Hs & Hw & Ho & Htn & Hconf & Hp).
    repeat split; try assumption; try lra.
    left. exists c. repeat split; assumption.
  - destruct (hasReplacementAudio input) eqn:Hr; [discriminate|].
    intros [= <-].
    cbn [trimNeededSec decisionConfidence protectedRanges strategy keepRange].
    destruct (fallbackCandidate_keep input) as [Hk Hs].
    repeat split; try reflexivity; try lra; try (pick_minmax; lra).
    right. repeat split; try assumption.
    eapply tryCandidates_none_inv; exact Htry.
Qed.









(** X6: with replacement audio the engine never returns anything but a
    tail cut: the strategy is [outro] and the keep range starts at 0 and
    ends at the target duration (at the end of the video when the video is
    the shorter of the two); no intro trim, no split trim, no fallback. *)
Theorem replacement_audio_decision_is_tail_cut (input : DecisionInput) (d : TrimDecision) :
  hasReplacementAudio input = true ->
  computeTrimDecision input = Returns d ->
  strategy d = outro
  /\ startSec (keepRange d) = 0
  /\ endSec (keepRange d) == Qmin (videoDurationSec input) (targetDurationSec input).
Proof.
  intros Hr Hd.
  destruct (computeTrimDecision_returns _ _ Hd) as (_ & _ & _ & _ & Hcase).
  destruct Hcase as [(c & Hin & Hk & Hs & _)|(Hr' & _)]; [|congruence].
  destruct (buildCandidates_keep _ _ _ _ Hin) as [_ Haudio].
  destruct (Haudio Hr) as [Ho H0].
  destruct (buildCandidates_outro _ _ _ _ Hin Ho) as [_ Hend].
  rewrite Hk, Hs. repeat split; assumption.
Qed.

Lemma replacement_audio_decision_is_tail_cut_witness :
  exists d,
    computeTrimDecision Samples.safeOutroWithAudio = Returns d
    /\ strategy d = outro
    /\ startSec (keepRange d) = 0
    /\ endSec (keepRange d) == 8.
Proof.
  eexists. split; [cbv; reflexivity|].
  apply (replacement_audio_decision_is_tail_cut Samples.safeOutroWithAudio);
    [reflexivity | cbv; reflexivity].
Defined.

(** X8: when the target is shorter than the video and every speech region
    is ordered and, padded by 0.35 s, over by the target duration, the
    engine trims the tail: it returns the [outro] decision that keeps
    [0, target], whatever the rest of the analysis says and with or without
    replacement audio. *)
Theorem outro_when_speech_ends_before_target (input : DecisionInput) :
  0 < targetDurationSec input ->
  targetDurationSec input < videoDurationSec input ->
  (forall region : SpeechRegion,
     In region (speechRegions (analysis input)) ->
     startSec region <= endSec region
     /\ endSec region + SPEECH_PADDING_SEC <= targetDurationSec input) ->
  exists d,
    computeTrimDecision input = Returns d
    /\ strategy d = outro
    /\ keepRange d = mkRange 0 (targetDurationSec input).
Proof.
  intros Ht Htv Hspeech.
  set (v := videoDurationSec input) in *. set (t := targetDurationSec input) in *.
  set (c := {| candStrategy := outro;
               candKeepRange := {| startSec := 0; endSec := t |};
               trimRanges := [{| startSec := Qmax 0 t; endSec := v |}];
               candReasoning := ["Preferred outro trim candidate selected first."] |}).
  assert (Hcands : exists post, candidatesOf input = [] ++ c :: post).
  { unfold candidatesOf, buildCandidates. fold v t.
    assert (Hz : Js.leb (Qmax 0 (v - t)) 0 = false).
    { apply leb_false. pick_minmax; lra. }
    rewrite Hz.
    assert (Hvalid : Js.leb v (Qmax 0 t) = false).
    { apply leb_false. pick_minmax; lra. }
    destruct (hasReplacementAudio input); cbn [negb app List.filter hasInvalidRange
      trimRanges existsb endSec startSec]; rewrite Hvalid; cbn [orb negb];
      eexists; reflexivity. }
  destruct Hcands as (post & Hcands).
  assert (Hends : forall p, In p (protectedOf input) -> endSec p <= t).
  { apply mergeRanges_ends_bounded. intros r Hr.
    apply in_map_iff in Hr. destruct Hr as (region & <- & Hregion).
    destruct (Hspeech _ Hregion) as [Hord Hend].
    unfold normalizeRange, expandRange, SPEECH_PADDING_SEC in *. cbn [startSec endSec].
    destruct (Js.leb _ _); cbn [endSec]; pick_minmax; lra. }
  assert (Hzero : overlapWithRanges (trimRanges c) (protectedOf input) == 0).
  { unfold overlapWithRanges, c. cbn [trimRanges fold_left].
    assert (Hall : forall l, (forall p, In p l -> endSec p <= t) ->
                             totalOverlapLength {| startSec := Qmax 0 t; endSec := v |} l == 0).
    { induction l as [|p l IH]; intros Hl; [reflexivity|].
      rewrite totalOverlapLength_cons, IH by (intros; apply Hl; now right).
      unfold intersectionLength.
      assert (Ho : overlaps {| startSec := Qmax 0 t; endSec := v |} p = false).
      { apply overlaps_false. left. cbn [startSec].
        specialize (Hl p (or_introl eq_refl)). pick_minmax; lra. }
      rewrite Ho. cbn [negb]. lra. }
    pose proof (Hall _ Hends) as Hsum. lra. }
  assert (Hacc : acceptable input c = true).
  { unfold acceptable. apply andb_true_iff. split.
    - apply leb_true. rewrite Hzero. unfold OVERLAP_TOLERANCE_SEC. lra.
    - unfold withinDuration. cbn [c candKeepRange startSec endSec]. fold v.
      rewrite !andb_true_iff.
      repeat split; first [apply leb_true | apply gtb_true]; lra. }
  unfold computeTrimDecision.
  fold (protectedOf input). fold (candidatesOf input). fold v t.
  assert (Hlong : Js.ltb (v - t) (-0.01) = false) by (apply ltb_false; lra).
  rewrite Hlong, Hcands.
  destruct (tryCandidates_first input (v - t) [] c post eq_refl Hacc)
    as (d & Htry & Hs & Hk & _).
  rewrite Htry. exists d. repeat split; assumption.
Qed.

Lemma outro_when_speech_ends_before_target_witness :
  exists d,
    computeTrimDecision Samples.earlySpeech = Returns d
    /\ strategy d = outro
    /\ keepRange d = mkRange 0 8.
Proof.
  apply (outro_when_speech_ends_before_target Samples.earlySpeech);
    [reflexivity | reflexivity |].
  intros region [<-|[]]. split; cbv; discriminate.
Defined.



(** X10: every candidate cuts the video into what it trims and what it
    keeps: for a target that is not negative, the trim ranges of a
    candidate have positive length, none of them overlaps the keep range,
    and their lengths and the length of the keep range add up to the
    duration of the video. *)
Theorem buildCandidates_partition
    (videoDurationSec targetDurationSec : Q) (hasReplacementAudio : bool) (c : Candidate) :
  0 <= targetDurationSec ->
  In c (buildCandidates videoDurationSec targetDurationSec hasReplacementAudio) ->
  rangeLength (candKeepRange c) + totalLength (trimRanges c) == Qmax 0 videoDurationSec
  /\ (forall trim, In trim (trimRanges c) ->
        startSec trim < endSec trim /\ overlaps trim (candKeepRange c) = false).
Proof.
  intros Ht. unfold buildCandidates.
  destruct (Js.leb (Qmax 0 (videoDurationSec - targetDurationSec)) 0) eqn:Hle.
  - intros [<-|[]]. cbn [candKeepRange trimRanges startSec endSec]. split.
    + unfold rangeLength, totalLength. cbn [fold_left startSec endSec].
      pick_minmax; lra.
    + intros trim [].
  - apply leb_false in Hle.
    assert (Htv : targetDurationSec < videoDurationSec) by (revert Hle; pick_minmax; lra).
    intros Hin. apply filter_In in Hin. destruct Hin as [Hin _].
    assert (Hcases :
      c = {| candStrategy := outro;
             candKeepRange := {| startSec := 0; endSec := targetDurationSec |};
             trimRanges := [{| startSec := Qmax 0 targetDurationSec;
                               endSec := videoDurationSec |}];
             candReasoning := ["Preferred outro trim candidate selected first."] |}
      \/ c = {| candStrategy := intro;
                candKeepRange :=
                  {| startSec := Qmax 0 (videoDurationSec - targetDurationSec);
                     endSec := videoDurationSec |};
                trimRanges :=
                  [{| startSec := 0;
                      endSec := Qmax 0 (videoDurationSec - targetDurationSec) |}];
                candReasoning := ["No safe outro candidate found; evaluating intro trim."] |}
      \/ c = {| candStrategy := intro_outro;
                candKeepRange :=
                  {| startSec := Qmax 0 (videoDurationSec - targetDurationSec) / 2;
                     endSec :=
                       videoDurationSec
                       - (Qmax 0 (videoDurationSec - targetDurationSec)
                          - Qmax 0 (videoDurationSec - targetDurationSec) / 2) |};
                trimRanges :=
                  [ {| startSec := 0;
                       endSec := Qmax 0 (videoDurationSec - targetDurationSec) / 2 |};
                    {| startSec :=
                         videoDurationSec
                         - (Qmax 0 (videoDurationSec - targetDurationSec)
                            - Qmax 0 (videoDurationSec - targetDurationSec) / 2);
                       endSec := videoDurationSec |} ];
                candReasoning :=
                  ["Balancing trim between intro and outro as secondary fallback."] |}).
    { destruct hasReplacementAudio; cbn [negb app] in Hin.
      - destruct Hin as [<-|[]]. now left.
      - destruct Hin as [<-|[<-|[<-|[]]]]; auto. }
    assert (Hhalf : Qmax 0 (videoDurationSec - targetDurationSec) / 2
                    + Qmax 0 (videoDurationSec - targetDurationSec) / 2
                    == Qmax 0 (videoDurationSec - targetDurationSec)) by field.
    revert Hhalf Hcases. clear Hin.
    generalize (Qmax 0 (videoDurationSec - targetDurationSec) / 2). intros half Hhalf Hcases.
    destruct Hcases as [-> | [-> | ->]]; cbn [candKeepRange trimRanges]; split.
    + unfold totalLength. rewrite (fold_sum_cons rangeLength). cbn [fold_left].
      unfold rangeLength. cbn [startSec endSec]. pick_minmax; lra.
    + intros trim [<-|[]]. cbn [startSec endSec]. split; [pick_minmax; lra|].
      apply overlaps_false. cbn [startSec endSec]. left. pick_minmax; lra.
    + unfold totalLength. rewrite (fold_sum_cons rangeLength). cbn [fold_left].
      unfold rangeLength. cbn [startSec endSec]. pick_minmax; lra.
    + intros trim [<-|[]]. cbn [startSec endSec]. split; [pick_minmax; lra|].
      apply overlaps_false. cbn [startSec endSec]. right. pick_minmax; lra.
    + unfold totalLength. rewrite !(fold_sum_cons rangeLength). cbn [fold_left].
      unfold rangeLength. cbn [startSec endSec]. pick_minmax; lra.
    + intros trim [<-|[<-|[]]]; cbn [startSec endSec].
      * split; [pick_minmax; lra|]. apply overlaps_false. cbn [startSec endSec].
        right. pick_minmax; lra.
      * split; [pick_minmax; lra|]. apply overlaps_false. cbn [startSec endSec].
        left. pick_minmax; lra.
Qed.

Lemma buildCandidates_partition_witness :
  Forall (fun c => rangeLength (candKeepRange c) + totalLength (trimRanges c) == 10)
    (buildCandidates 10 8 false).
Proof.
  apply List.Forall_forall. intros c Hin.
  destruct (buildCandidates_partition 10 8 false c) as [Hsum _];
    [discriminate | exact Hin | exact Hsum].
Defined.

End EngineLaws.

(** ** Child processes, probing and clamping *)

Module MediaLaws.
Import Sys Media Spec SysFacts.

Lemma append_assoc (a b c : string) : (a +:+ b) +:+ c = a +:+ (b +:+ c).
Proof.
  induction a as [|x a IH]; [reflexivity|].
  change (String x ((a +:+ b) +:+ c) = String x (a +:+ (b +:+ c))). now rewrite IH.
Qed.

Lemma append_nil_r (a : string) : a +:+ "" = a.
Proof.
  induction a as [|x a IH]; [reflexivity|].
  change (String x (a +:+ "") = String x a). now rewrite IH.
Qed.

Lemma feedChunks_collects cs : forall out err st,
  feedChunks cs out err None None st
  = (Returns (out +:+ outputOf Stdout cs, err +:+ outputOf Stderr cs), st).
Proof.
  induction cs as [|[[] text] cs IH]; intros out err st.
  - cbn. now rewrite !append_nil_r.
  - cbn [feedChunks optCall outputOf]. unfold bind, ret at 1.
    rewrite IH, append_assoc. reflexivity.
  - cbn [feedChunks optCall outputOf]. unfold bind, ret at 1.
    rewrite IH, append_assoc. reflexivity.
Qed.

Lemma runProcess_run E command args cwd st :
  runProcess E command args cwd None None st
  = (match finish (spawnAnswer E (calls st) command args) with
     | Errored message => Throws (PlainError message)
     | Closed c =>
         Returns {| code := default 1%Z c;
                    stdout := outputOf Stdout (chunks (spawnAnswer E (calls st) command args));
                    stderr := outputOf Stderr (chunks (spawnAnswer E (calls st) command args)) |}
     end,
     withCalls st [Spawn command args cwd]).
Proof.
  unfold runProcess.
  rewrite (bind_returns _ _ _ _ _ (spawn_run E command args cwd st)).
  rewrite (bind_returns _ _ _ _ _ (feedChunks_collects _ _ _ _)).
  destruct (finish _); reflexivity.
Qed.

(** X11: [runProcess] without callbacks makes exactly one call, the spawn.
    When the child closes, the result holds everything the child printed on
    each stream, in arrival order, and the exit code, 1 standing for a
    missing code; when the child emits an error, the call throws that plain
    error whatever was printed. *)
Theorem runProcess_collects_output
    (E : Env) (command : string) (args : list string) (cwd : option string)
    (st : State) :
  snd (runProcess E command args cwd None None st) = withCalls st [Spawn command args cwd]
  /\ (forall c,
        finish (spawnAnswer E (calls st) command args) = Closed c ->
        exists result,
          fst (runProcess E command args cwd None None st) = Returns result
          /\ code result = match c with Some n => n | None => 1%Z end
          /\ stdout result = outputOf Stdout (chunks (spawnAnswer E (calls st) command args))
          /\ stderr result = outputOf Stderr (chunks (spawnAnswer E (calls st) command args)))
  /\ (forall message,
        finish (spawnAnswer E (calls st) command args) = Errored message ->
        fst (runProcess E command args cwd None None st) = Throws (PlainError message)).
Proof.
  rewrite runProcess_run. cbn [fst snd]. repeat split.
  - intros c ->. eexists. split; [reflexivity|]. destruct c; repeat split.
  - intros message ->. reflexivity.
Qed.

Lemma probeDurationSeconds_run P E file st :
  probeDurationSeconds P E file st
  = if negb (existsSyncAnswer E (calls st) file) then
      (Throws (PlainError ("Media file does not exist: " +:+ file)),
       withCalls st [ExistsSync file])
    else
      (match finish (spawnAnswer E (calls st ++ [ExistsSync file]) (ffprobeBin P)
                       (probeArgs file)) with
       | Errored message => Throws (PlainError message)
       | Closed c =>
           let out := outputOf Stdout
                        (chunks (spawnAnswer E (calls st ++ [ExistsSync file])
                                   (ffprobeBin P) (probeArgs file))) in
           let err := outputOf Stderr
                        (chunks (spawnAnswer E (calls st ++ [ExistsSync file])
                                   (ffprobeBin P) (probeArgs file))) in
           if negb (default 1 c =? 0)%Z then
             Throws (PlainError ("ffprobe failed: " +:+ orElse err out))
           else
             match parseNumber P (trim P out) with
             | Some value =>
                 if Js.leb value 0
                 then Throws (PlainError ("Invalid duration from ffprobe for " +:+ file))
                 else Returns value
             | None => Throws (PlainError ("Invalid duration from ffprobe for " +:+ file))
             end
       end,
       withCalls st [ExistsSync file; Spawn (ffprobeBin P) (probeArgs file) None]).
Proof.
  unfold probeDurationSeconds.
  rewrite (bind_returns _ _ _ _ _ (existsSync_run E file st)).
  destruct (existsSyncAnswer E (calls st) file); cbn [negb]; [|reflexivity].
  fold (probeArgs file). unfold bind at 1. rewrite runProcess_run.
  rewrite withCalls_withCalls. cbn [withCalls calls app].
  destruct (finish _) as [c|message]; [|reflexivity].
  cbn [code stdout stderr].
  destruct (negb (default 1 c =? 0)%Z); [reflexivity|].
  destruct (parseNumber P _) as [value|]; [|reflexivity].
  destruct (Js.leb value 0); reflexivity.
Qed.

(** X12: [probeDurationSeconds] checks that the file exists before anything
    else and throws, without starting the probe, when it does not; a value
    it returns is always positive and costs exactly the existence check and
    one run of the probe; whatever it throws is a plain error, never an
    [AppError]. *)
Theorem probeDurationSeconds_outcomes
    (P : Platform) (E : Env) (filePath : string) (st : State) :
  (existsSyncAnswer E (calls st) filePath = false ->
   probeDurationSeconds P E filePath st
   = (Throws (PlainError ("Media file does not exist: " +:+ filePath)),
      withCalls st [ExistsSync filePath]))
  /\ (forall value st',
        probeDurationSeconds P E filePath st = (Returns value, st') ->
        0 < value
        /\ existsSyncAnswer E (calls st) filePath = true
        /\ st' = withCalls st [ ExistsSync filePath;
                                Spawn (ffprobeBin P) (probeArgs filePath) None ])
  /\ (forall e st',
        probeDurationSeconds P E filePath st = (Throws e, st') ->
        thrownCode e = None).
Proof.
  rewrite probeDurationSeconds_run.
  destruct (existsSyncAnswer E (calls st) filePath); cbn [negb].
  - split; [discriminate|].
    destruct (finish _) as [c|message].
    + cbv zeta. destruct (negb (default 1 c =? 0)%Z).
      * split; [discriminate|]. intros e st' [= <- _]. reflexivity.
      * destruct (parseNumber P _) as [value|].
        -- destruct (Js.leb value 0) eqn:Hle.
           ++ split; [discriminate|]. intros e st' [= <- _]. reflexivity.
           ++ apply leb_false in Hle. split; [|discriminate].
              intros v st' [= <- <-]. repeat split. assumption.
        -- split; [discriminate|]. intros e st' [= <- _]. reflexivity.
    + split; [discriminate|]. intros e st' [= <- _]. reflexivity.
  - split; [reflexivity|]. split; [discriminate|].
    intros e st' [= <- _]. reflexivity.
Qed.

Lemma probeDurationSeconds_throws P E file st e st' :
  probeDurationSeconds P E file st = (Throws e, st') -> thrownCode e = None.
Proof.
  rewrite probeDurationSeconds_run.
  destruct (negb (existsSyncAnswer E (calls st) file)).
  { intros [= <- _]. reflexivity. }
  destruct (finish _) as [c|message]; [|intros [= <- _]; reflexivity].
  cbv zeta. destruct (negb (default 1 c =? 0)%Z); [intros [= <- _]; reflexivity|].
  destruct (parseNumber P _) as [value|]; [|intros [= <- _]; reflexivity].
  destruct (Js.leb value 0); [intros [= <- _]; reflexivity | discriminate].
Qed.

(** X13: for a duration that is not negative, [clampRange] returns an
    ordered range inside [0, durationSec], whatever the two inputs are and
    in whichever order they come; a range that is already ordered and
    inside is returned unchanged, so clamping twice is clamping once. *)
Theorem clampRange_within_duration (startSec' endSec' durationSec : Q) :
  0 <= durationSec ->
  0 <= startSec (clampRange startSec' endSec' durationSec)
  /\ startSec (clampRange startSec' endSec' durationSec)
     <= endSec (clampRange startSec' endSec' durationSec)
  /\ endSec (clampRange startSec' endSec' durationSec) <= durationSec
  /\ (0 <= startSec' -> startSec' <= endSec' -> endSec' <= durationSec ->
      startSec (clampRange startSec' endSec' durationSec) == startSec'
      /\ endSec (clampRange startSec' endSec' durationSec) == endSec')
  /\ startSec (clampRange (startSec (clampRange startSec' endSec' durationSec))
                 (endSec (clampRange startSec' endSec' durationSec)) durationSec)
     == startSec (clampRange startSec' endSec' durationSec)
  /\ endSec (clampRange (startSec (clampRange startSec' endSec' durationSec))
               (endSec (clampRange startSec' endSec' durationSec)) durationSec)
     == endSec (clampRange startSec' endSec' durationSec).
Proof.
  intros Hd. unfold clampRange. cbn [startSec endSec].
  repeat split; intros; pick_minmax; lra.
Qed.

Lemma clampRange_within_duration_witness :
  0 <= startSec (clampRange 12 (-3) 10)
  /\ startSec (clampRange 12 (-3) 10) <= endSec (clampRange 12 (-3) 10)
  /\ endSec (clampRange 12 (-3) 10) <= 10.
Proof.
  destruct (clampRange_within_duration 12 (-3) 10) as (H1 & H2 & H3 & _);
    [discriminate|].
  repeat split; assumption.
Defined.

End MediaLaws.

(** ** More on rendering *)

Module RenderLaws.
Import Sys Media Render Spec SysFacts RenderFacts.

Lemma scanProgress_latest s : forall latest,
  scanProgress s latest
  = match scanProgress s None with
    | Some seconds => Some seconds
    | None => latest
    end.
Proof.
  induction s as [|c rest IH]; intros latest; [reflexivity|].
  cbn [scanProgress].
  rewrite (IH (match matchTimeAt (String c rest) with
               | Some seconds => Some seconds
               | None => latest
               end)).
  rewrite (IH (match matchTimeAt (String c rest) with
               | Some seconds => Some seconds
               | None => None
               end)).
  destruct (scanProgress rest None); [reflexivity|].
  destruct (matchTimeAt (String c rest)); reflexivity.
Qed.

Lemma scanProgress_app a b : forall latest,
  exists latest', scanProgress (a +:+ b) latest = scanProgress b latest'.
Proof.
  induction a as [|c a IH]; intros latest.
  - exists latest. reflexivity.
  - change (String c a +:+ b) with (String c (a +:+ b)). cbn [scanProgress].
    apply IH.
Qed.

Lemma digitValue_range c d : digitValue c = Some d -> (0 <= d <= 9)%Z.
Proof.
  unfold digitValue.
  destruct ((48 <=? Z.of_nat (nat_of_ascii c)) && (Z.of_nat (nat_of_ascii c) <=? 57))%Z
    eqn:H; [|discriminate].
  intros [= <-]. apply andb_true_iff in H. lia.
Qed.

Lemma inject_Z_nonneg n : (0 <= n)%Z -> 0 <= inject_Z n.
Proof. intros H. unfold Qle, inject_Z. cbn. lia. Qed.

Lemma matchTimeAt_nonneg s seconds : matchTimeAt s = Some seconds -> 0 <= seconds.
Proof.
  unfold matchTimeAt. intros H.
  repeat match type of H with
         | context [match ?x with _ => _ end] =>
             lazymatch x with
             | digitValue _ => fail
             | _ => destruct x; try discriminate
             end
         end.
  repeat match type of H with
         | context [digitValue ?c] =>
             let e := fresh "Hd" in
             destruct (digitValue c) eqn:e; try discriminate;
             apply digitValue_range in e
         end.
  injection H as <-.
  repeat match goal with
         | |- context [inject_Z ?n] =>
             let h := fresh "Hi" in
             assert (h : 0 <= inject_Z n) by (apply inject_Z_nonneg; lia);
             generalize dependent (inject_Z n); intros
         end.
  assert (Hq : forall x : Q, 0 <= x -> 0 <= x / 100).
  { intros x Hx. apply Qle_shift_div_l; lra. }
  repeat match goal with
         | |- context [?x / 100] =>
             let h := fresh "Hq" in
             assert (h : 0 <= x / 100) by (apply Hq; assumption);
             generalize dependent (x / 100); intros
         end.
  nra.
Qed.

Lemma scanProgress_nonneg s : forall latest seconds,
  (forall v, latest = Some v -> 0 <= v) ->
  scanProgress s latest = Some seconds -> 0 <= seconds.
Proof.
  induction s as [|c rest IH]; intros latest seconds Hl.
  - cbn. apply Hl.
  - cbn [scanProgress]. apply IH.
    destruct (matchTimeAt (String c rest)) eqn:Hm; [|exact Hl].
    intros v [= <-]. exact (matchTimeAt_nonneg _ _ Hm).
Qed.

(** X14: in a chunk of encoder output the last progress marker wins: once
    a piece of text holds a marker [time=HH:MM:SS.ff], whatever is printed
    before that piece does not change the seconds read from it; and the
    seconds read are never negative. *)
Theorem parseFfmpegProgressSeconds_last_marker_wins (before chunk : string) (seconds : Q) :
  parseFfmpegProgressSeconds chunk = Some seconds ->
  parseFfmpegProgressSeconds (before +:+ chunk) = Some seconds /\ 0 <= seconds.
Proof.
  unfold parseFfmpegProgressSeconds. intros H. split.
  - destruct (scanProgress_app before chunk None) as (latest & ->).
    rewrite scanProgress_latest, H. reflexivity.
  - eapply scanProgress_nonneg; [|exact H]. discriminate.
Qed.

Lemma parseFfmpegProgressSeconds_last_marker_wins_witness :
  exists seconds,
    parseFfmpegProgressSeconds
      ("frame=  10 time=00:00:01.00 " +:+ "frame=  98 time=00:01:04.50 bitrate=N/A")
    = Some seconds
    /\ seconds == 64.5.
Proof.
  eexists. split.
  - apply (parseFfmpegProgressSeconds_last_marker_wins "frame=  10 time=00:00:01.00 "
             "frame=  98 time=00:01:04.50 bitrate=N/A").
    cbv. reflexivity.
  - reflexivity.
Defined.




Lemma feedChunks_returns cs (onStdout onStderr : option (string -> M unit)) :
  returnsAlways onStdout -> returnsAlways onStderr ->
  forall out err st,
  exists io st', feedChunks cs out err onStdout onStderr st = (Returns io, st').
Proof.
  intros H1 H2. induction cs as [|[[] text] cs IH]; intros out err st.
  - eexists _, _. reflexivity.
  - cbn [feedChunks].
    assert (Hcall : exists st1, optCall onStdout text st = (Returns tt, st1)).
    { destruct onStdout as [g|]; [apply (H1 g eq_refl) | eexists; reflexivity]. }
    destruct Hcall as (st1 & Hcall). rewrite (bind_returns _ _ _ _ _ Hcall). apply IH.
  - cbn [feedChunks].
    assert (Hcall : exists st1, optCall onStderr text st = (Returns tt, st1)).
    { destruct onStderr as [g|]; [apply (H2 g eq_refl) | eexists; reflexivity]. }
    destruct Hcall as (st1 & Hcall). rewrite (bind_returns _ _ _ _ _ Hcall). apply IH.
Qed.

(** With callbacks that return, [runProcess] returns or throws the plain
    error of the child. *)
Lemma runProcess_throws E command args cwd (onStdout onStderr : option (string -> M unit))
    st e st' :
  returnsAlways onStdout -> returnsAlways onStderr ->
  runProcess E command args cwd onStdout onStderr st = (Throws e, st') ->
  thrownCode e = None.
Proof.
  intros H1 H2. unfold runProcess.
  rewrite (bind_returns _ _ _ _ _ (spawn_run E command args cwd st)).
  destruct (feedChunks_returns (chunks (spawnAnswer E (calls st) command args))
              _ _ H1 H2 "" "" (withCalls st [Spawn command args cwd]))
    as (io & st1 & Hfeed).
  rewrite (bind_returns _ _ _ _ _ Hfeed).
  destruct (finish _); [discriminate|]. intros [= <- _]. reflexivity.
Qed.

Lemma optCall_returns {A} (f : option (A -> M unit)) x st :
  returnsAlways f -> exists st', optCall f x st = (Returns tt, st').
Proof.
  intros H. destruct f as [g|]; [apply (H g eq_refl) | eexists; reflexivity].
Qed.

Lemma onEncoderStderr_returns P options :
  returnsAlways (onProgress options) -> returnsAlways (onLog options) ->
  returnsAlways (Some (onEncoderStderr P options)).
Proof.
  intros Hp Hl g [= <-] chunk st. unfold onEncoderStderr.
  destruct (optCall_returns (onLog options) (trim P chunk) st Hl) as (st1 & Hlog).
  rewrite (bind_returns _ _ _ _ _ Hlog).
  destruct (parseFfmpegProgressSeconds chunk); [|eexists; reflexivity].
  destruct (Js.leb (targetDurationSec options) 0); apply optCall_returns; assumption.
Qed.

(** X16: a keep range that the override validator has accepted for a job
    is never refused by [renderVideo] when it is rendered for that job:
    the range passes every check made before the encoder starts, and, with
    callbacks that return, the only errors left are RENDER_FAILED and the
    plain errors of the child processes. *)
Theorem validated_range_is_rendered
    (P : Platform) (E : Env) (job : Job.JobRecord) (keepRange : TimeRange)
    (outputPath : string) (onProgress : option (Q * option string -> M unit))
    (onLog : option (string -> M unit)) (st : State) :
  Override.validateOverrideRange job keepRange = Returns tt ->
  returnsAlways onProgress ->
  returnsAlways onLog ->
  passesRenderChecks (renderOptionsOf job keepRange outputPath onProgress onLog) = true
  /\ (forall e st',
        renderVideo P E (renderOptionsOf job keepRange outputPath onProgress onLog) st
        = (Throws e, st') ->
        thrownCode e = Some RENDER_FAILED \/ thrownCode e = None).
Proof.
  intros Hvalid Hp Hl.
  set (options := renderOptionsOf job keepRange outputPath onProgress onLog).
  assert (Hchecks : passesRenderChecks options = true).
  { rewrite validateOverrideRange_cases in Hvalid.
    unfold passesRenderChecks. cbn [options renderOptionsOf Render.videoDurationSec
      Render.keepRange Render.replacementAudioPath].
    destruct (inBounds (Job.videoDurationSec job) keepRange); cbn [andb negb] in *;
      [|discriminate].
    destruct (inTolerance (Job.targetDurationSec job) keepRange); cbn [negb] in Hvalid;
      [|discriminate].
    destruct (Js.truthy (Job.replacementAudioPath job) && Js.gtb (startSec keepRange) 0.001);
      [discriminate | reflexivity]. }
  split; [exact Hchecks|].
  intros e st'. rewrite (renderVideo_accepted P E options st Hchecks).
  unfold bind at 1.
  destruct (runProcess E _ _ _ _ _ _) as [[result|e1] st1] eqn:Hrun.
  - destruct (negb (code result =? 0)%Z).
    { intros [= <- _]. left. reflexivity. }
    rewrite (bind_returns _ _ _ _ _ (existsSync_run E _ st1)).
    destruct (negb (existsSyncAnswer E (calls st1) (Render.outputPath options))).
    { intros [= <- _]. left. reflexivity. }
    unfold bind at 1.
    destruct (probeDurationSeconds P E _ _) as [[d|e2] st2] eqn:Hprobe.
    + destruct (Js.gtb _ 0.25).
      { intros [= <- _]. left. reflexivity. }
      destruct (optCall_returns (Render.onProgress options)
                  (1, Some "Rendering complete") st2 Hp) as (st3 & Hdone).
      rewrite (bind_returns _ _ _ _ _ Hdone). discriminate.
    + intros [= <- _]. right.
      eapply MediaLaws.probeDurationSeconds_throws; exact Hprobe.
  - intros [= <- _]. right.
    eapply runProcess_throws; [| |exact Hrun].
    + discriminate.
    + apply onEncoderStderr_returns; assumption.
Qed.

Lemma validated_range_is_rendered_witness :
  passesRenderChecks
    (renderOptionsOf Samples.jobWithAudio (mkRange 0 8) "/srv/syncy/data/outputs/job-1.mp4"
       None None) = true.
Proof.
  apply (validated_range_is_rendered Samples.platform (Samples.env "8.0" "8.0")
           Samples.jobWithAudio (mkRange 0 8) "/srv/syncy/data/outputs/job-1.mp4"
           None None Samples.emptyState);
    [reflexivity | discriminate | discriminate].
Defined.

(** X17: after the checks, a failure of the encoder is reported as
    RENDER_FAILED and the output is not probed.  An exit status other than
    0 gives the diagnostic of the encoder (its standard error, else its
    standard output, else a fixed text); an exit status 0 without an output
    file gives the fixed text about the missing file; and an error of the
    child process itself is thrown on as it is. *)
Theorem encoder_failure_is_render_failed
    (P : Platform) (E : Env) (options : RenderOptions) (st st2 : State)
    (run : outcome ProcessResult) :
  passesRenderChecks options = true ->
  runProcess E (ffmpegBin P) (encoderArgs P options) (Some (repoRoot P)) None
    (Some (onEncoderStderr P options))
    (withCalls st [MkdirSync (pathDirname P (outputPath options))])
  = (run, st2) ->
  match run with
  | Throws e => renderVideo P E options st = (Throws e, st2)
  | Returns result =>
      if negb (code result =? 0)%Z then
        renderVideo P E options st
        = (Throws (AppError RENDER_FAILED
                     (orElse (stderr result)
                        (orElse (stdout result) "FFmpeg render failed.")) 400),
           st2)
      else
        existsSyncAnswer E (calls st2) (outputPath options) = false ->
        renderVideo P E options st
        = (Throws (AppError RENDER_FAILED
                     "FFmpeg completed but output file was not produced." 400),
           withCalls st2 [ExistsSync (outputPath options)])
  end.
Proof.
  intros Hchecks Hrun. rewrite !(renderVideo_accepted P E options st Hchecks).
  destruct run as [result|e].
  - rewrite !(bind_returns _ _ _ _ _ Hrun).
    destruct (negb (code result =? 0)%Z); [reflexivity|].
    intros Hmissing.
    rewrite (bind_returns _ _ _ _ _ (existsSync_run E _ st2)), Hmissing. reflexivity.
  - apply (bind_throws _ _ _ _ _ Hrun).
Qed.

Lemma encoder_failure_is_render_failed_witness :
  renderVideo Samples.platform Samples.failingTools
    (Samples.renderOptions (mkRange 0 8)) Samples.emptyState
  = (Throws (AppError RENDER_FAILED "Conversion failed!" 400),
     withCalls Samples.emptyState
       [ MkdirSync "/srv/syncy/data/outputs";
         Spawn "ffmpeg"
           (encoderArgs Samples.platform (Samples.renderOptions (mkRange 0 8)))
           (Some "/srv/syncy") ]).
Proof.
  apply (encoder_failure_is_render_failed Samples.platform Samples.failingTools
           (Samples.renderOptions (mkRange 0 8)) Samples.emptyState _
           (Returns {| code := 1; stdout := ""; stderr := "Conversion failed!" |}));
    reflexivity.
Defined.

(** X18: while the encoder runs, the progress reported from its output
    stays below completion.  For a target of positive duration, every
    chunk of standard error is logged, and a chunk that holds a progress
    marker reports a progress between 0 and 0.99; a chunk without a marker
    reports nothing.  The value 1 is left to the end of the render. *)
Theorem onEncoderStderr_progress_below_one
    (P : Platform) (options : RenderOptions) (chunk : string) :
  0 < targetDurationSec options ->
  exists report : option Q,
    (report = None <-> parseFfmpegProgressSeconds chunk = None)
    /\ (forall p, report = Some p -> 0 <= p <= 0.99)
    /\ onEncoderStderr P options chunk
       = (optCall (onLog options) (trim P chunk) ;;;
          match report with
          | None => ret tt
          | Some p => optCall (onProgress options) (p, Some "Rendering in progress")
          end).
Proof.
  intros Ht. unfold onEncoderStderr.
  assert (Hpos : Js.leb (targetDurationSec options) 0 = false) by (apply leb_false; lra).
  rewrite Hpos.
  destruct (parseFfmpegProgressSeconds chunk) as [seconds|].
  - exists (Some (Qmin 0.99 (Qmax 0 (seconds / targetDurationSec options)))).
    split; [split; discriminate|]. split; [|reflexivity].
    intros p [= <-]. pick_minmax; lra.
  - exists None. split; [split; reflexivity|]. split; [discriminate | reflexivity].
Qed.

Lemma onEncoderStderr_progress_below_one_witness :
  exists report : option Q,
    (report = None <->
     parseFfmpegProgressSeconds "frame=  240 fps=0.0 time=00:00:04.00 bitrate=N/A" = None)
    /\ (forall p, report = Some p -> 0 <= p <= 0.99).
Proof.
  destruct (onEncoderStderr_progress_below_one Samples.platform
              (Samples.renderOptions (mkRange 0 8))
              "frame=  240 fps=0.0 time=00:00:04.00 bitrate=N/A")
    as (report & Hnone & Hbound & _); [reflexivity|].
  exists report. split; assumption.
Defined.

End RenderLaws.

(** ** The task queue *)

Module QueueLaws.
Import Sys Spec SysFacts.

Lemma invoked_snoc cs task : invoked (cs ++ [InvokeTask task]) = invoked cs ++ [task].
Proof. now rewrite invoked_app. Qed.

(** X19: the queue keeps to its concurrency and to the order of
    submission.  From a state in which at most [concurrency] tasks run and
    tasks wait only while every slot is taken, [push] and the settling of a
    running task lead to such a state again; [push] appends the task to
    those submitted and starts it at once when a slot is free; when a task
    settles, the task that has waited longest, if any, is the one started. *)
Theorem queue_keeps_capacity_and_order (concurrency : nat) (st : State) :
  withinCapacity concurrency st ->
  (forall task,
     exists st',
       Queue.push concurrency task st = (Returns tt, st')
       /\ withinCapacity concurrency st'
       /\ submitted st' = submitted st ++ [task]
       /\ invoked (calls st')
          = invoked (calls st)
            ++ (if (concurrency <=? running st)%nat then [] else [task]))
  /\ ((0 < running st)%nat ->
      exists st',
        Queue.settled concurrency st = (Returns tt, st')
        /\ withinCapacity concurrency st'
        /\ submitted st' = submitted st
        /\ match tasks st with
           | next :: rest =>
               invoked (calls st') = invoked (calls st) ++ [next]
               /\ tasks st' = rest /\ running st' = running st
           | [] =>
               invoked (calls st') = invoked (calls st)
               /\ tasks st' = [] /\ running st' = (running st - 1)%nat
           end).
Proof.
  intros [Hcap Hwait]. split.
  - intros task.
    unfold Queue.push, Queue.runNext, Queue.setQueue, record, bind, get, modify, ret.
    cbn [tasks running].
    destruct (concurrency <=? running st)%nat eqn:Hfull.
    + apply Nat.leb_le in Hfull.
      eexists. split; [reflexivity|]. unfold withinCapacity, submitted.
      cbn [tasks running calls]. repeat split.
      * assumption.
      * intros _. lia.
      * now rewrite app_assoc.
      * now rewrite app_nil_r.
    + apply Nat.leb_gt in Hfull.
      assert (Hnone : tasks st = []).
      { destruct (tasks st) as [|x l] eqn:Ht; [reflexivity|].
        assert (running st = concurrency) by (apply Hwait; discriminate). lia. }
      rewrite Hnone. cbn [app].
      eexists. split; [reflexivity|]. unfold withinCapacity, submitted.
      cbn [tasks running calls]. rewrite Hnone, invoked_snoc, !app_nil_r.
      repeat split; [lia | intros []; reflexivity].
  - intros Hrun.
    unfold Queue.settled, Queue.runNext, Queue.setQueue, record, bind, get, modify, ret.
    cbn [tasks running].
    assert (Hfree : (concurrency <=? running st - 1)%nat = false)
      by (apply Nat.leb_gt; lia).
    rewrite Hfree.
    destruct (tasks st) as [|next rest] eqn:Ht.
    + eexists. split; [reflexivity|]. unfold withinCapacity, submitted.
      cbn [tasks running calls]. rewrite Ht.
      repeat split; [lia | intros []; reflexivity].
    + assert (Hall : running st = concurrency) by (apply Hwait; discriminate).
      eexists. split; [reflexivity|]. unfold withinCapacity, submitted.
      cbn [tasks running calls]. rewrite Ht, invoked_snoc.
      repeat split; try lia.
      now rewrite <- app_assoc.
Qed.

Lemma queue_keeps_capacity_and_order_witness :
  exists st',
    Queue.settled 1 Samples.busyQueue = (Returns tt, st')
    /\ withinCapacity 1 st'
    /\ invoked (calls st') = [AnalysisTask "job-1"; RenderTask "job-2"]
    /\ tasks st' = [] /\ running st' = 1%nat.
Proof.
  assert (Hcap : withinCapacity 1 Samples.busyQueue).
  { split; [cbn; lia | reflexivity]. }
  destruct (queue_keeps_capacity_and_order 1 Samples.busyQueue Hcap) as [_ Hsettle].
  destruct (Hsettle ltac:(cbn; lia)) as (st' & Hrun & Hcap' & _ & Hi & Ht & Hr).
  exists st'. repeat split; try assumption; apply Hcap'.
Defined.

End QueueLaws.

(** ** The registry of the event bus *)

Module BusLaws.
Import Sys Spec SysFacts StreamFacts Timeline.

Lemma addClient_clients jobId res st :
  Bus.addClient jobId res st
  = (Returns tt,
     mkState (jobs st) (jobEvents st)
       (<[ jobId := default ∅ (clients st !! jobId) ∪ {[ res ]} ]> (clients st))
       (responses st) (tasks st) (running st) (calls st)).
Proof.
  unfold Bus.addClient, Bus.setClients, bind, get, modify, ret.
  destruct (clients st !! jobId) as [set|] eqn:Hset; cbn [negb clients].
  - rewrite bool_decide_eq_true_2 by (now exists set). cbn [negb clients].
    now rewrite Hset.
  - rewrite bool_decide_eq_false_2 by (intros [x Hx]; discriminate).
    cbn [negb clients]. rewrite lookup_insert_eq, insert_insert_eq. reflexivity.
Qed.

Lemma removeClient_clients jobId res st :
  Bus.removeClient jobId res st
  = (Returns tt,
     match clients st !! jobId with
     | None => st
     | Some set =>
         mkState (jobs st) (jobEvents st)
           (if (size (set ∖ {[ res ]}) =? 0)%nat then delete jobId (clients st)
            else <[ jobId := set ∖ {[ res ]} ]> (clients st))
           (responses st) (tasks st) (running st) (calls st)
     end).
Proof.
  unfold Bus.removeClient, Bus.setClients, bind, get, modify, ret.
  destruct (clients st !! jobId) as [set|] eqn:Hset; cbn [clients]; [|reflexivity].
  destruct (size (set ∖ {[res]}) =? 0)%nat; [|reflexivity].
  cbn [jobs jobEvents clients responses tasks running calls].
  now rewrite delete_insert_eq.
Qed.

Lemma size_zero_empty (set : gset nat) : (size set =? 0)%nat = true <-> set = ∅.
Proof.
  rewrite Nat.eqb_eq. split.
  - intros H. apply size_empty_inv in H. now apply leibniz_equiv in H.
  - intros ->. apply size_empty.
Qed.

Lemma add_then_remove (set : gset nat) res :
  res ∉ set -> ((set ∪ {[ res ]}) ∖ {[ res ]} : gset nat) = set.
Proof.
  intros H. rewrite difference_union_distr_l_L, difference_diag_L, union_empty_r_L.
  apply difference_disjoint_L. apply disjoint_singleton_r. exact H.
Qed.

(** X20: the registry of the bus holds no job with an empty set of
    observers, and keeps it that way: attaching a response registers it,
    detaching the last observer of a job forgets the job, and attaching a
    response and detaching it again restores the registry as it was. *)
Theorem bus_registry_stays_tidy (jobId : string) (res : nat) (st : State) :
  tidy st ->
  (exists st',
     Bus.addClient jobId res st = (Returns tt, st')
     /\ tidy st' /\ res ∈ observers jobId st')
  /\ (exists st',
        Bus.removeClient jobId res st = (Returns tt, st')
        /\ tidy st' /\ (res ∉ observers jobId st')
        /\ (observers jobId st ⊆ {[ res ]} -> clients st' !! jobId = None))
  /\ (res ∉ observers jobId st ->
      exists st1 st2,
        Bus.addClient jobId res st = (Returns tt, st1)
        /\ Bus.removeClient jobId res st1 = (Returns tt, st2)
        /\ st2 = st).
Proof.
  intros Htidy. repeat split.
  - eexists. split; [apply addClient_clients|]. split.
    + intros j set. cbn [clients].
      destruct (decide (jobId = j)) as [<-|Hne].
      * rewrite lookup_insert_eq. intros [= <-] Hempty.
        assert (Hin : res ∈ default ∅ (clients st !! jobId) ∪ {[res]})
          by (apply elem_of_union_r, elem_of_singleton; reflexivity).
        rewrite Hempty in Hin. now apply not_elem_of_empty in Hin.
      * rewrite lookup_insert_ne by assumption. apply Htidy.
    + unfold observers. cbn [clients]. rewrite lookup_insert_eq. cbn.
      apply elem_of_union_r, elem_of_singleton. reflexivity.
  - eexists. split; [apply removeClient_clients|].
    unfold observers.
    destruct (clients st !! jobId) as [set|] eqn:Hset.
    + destruct (size (set ∖ {[res]}) =? 0)%nat eqn:Hsize.
      * split; [|split].
        -- intros j s. cbn [clients].
           destruct (decide (jobId = j)) as [<-|Hne].
           ++ rewrite lookup_delete_eq. discriminate.
           ++ rewrite lookup_delete_ne by assumption. apply Htidy.
        -- cbn [clients]. rewrite lookup_delete_eq. cbn. apply not_elem_of_empty.
        -- intros _. cbn [clients]. apply lookup_delete_eq.
      * split; [|split].
        -- intros j s. cbn [clients].
           destruct (decide (jobId = j)) as [<-|Hne].
           ++ rewrite lookup_insert_eq. intros [= <-] Hempty.
              apply size_zero_empty in Hempty. congruence.
           ++ rewrite lookup_insert_ne by assumption. apply Htidy.
        -- cbn [clients]. rewrite lookup_insert_eq. cbn.
           rewrite elem_of_difference, elem_of_singleton. intros [_ H]. now apply H.
        -- cbn [from_option]. unfold id. intros Hsub. exfalso.
           assert (Hempty : set ∖ {[res]} = ∅).
           { apply leibniz_equiv. apply elem_of_equiv_empty. intros x.
             rewrite elem_of_difference. intros [Hx Hn]. apply Hn. now apply Hsub. }
           apply size_zero_empty in Hempty. congruence.
    + split; [exact Htidy|]. rewrite Hset. cbn. split; [apply not_elem_of_empty|].
      intros _. reflexivity.
  - intros Hfresh. eexists _, _. split; [apply addClient_clients|].
    split; [apply removeClient_clients|].
    cbn [clients jobs jobEvents responses tasks running calls].
    rewrite lookup_insert_eq. unfold observers in Hfresh.
    rewrite (add_then_remove _ _ Hfresh).
    destruct (clients st !! jobId) as [set|] eqn:Hset; cbn [from_option] in *; unfold id in *.
    + assert (Hsize : (size set =? 0)%nat = false).
      { destruct (size set =? 0)%nat eqn:Hs; [|reflexivity].
        apply size_zero_empty in Hs. exfalso. exact (Htidy _ _ Hset Hs). }
      rewrite Hsize, insert_insert_eq, insert_id by exact Hset.
      now destruct st.
    + assert (Hsize : (size (∅ : gset nat) =? 0)%nat = true) by (now apply size_zero_empty).
      rewrite Hsize, delete_insert_eq, delete_id by exact Hset.
      now destruct st.
Qed.

Lemma bus_registry_stays_tidy_witness :
  exists st1 st2,
    Bus.addClient "job-1" 8%nat Samples.observed = (Returns tt, st1)
    /\ Bus.removeClient "job-1" 8%nat st1 = (Returns tt, st2)
    /\ st2 = Samples.observed.
Proof.
  assert (Htidy : tidy Samples.observed).
  { intros j set. unfold Samples.observed. cbn [clients].
    destruct (decide ("job-1" = j)) as [<-|Hne].
    - rewrite lookup_singleton_eq. intros [= <-] He.
      assert (Hin : 7%nat ∈ ({[ 7%nat ]} : gset nat)) by (now apply elem_of_singleton).
      rewrite He in Hin. now apply not_elem_of_empty in Hin.
    - rewrite lookup_singleton_ne by assumption. discriminate. }
  destruct (bus_registry_stays_tidy "job-1" 8%nat Samples.observed Htidy) as (_ & _ & Hround).
  apply Hround. unfold observers, Samples.observed. cbn [clients].
  rewrite lookup_singleton_eq. cbn. rewrite elem_of_singleton. discriminate.
Defined.

Lemma broadcast_lookup E jobId type payload st res :
  exists st',
    (timestamp <- nowIso E ;; Bus.publish jobId (Job.mkEvent type timestamp payload)) st
    = (Returns tt, st')
    /\ jobs st' = jobs st /\ jobEvents st' = jobEvents st /\ clients st' = clients st
    /\ responses st' !! res
       = if decide (res ∈ observers jobId st)
         then Some (default [] (responses st !! res)
                    ++ [Data (Job.mkEvent type (dateAnswer E (calls st)) payload)])
         else responses st !! res.
Proof.
  rewrite (bind_returns _ _ _ _ _ (nowIso_run E _)).
  destruct (publish_lookup jobId (Job.mkEvent type (dateAnswer E (calls st)) payload)
              (withCalls st [NewDate]) res) as (st' & Hrun & Hj & He & Hc & Hres).
  exists st'. split; [exact Hrun|]. repeat split; assumption.
Qed.

(** X21: the progress, error and completion broadcasts of the bus are live
    only.  Each writes one frame to every observer of the job and to no
    other response, and stores nothing, so none of them appears when the
    history of the job is replayed; the progress that is broadcast is the
    given one clamped into [0, 1]. *)
Theorem bus_broadcasts_are_live_only
    (E : Env) (jobId : string) (st : State) (res : nat)
    (progress : Q) (message : option string) (text : string) :
  (exists st' p,
     Bus.emitProgress E jobId progress message st = (Returns tt, st')
     /\ jobEvents st' = jobEvents st /\ clients st' = clients st
     /\ 0 <= p <= 1 /\ (0 <= progress <= 1 -> p == progress)
     /\ responses st' !! res
        = if decide (res ∈ observers jobId st)
          then Some (default [] (responses st !! res)
                     ++ [Data (Job.mkEvent "progress" (dateAnswer E (calls st))
                                 (Job.mkPayload None message (Some p) None))])
          else responses st !! res)
  /\ (exists st',
        Bus.emitError E jobId text st = (Returns tt, st')
        /\ jobEvents st' = jobEvents st /\ clients st' = clients st
        /\ responses st' !! res
           = if decide (res ∈ observers jobId st)
             then Some (default [] (responses st !! res)
                        ++ [Data (Job.mkEvent "error" (dateAnswer E (calls st))
                                    (Job.mkPayload None (Some text) None None))])
             else responses st !! res)
  /\ (exists st',
        Bus.emitComplete E jobId message st = (Returns tt, st')
        /\ jobEvents st' = jobEvents st /\ clients st' = clients st
        /\ responses st' !! res
           = if decide (res ∈ observers jobId st)
             then Some (default [] (responses st !! res)
                        ++ [Data (Job.mkEvent "complete" (dateAnswer E (calls st))
                                    (Job.mkPayload None message None None))])
             else responses st !! res).
Proof.
  split; [|split].
  - destruct (broadcast_lookup E jobId "progress"
                (Job.mkPayload None message (Some (Qmin 1 (Qmax 0 progress))) None) st res)
      as (st' & Hrun & _ & He & Hc & Hres).
    exists st', (Qmin 1 (Qmax 0 progress)).
    split; [exact Hrun|]. split; [exact He|]. split; [exact Hc|].
    split; [pick_minmax; lra|]. split; [intros; pick_minmax; lra | exact Hres].
  - destruct (broadcast_lookup E jobId "error"
                (Job.mkPayload None (Some text) None None) st res)
      as (st' & Hrun & _ & He & Hc & Hres).
    exists st'. repeat split; assumption.
  - destruct (broadcast_lookup E jobId "complete"
                (Job.mkPayload None message None None) st res)
      as (st' & Hrun & _ & He & Hc & Hres).
    exists st'. repeat split; assumption.
Qed.

End BusLaws.

(** ** The two tables *)

Module RepoLaws.
Import Sys Spec SysFacts.

Lemma keyedById_insert st key job :
  keyedById st -> Job.id job = key ->
  forall k j, <[ key := job ]> (jobs st) !! k = Some j -> Job.id j = k.
Proof.
  intros Hkeyed Hid k j.
  destruct (decide (key = k)) as [<-|Hne].
  - rewrite lookup_insert_eq. now intros [= <-].
  - rewrite lookup_insert_ne by assumption. apply Hkeyed.
Qed.

(** X22: a job that is inserted can be read back.  For an identifier that
    is not in the table, [insertJob] returns the record with the given
    columns and every optional column empty, [getJob] then returns that
    record, and no other row changes; for an identifier that is in the
    table, [insertJob] throws and changes nothing.  Every row stays stored
    under its own identifier. *)
Theorem insertJob_then_getJob
    (st : State) (id : string) (status : JobStatus) (videoPath : string)
    (replacementAudioPath : option string) (videoDurationSec targetDurationSec deltaSec : Q)
    (createdAt updatedAt : string) :
  keyedById st ->
  match jobs st !! id with
  | Some _ =>
      Repo.insertJob id status videoPath replacementAudioPath videoDurationSec
        targetDurationSec deltaSec createdAt updatedAt st
      = (Throws (PlainError "UNIQUE constraint failed: jobs.id"), st)
  | None =>
      exists st',
        Repo.insertJob id status videoPath replacementAudioPath videoDurationSec
          targetDurationSec deltaSec createdAt updatedAt st
        = (Returns (Job.mkJob id status videoPath replacementAudioPath None
                      videoDurationSec targetDurationSec deltaSec None None None None
                      None createdAt updatedAt),
           st')
        /\ Repo.getJob id st'
           = (Returns (Some (Job.mkJob id status videoPath replacementAudioPath None
                               videoDurationSec targetDurationSec deltaSec None None None
                               None None createdAt updatedAt)),
              st')
        /\ (forall other, other <> id -> jobs st' !! other = jobs st !! other)
        /\ jobEvents st' = jobEvents st
        /\ keyedById st'
  end.
Proof.
  intros Hkeyed.
  destruct (jobs st !! id) as [existing|] eqn:Hlookup.
  - unfold Repo.insertJob, bind, get. rewrite Hlookup. reflexivity.
  - eexists. split; [apply insertJob_run; exact Hlookup|].
    unfold Repo.getJob, bind, get, ret. cbn [jobs jobEvents].
    rewrite lookup_insert_eq. repeat split.
    + intros other Hne. apply lookup_insert_ne. congruence.
    + unfold keyedById. cbn [jobs]. apply keyedById_insert; [assumption | reflexivity].
Qed.

Lemma insertJob_then_getJob_witness :
  Repo.insertJob "job-1" queued "video.mp4" None 10 8 2 "2024-01-02T00:00:00.000Z"
    "2024-01-02T00:00:00.000Z" Samples.stored
  = (Throws (PlainError "UNIQUE constraint failed: jobs.id"), Samples.stored).
Proof.
  assert (Hkeyed : keyedById Samples.stored).
  { intros key j. unfold Samples.stored. cbn [jobs].
    destruct (decide ("job-1" = key)) as [<-|Hne].
    - rewrite lookup_singleton_eq. now intros [= <-].
    - rewrite lookup_singleton_ne by assumption. discriminate. }
  exact (insertJob_then_getJob Samples.stored "job-1" queued "video.mp4" None 10 8 2
           "2024-01-02T00:00:00.000Z" "2024-01-02T00:00:00.000Z" Hkeyed).
Defined.

(** X23: [updateJob] changes what the patch names and the update stamp,
    and nothing else.  The identifier, the two paths of the upload, the
    three durations and the creation stamp of the row are kept, the other
    rows and the stored events are untouched, and the record returned is
    the one now stored; for an identifier that is not in the table it
    throws without reading the clock or changing anything. *)
Theorem updateJob_keeps_identity
    (E : Env) (st : State) (jobId : string) (patch : Job.JobPatch) :
  keyedById st ->
  match jobs st !! jobId with
  | None =>
      Repo.updateJob E jobId patch st
      = (Throws (PlainError ("Job " +:+ jobId +:+ " not found")), st)
  | Some current =>
      exists updated st',
        Repo.updateJob E jobId patch st = (Returns updated, st')
        /\ jobs st' !! jobId = Some updated
        /\ (forall other, other <> jobId -> jobs st' !! other = jobs st !! other)
        /\ jobEvents st' = jobEvents st
        /\ keyedById st'
        /\ Job.id updated = jobId
        /\ Job.videoPath updated = Job.videoPath current
        /\ Job.replacementAudioPath updated = Job.replacementAudioPath current
        /\ Job.videoDurationSec updated = Job.videoDurationSec current
        /\ Job.targetDurationSec updated = Job.targetDurationSec current
        /\ Job.deltaSec updated = Job.deltaSec current
        /\ Job.createdAt updated = Job.createdAt current
        /\ Job.updatedAt updated = dateAnswer E (calls st)
        /\ Job.status updated = default (Job.status current) (Job.pStatus patch)
        /\ Job.overrideKeepRange updated
           = default (Job.overrideKeepRange current) (Job.pOverrideKeepRange patch)
        /\ Job.decision updated = default (Job.decision current) (Job.pDecision patch)
        /\ Job.outputPath updated
           = default (Job.outputPath current) (Job.pOutputPath patch)
        /\ Job.errorCode updated = default (Job.errorCode current) (Job.pErrorCode patch)
        /\ Job.errorMessage updated
           = default (Job.errorMessage current) (Job.pErrorMessage patch)
        /\ Job.analysisResult updated
           = default (Job.analysisResult current) (Job.pAnalysisResult patch)
  end.
Proof.
  intros Hkeyed.
  destruct (jobs st !! jobId) as [current|] eqn:Hlookup.
  - pose proof (Hkeyed _ _ Hlookup) as Hid.
    eexists _, _. split; [apply (updateJob_run E jobId patch st current Hlookup Hid)|].
    cbn [jobs jobEvents]. rewrite lookup_insert_eq.
    split; [reflexivity|]. split.
    { intros other Hne. apply lookup_insert_ne. congruence. }
    split; [reflexivity|]. split.
    { unfold keyedById. cbn [jobs]. apply keyedById_insert; [assumption | exact Hid]. }
    cbn [Repo.mergePatch Job.id Job.videoPath Job.replacementAudioPath
         Job.videoDurationSec Job.targetDurationSec Job.deltaSec Job.createdAt
         Job.updatedAt Job.status Job.overrideKeepRange Job.decision Job.outputPath
         Job.errorCode Job.errorMessage Job.analysisResult].
    repeat split. exact Hid.
  - unfold Repo.updateJob, Repo.getJob, bind, get, ret. rewrite Hlookup. reflexivity.
Qed.

Lemma updateJob_keeps_identity_witness :
  exists updated st',
    Repo.updateJob (Samples.env "8.0" "8.0") "job-1"
      (Job.mkPatch (Some rendering) None None None None None None) Samples.stored
    = (Returns updated, st')
    /\ Job.status updated = rendering
    /\ Job.videoPath updated = "video.mp4"
    /\ Job.targetDurationSec updated = 8.
Proof.
  assert (Hkeyed : keyedById Samples.stored).
  { intros key j. unfold Samples.stored. cbn [jobs].
    destruct (decide ("job-1" = key)) as [<-|Hne].
    - rewrite lookup_singleton_eq. now intros [= <-].
    - rewrite lookup_singleton_ne by assumption. discriminate. }
  pose proof (updateJob_keeps_identity (Samples.env "8.0" "8.0") Samples.stored "job-1"
                (Job.mkPatch (Some rendering) None None None None None None) Hkeyed)
    as H.
  unfold Samples.stored in H at 1. cbn [jobs] in H. rewrite lookup_singleton_eq in H.
  destruct H as (updated & st' & Hrun & _ & _ & _ & _ & _ & Hv & _ & _ & Ht & _ & _ & _
                 & Hs & _).
  exists updated, st'. repeat split; assumption.
Defined.

Lemma numbered_sorted (l : list Job.JobEventRow) : forall k,
  (forall i row, l !! i = Some row -> Job.rowId row = S (k + i)) ->
  StronglySorted (fun a b => (Job.rowId a < Job.rowId b)%nat) l.
Proof.
  induction l as [|x l IH]; intros k Hl; constructor.
  - apply (IH (S k)). intros i row Hi.
    rewrite (Hl (S i) row Hi). f_equal. lia.
  - rewrite List.Forall_forall. intros y Hy.
    apply list_elem_of_In, list_elem_of_lookup in Hy. destruct Hy as [i Hi].
    rewrite (Hl 0%nat x eq_refl), (Hl (S i) y Hi). lia.
Qed.

Lemma filter_StronglySorted {A} (R : A -> A -> Prop) (f : A -> bool) l :
  StronglySorted R l -> StronglySorted R (List.filter f l).
Proof.
  induction 1 as [|x l Hs IH Hx]; cbn [List.filter]; [constructor|].
  destruct (f x); [|exact IH]. constructor; [exact IH|].
  rewrite List.Forall_forall in *. intros y Hy. apply filter_In in Hy. apply Hx, Hy.
Qed.

(** X24: the event log only grows, and in the order of its identifiers.
    [insertEvent] appends one row, stamped with the clock and numbered one
    past the rows stored so far; [listEvents] then returns for the job of
    the event what it returned before followed by the new row, and for any
    other job what it returned before; what [listEvents] returns is
    strictly ascending in the identifiers. *)
Theorem event_log_is_append_only
    (E : Env) (st : State) (jobId type : string) (payload : Job.Payload) :
  numbered st ->
  exists st',
    Repo.insertEvent E jobId type payload st = (Returns tt, st')
    /\ jobEvents st'
       = jobEvents st
         ++ [Job.mkRow (S (length (jobEvents st))) jobId (dateAnswer E (calls st))
               type payload]
    /\ jobs st' = jobs st
    /\ numbered st'
    /\ (forall j,
          Repo.listEvents j st'
          = (Returns
               (rowsOf j st
                ++ (if String.eqb jobId j
                    then [Job.mkRow (S (length (jobEvents st))) jobId
                            (dateAnswer E (calls st)) type payload]
                    else [])),
             st'))
    /\ (forall j,
          StronglySorted (fun a b => (Job.rowId a < Job.rowId b)%nat) (rowsOf j st')).
Proof.
  intros Hnum.
  unfold Repo.insertEvent. rewrite (bind_returns _ _ _ _ _ (nowIso_run E st)).
  unfold modify. cbn [withCalls jobs jobEvents clients responses tasks running calls].
  eexists. split; [reflexivity|]. cbn [jobEvents jobs].
  split; [reflexivity|]. split; [reflexivity|].
  assert (Hnum' : forall i row,
            (jobEvents st
             ++ [Job.mkRow (S (length (jobEvents st))) jobId (dateAnswer E (calls st))
                   type payload]) !! i = Some row ->
            Job.rowId row = S i).
  { intros i row Hi. apply lookup_app_Some in Hi.
    destruct Hi as [Hi|[Hlen Hi]]; [exact (Hnum _ _ Hi)|].
    destruct (i - length (jobEvents st))%nat eqn:Hd; [|discriminate].
    injection Hi as <-. cbn [Job.rowId]. f_equal. lia. }
  split; [exact Hnum'|]. split.
  - intros j. unfold Repo.listEvents, bind, get, ret, rowsOf. cbn [jobEvents].
    rewrite List.filter_app. cbn [List.filter Job.rowJobId]. reflexivity.
  - intros j. unfold rowsOf. cbn [jobEvents]. apply filter_StronglySorted.
    apply (numbered_sorted _ 0%nat). exact Hnum'.
Qed.

Lemma event_log_is_append_only_witness :
  exists st',
    Repo.insertEvent (Samples.env "8.0" "8.0") "job-1" "log"
      (Job.mkPayload None (Some "Transcribing audio.") None None) Samples.stored
    = (Returns tt, st')
    /\ List.map Job.rowId (rowsOf "job-1" st') = [1%nat; 2%nat].
Proof.
  assert (Hnum : numbered Samples.stored).
  { intros i row. unfold Samples.stored. cbn [jobEvents].
    destruct i as [|i]; [now intros [= <-] | discriminate]. }
  destruct (event_log_is_append_only (Samples.env "8.0" "8.0") Samples.stored "job-1" "log"
              (Job.mkPayload None (Some "Transcribing audio.") None None) Hnum)
    as (st' & Hrun & He & _).
  exists st'. split; [exact Hrun|]. unfold rowsOf. rewrite He. reflexivity.
Defined.

End RepoLaws.

(** ** More on the job service *)

Module ServiceLaws.
Import Sys Spec SysFacts.

Lemma getJob_run jobId st : Repo.getJob jobId st = (Returns (jobs st !! jobId), st).
Proof. reflexivity. Qed.

Lemma emitAndPersistEvent_exact E jobId type payload st :
  Service.emitAndPersistEvent E jobId type payload st
  = (Returns tt,
     mkState (jobs st)
       (jobEvents st
        ++ [Job.mkRow (S (length (jobEvents st))) jobId (dateAnswer E (calls st))
              type payload])
       (clients st)
       (sendAll (elements (default ∅ (clients st !! jobId)))
          (Data (Job.mkEvent (Service.eventType type)
                   (dateAnswer E (calls st ++ [NewDate])) payload))
          (responses st))
       (tasks st) (running st) (calls st ++ [NewDate; NewDate])).
Proof.
  unfold Service.emitAndPersistEvent, Repo.insertEvent.
  unfold bind at 1. unfold bind at 1. rewrite nowIso_run. unfold modify.
  rewrite (bind_returns _ _ _ _ _ (nowIso_run E _)).
  rewrite publish_run. unfold withResponses, withCalls.
  cbn [jobs jobEvents clients responses tasks running calls].
  now rewrite <- app_assoc.
Qed.

(** X25: [saveOverride] stores a keep range only after the validator has
    accepted it for the job.  For an unknown job it throws JOB_NOT_FOUND
    with status 404, and for a range that the validator refuses it throws
    the validator's error; in both cases nothing is stored and no event is
    emitted.  Otherwise the job returned and stored carries the range as
    its override, keeps its status and its decision, no other job changes,
    and one log event is added to the events of the job. *)
Theorem saveOverride_outcomes
    (E : Env) (st : State) (jobId : string) (keepRange : TimeRange) :
  keyedById st ->
  match jobs st !! jobId with
  | None =>
      Service.saveOverride E jobId keepRange st
      = (Throws (AppError JOB_NOT_FOUND ("Job " +:+ jobId +:+ " not found.") 404), st)
  | Some job =>
      match Override.validateOverrideRange job keepRange with
      | Throws e => Service.saveOverride E jobId keepRange st = (Throws e, st)
      | Returns _ =>
          exists updated st',
            Service.saveOverride E jobId keepRange st = (Returns updated, st')
            /\ jobs st' !! jobId = Some updated
            /\ (forall other, other <> jobId -> jobs st' !! other = jobs st !! other)
            /\ Job.overrideKeepRange updated = Some keepRange
            /\ Job.status updated = Job.status job
            /\ Job.decision updated = Job.decision job
            /\ rowsOf jobId st'
               = rowsOf jobId st
                 ++ [Job.mkRow (S (length (jobEvents st))) jobId
                       (dateAnswer E (calls st ++ [NewDate])) "log"
                       (Job.mkPayload None
                          (Some ("Manual override set: "
                                   +:+ Js.toFixed 2 (startSec keepRange) +:+ "-"
                                   +:+ Js.toFixed 2 (endSec keepRange) +:+ "s"))
                          None None)]
      end
  end.
Proof.
  intros Hkeyed. unfold Service.saveOverride.
  rewrite (bind_returns _ _ _ _ _ (getJob_run jobId st)).
  destruct (jobs st !! jobId) as [job|] eqn:Hlookup.
  - destruct (Override.validateOverrideRange job keepRange) as [[]|e].
    2: { apply (bind_throws _ _ st e st). reflexivity. }
    rewrite (bind_returns _ _ st tt st) by reflexivity.
    rewrite (bind_returns _ _ _ _ _
               (updateJob_run E jobId _ st job Hlookup (Hkeyed _ _ Hlookup))).
    rewrite (bind_returns _ _ _ _ _ (emitAndPersistEvent_exact E _ _ _ _)).
    unfold ret.
    eexists _, _. split; [reflexivity|].
    cbn [jobs jobEvents calls]. rewrite lookup_insert_eq.
    split; [reflexivity|]. split.
    { intros other Hne. apply lookup_insert_ne. congruence. }
    cbn [Repo.mergePatch Job.overrideKeepRange Job.status Job.decision
         Job.pOverrideKeepRange Job.pStatus Job.pDecision from_option]. unfold id.
    repeat split.
    unfold rowsOf. cbn [jobEvents]. rewrite List.filter_app.
    cbn [List.filter Job.rowJobId]. now rewrite String.eqb_refl.
  - reflexivity.
Qed.

Lemma saveOverride_outcomes_witness :
  (exists updated st',
     Service.saveOverride (Samples.env "8.0" "8.0") "job-1" (mkRange 1 9) Samples.stored
     = (Returns updated, st')
     /\ Job.overrideKeepRange updated = Some (mkRange 1 9)
     /\ Job.status updated = awaiting_review)
  /\ exists message status,
       Service.saveOverride (Samples.env "8.0" "8.0") "job-1" (mkRange 1 8) Samples.stored
       = (Throws (AppError INVALID_OVERRIDE_RANGE message status), Samples.stored).
Proof.
  assert (Hkeyed : keyedById Samples.stored).
  { intros key j. unfold Samples.stored. cbn [jobs].
    destruct (decide ("job-1" = key)) as [<-|Hne].
    - rewrite lookup_singleton_eq. now intros [= <-].
    - rewrite lookup_singleton_ne by assumption. discriminate. }
  split.
  - pose proof (saveOverride_outcomes (Samples.env "8.0" "8.0") Samples.stored "job-1"
                  (mkRange 1 9) Hkeyed) as H.
    unfold Samples.stored in H at 1. cbn [jobs] in H. rewrite lookup_singleton_eq in H.
    destruct H as (updated & st' & Hrun & _ & _ & Ho & Hs & _).
    exists updated, st'. repeat split; assumption.
  - pose proof (saveOverride_outcomes (Samples.env "8.0" "8.0") Samples.stored "job-1"
                  (mkRange 1 8) Hkeyed) as H.
    unfold Samples.stored in H at 1. cbn [jobs] in H. rewrite lookup_singleton_eq in H.
    eexists _, _. exact H.
Defined.

Lemma keepExtChars_allowed s : allChars extChar (Service.keepExtChars s) = true.
Proof.
  induction s as [|c s IH]; [reflexivity|]. cbn [Service.keepExtChars].
  destruct ((97 <=? nat_of_ascii c) && (nat_of_ascii c <=? 122)
            || (48 <=? nat_of_ascii c) && (nat_of_ascii c <=? 57)
            || (nat_of_ascii c =? 46))%nat eqn:Hc; [|exact IH].
  cbn [allChars]. unfold extChar at 1. rewrite Hc. exact IH.
Qed.

Lemma keepExtChars_length s :
  (String.length (Service.keepExtChars s) <= String.length s)%nat.
Proof.
  induction s as [|c s IH]; [reflexivity|]. cbn [Service.keepExtChars].
  destruct (_ || _)%bool; cbn [String.length]; lia.
Qed.

(** X26: the extension that [sanitizeExt] returns is either the fallback it
    was given or a string of one to ten characters, each of them a lower
    case letter, a digit or a dot: what is left of the lower-cased
    extension of the file name once every other character is removed. *)
Theorem sanitizeExt_is_safe (P : Platform) (fileName : option string) (fallback : string) :
  Service.sanitizeExt P fileName fallback = fallback
  \/ (allChars extChar (Service.sanitizeExt P fileName fallback) = true
      /\ (1 <= String.length (Service.sanitizeExt P fileName fallback) <= 10)%nat
      /\ exists name,
           fileName = Some name
           /\ Service.sanitizeExt P fileName fallback
              = Service.keepExtChars (toLowerCase P (pathExtname P name))).
Proof.
  unfold Service.sanitizeExt.
  destruct fileName as [[|c name]|]; [now left | | now left].
  set (ext := toLowerCase P (pathExtname P (String c name))).
  destruct (String.eqb ext "" || (10 <? String.length ext)%nat) eqn:Hbad; [now left|].
  apply orb_false_iff in Hbad. destruct Hbad as [_ Hlen]. apply Nat.ltb_ge in Hlen.
  pose proof (keepExtChars_allowed ext) as Hallowed.
  pose proof (keepExtChars_length ext) as Hshort.
  destruct (Service.keepExtChars ext) as [|x kept] eqn:Hkept; [now left|].
  right. cbn [orElse]. split; [exact Hallowed|]. split.
  - cbn [String.length] in *. lia.
  - exists (String c name). split; [reflexivity|]. symmetry. exact Hkept.
Qed.

(** [createJob] from the point where the uploads are on disk. *)
Lemma createJob_from_upload P E input st :
  Service.createJob P E input st
  = (videoDurationSec <-
       Media.probeDurationSeconds P E
         (uploadVideoPath P (uuidAnswer E (calls st)) input) ;;
     targetDurationSec <-
       match uploadAudioPath P (uuidAnswer E (calls st)) input with
       | Some audioPath =>
           if Js.truthy (uploadAudioPath P (uuidAnswer E (calls st)) input)
           then Media.probeDurationSeconds P E audioPath
           else ret videoDurationSec
       | None => ret videoDurationSec
       end ;;
     createdAt <- nowIso E ;;
     job <- Repo.insertJob (uuidAnswer E (calls st)) queued
              (uploadVideoPath P (uuidAnswer E (calls st)) input)
              (uploadAudioPath P (uuidAnswer E (calls st)) input)
              videoDurationSec targetDurationSec (videoDurationSec - targetDurationSec)
              createdAt createdAt ;;
     Service.emitAndPersistEvent E (uuidAnswer E (calls st)) "status"
       (Job.mkPayload (Some queued) (Some "Job accepted and queued.") None None) ;;;
     if Js.truthy (uploadAudioPath P (uuidAnswer E (calls st)) input)
        && Js.leb (videoDurationSec - targetDurationSec) 0 then
       job <- Repo.updateJob E (uuidAnswer E (calls st))
                (Job.mkPatch (Some failed) None None None
                   (Some (Some AUDIO_LONGER_THAN_VIDEO))
                   (Some (Some "Replacement audio is longer than the source video. V1 only supports trimming excess video."))
                   None) ;;
       Service.emitAndPersistEvent E (uuidAnswer E (calls st)) "error"
         (Job.mkPayload None (Job.errorMessage job) None
            (Some AUDIO_LONGER_THAN_VIDEO)) ;;;
       ret job
     else
       Queue.push (jobConcurrency P) (AnalysisTask (uuidAnswer E (calls st))) ;;;
       ret job)
    (afterUpload P E input st).
Proof.
  set (jobId := uuidAnswer E (calls st)).
  unfold Service.createJob.
  rewrite (bind_returns _ _ _ _ _ (uuidv4_run E st)). fold jobId.
  rewrite (bind_returns _ _ _ _ _ (mkdirSync_run _ _)).
  rewrite (bind_returns _ _ _ _ _ (mkdirSync_run _ _)).
  rewrite (bind_returns _ _ _ _ _ (mkdirSync_run _ _)).
  rewrite (bind_returns _ _ _ _ _ (writeFileSync_run _ _ _)).
  rewrite !withCalls_withCalls. cbn [app].
  fold (uploadVideoPath P jobId input).
  match goal with
  | |- bind ?c _ ?s = _ =>
      assert (Haudio : c s = (Returns (uploadAudioPath P jobId input),
                              afterUpload P E input st))
  end.
  { unfold afterUpload, uploadAudioPath. fold jobId.
    destruct (Service.replacementAudioBuffer input) as [buffer|]; [|reflexivity].
    destruct (Js.truthy (Service.replacementAudioOriginalName input)); [|reflexivity].
    rewrite (bind_returns _ _ _ _ _ (writeFileSync_run _ _ _)).
    rewrite withCalls_withCalls. reflexivity. }
  rewrite (bind_returns _ _ _ _ _ Haudio). reflexivity.
Qed.

Lemma afterUpload_frame P E input st :
  exists cs, afterUpload P E input st = withCalls st cs /\ invoked cs = [].
Proof.
  unfold afterUpload. eexists. split; [reflexivity|].
  destruct (uploadAudioPath P _ input); reflexivity.
Qed.

Lemma probeDurationSeconds_positive P E file st v st' :
  Media.probeDurationSeconds P E file st = (Returns v, st') -> 0 < v.
Proof.
  rewrite MediaLaws.probeDurationSeconds_run.
  destruct (negb (existsSyncAnswer E (calls st) file)); [discriminate|].
  destruct (finish _) as [c|message]; [|discriminate].
  cbv zeta. destruct (negb (default 1 c =? 0)%Z); [discriminate|].
  destruct (parseNumber P _) as [value|]; [|discriminate].
  destruct (Js.leb value 0) eqn:Hle; [discriminate|].
  apply leb_false in Hle. now intros [= <- _].
Qed.

Lemma insertJob_cases id status videoPath audio v t delta createdAt updatedAt st :
  Repo.insertJob id status videoPath audio v t delta createdAt updatedAt st
  = match jobs st !! id with
    | Some _ => (Throws (PlainError "UNIQUE constraint failed: jobs.id"), st)
    | None =>
        (Returns (Job.mkJob id status videoPath audio None v t delta None None None None
                    None createdAt updatedAt),
         mkState
           (<[ id := Job.mkJob id status videoPath audio None v t delta None None None
                       None None createdAt updatedAt ]> (jobs st))
           (jobEvents st) (clients st) (responses st) (tasks st) (running st) (calls st))
    end.
Proof.
  destruct (jobs st !! id) eqn:Hlookup.
  - unfold Repo.insertJob, bind, get. rewrite Hlookup. reflexivity.
  - apply insertJob_run. exact Hlookup.
Qed.

(** X27: the job that [createJob] returns is stored under the identifier
    drawn for it, which was free: the stored row describes the same upload
    as the returned record (same identifier, paths, durations and creation
    stamp), and it is the returned record itself when the job is failed (a
    queued job is handed to the queue, which may start its analysis before
    [createJob] returns); no other row is touched.  The durations are
    sound: the video and the target duration are positive, the target is
    the duration of the video when there is no replacement audio, and
    [deltaSec] is positive exactly when the video is longer than the
    target.  The job is failed exactly when there is replacement audio that
    is not shorter than the video, and queued otherwise. *)
Theorem createJob_returns_stored_job
    (P : Platform) (E : Env) (input : Service.UploadInput) (st st' : State)
    (job : Job.JobRecord) :
  Service.createJob P E input st = (Returns job, st') ->
  jobs st !! uuidAnswer E (calls st) = None
  /\ Job.id job = uuidAnswer E (calls st)
  /\ (exists row, jobs st' !! Job.id job = Some row /\ sameUpload row job)
  /\ (Job.status job = failed -> jobs st' !! Job.id job = Some job)
  /\ (forall other, other <> Job.id job -> jobs st' !! other = jobs st !! other)
  /\ 0 < Job.videoDurationSec job
  /\ 0 < Job.targetDurationSec job
  /\ (Job.deltaSec job <= 0 <-> Job.videoDurationSec job <= Job.targetDurationSec job)
  /\ (Js.truthy (Job.replacementAudioPath job) = false ->
      Job.targetDurationSec job = Job.videoDurationSec job)
  /\ Job.status job
     = (if Js.truthy (Job.replacementAudioPath job) && Js.leb (Job.deltaSec job) 0
        then failed else queued).
Proof.
  rewrite createJob_from_upload.
  set (jobId := uuidAnswer E (calls st)).
  unfold bind at 1.
  destruct (Media.probeDurationSeconds P E _ _) as [[v|e] sV] eqn:Hv; [|discriminate].
  pose proof (probeDurationSeconds_positive _ _ _ _ _ _ Hv) as Hvpos.
  unfold bind at 1.
  destruct (match uploadAudioPath P jobId input with
            | Some audioPath =>
                if Js.truthy (uploadAudioPath P jobId input)
                then Media.probeDurationSeconds P E audioPath
                else ret v
            | None => ret v
            end sV) as [[t|e] sT] eqn:Ht; [|discriminate].
  assert (Htpos : 0 < t /\ (Js.truthy (uploadAudioPath P jobId input) = false -> t = v)).
  { destruct (uploadAudioPath P jobId input) as [audioPath|].
    - destruct (Js.truthy (Some audioPath)).
      + split; [|discriminate]. exact (probeDurationSeconds_positive _ _ _ _ _ _ Ht).
      + injection Ht as <- _. split; [assumption | reflexivity].
    - injection Ht as <- _. split; [assumption | reflexivity]. }
  destruct Htpos as [Htpos Hsame].
  rewrite (bind_returns _ _ _ _ _ (nowIso_run E sT)).
  unfold bind at 1. rewrite insertJob_cases.
  cbn [withCalls jobs].
  destruct (jobs sT !! jobId) as [existing|] eqn:Hfresh; [discriminate|].
  assert (Hjobs : jobs sT = jobs st).
  { destruct (afterUpload_frame P E input st) as (cs0 & Hup & _).
    destruct (SysFacts.probeDurationSeconds_returns _ _ _ _ _ _ Hv) as (cs1 & -> & _).
    destruct (uploadAudioPath P jobId input) as [audioPath|].
    - destruct (Js.truthy (Some audioPath)).
      + destruct (SysFacts.probeDurationSeconds_returns _ _ _ _ _ _ Ht) as (cs2 & -> & _).
        rewrite Hup. reflexivity.
      + injection Ht as _ <-. rewrite Hup. reflexivity.
    - injection Ht as _ <-. rewrite Hup. reflexivity. }
  rewrite (bind_returns _ _ _ _ _ (emitAndPersistEvent_exact E _ _ _ _)).
  cbn [jobs jobEvents clients responses tasks running calls].
  set (job0 := Job.mkJob _ _ _ _ _ _ _ _ _ _ _ _ _ _ _).
  destruct (Js.truthy (uploadAudioPath P jobId input) && Js.leb (v - t) 0) eqn:Hfail.
  - erewrite bind_returns
      by (apply updateJob_run with (current := job0);
          [cbn [jobs]; apply lookup_insert_eq | reflexivity]).
    rewrite (bind_returns _ _ _ _ _ (emitAndPersistEvent_exact E _ _ _ _)).
    unfold ret. intros [= <- <-].
    cbn [Repo.mergePatch Job.id Job.status Job.replacementAudioPath
         Job.videoDurationSec Job.targetDurationSec Job.deltaSec Job.pStatus
         from_option job0 jobs].
    unfold id. rewrite Hfail, <- Hjobs.
    split; [assumption|]. split; [reflexivity|].
    split; [eexists; split; [apply lookup_insert_eq | repeat split]|].
    split; [intros _; apply lookup_insert_eq|].
    split; [intros other Hne; rewrite !lookup_insert_ne by congruence; reflexivity|].
    split; [assumption|]. split; [assumption|].
    split; [split; lra|]. split; [assumption | reflexivity].
  - destruct (push_run (jobConcurrency P) (AnalysisTask jobId)
                {| jobs := <[jobId:=job0]> (jobs sT);
                   jobEvents :=
                     jobEvents sT
                     ++ [Job.mkRow (S (length (jobEvents sT))) jobId
                           (dateAnswer E (calls sT ++ [NewDate])) "status"
                           (Job.mkPayload (Some queued) (Some "Job accepted and queued.")
                              None None)];
                   clients := clients sT;
                   responses :=
                     sendAll (elements (default ∅ (clients sT !! jobId)))
                       (Data (Job.mkEvent (Service.eventType "status")
                                (dateAnswer E ((calls sT ++ [NewDate]) ++ [NewDate]))
                                (Job.mkPayload (Some queued)
                                   (Some "Job accepted and queued.") None None)))
                       (responses sT);
                   tasks := tasks sT;
                   running := running sT;
                   calls := (calls sT ++ [NewDate]) ++ [NewDate; NewDate] |})
      as (st2 & Hpush & Hj2 & _).
    rewrite (bind_returns _ _ _ _ _ Hpush). unfold ret. intros [= <- <-].
    rewrite Hj2.
    cbn [Job.id Job.status Job.replacementAudioPath Job.videoDurationSec
         Job.targetDurationSec Job.deltaSec job0 jobs].
    rewrite Hfail, <- Hjobs.
    split; [assumption|]. split; [reflexivity|].
    split; [eexists; split; [apply lookup_insert_eq | repeat split]|].
    split; [intros _; apply lookup_insert_eq|].
    split; [intros other Hne; rewrite lookup_insert_ne by congruence; reflexivity|].
    split; [assumption|]. split; [assumption|].
    split; [split; lra|]. split; [assumption | reflexivity].
Qed.

Lemma createJob_returns_stored_job_witness :
  exists job st',
    Service.createJob Samples.platform (Samples.env "8.0" "") (Samples.upload true)
      Samples.emptyState = (Returns job, st')
    /\ Job.status job = queued
    /\ 0 < Job.targetDurationSec job
    /\ exists row, jobs st' !! Job.id job = Some row /\ sameUpload row job.
Proof.
  eexists _, _. split; [vm_compute; reflexivity|].
  edestruct (createJob_returns_stored_job Samples.platform (Samples.env "8.0" "")
               (Samples.upload true) Samples.emptyState)
    as (_ & _ & Hstored & _ & _ & _ & Ht & _).
  - vm_compute. reflexivity.
  - split; [reflexivity|]. split; assumption.
Defined.

Lemma afterUpload_calls P E input st :
  exists cs,
    afterUpload P E input st = withCalls st cs
    /\ invoked cs = []
    /\ In (WriteFileSync (uploadVideoPath P (uuidAnswer E (calls st)) input)
             (Service.videoBuffer input)) cs.
Proof.
  unfold afterUpload. eexists. split; [reflexivity|]. split.
  - destruct (uploadAudioPath P _ input); reflexivity.
  - cbn. auto 10.
Qed.

(** X28: when a probe fails in [createJob] (the probe of the uploaded
    video, or the probe of the replacement audio after the video has been
    probed), [createJob] fails with the error of that probe, a plain error
    and not an [AppError], and nothing of the job exists but its files: no
    row has been added to either table, no observer has been written to
    and no task has been submitted; the upload has been written to disk and
    stays there. *)
Theorem createJob_failure_stores_nothing
    (P : Platform) (E : Env) (input : Service.UploadInput) (st st' : State) (e : Thrown) :
  (Media.probeDurationSeconds P E (uploadVideoPath P (uuidAnswer E (calls st)) input)
     (afterUpload P E input st) = (Throws e, st')
   \/ exists v sV audioPath,
        Media.probeDurationSeconds P E
          (uploadVideoPath P (uuidAnswer E (calls st)) input)
          (afterUpload P E input st) = (Returns v, sV)
        /\ uploadAudioPath P (uuidAnswer E (calls st)) input = Some audioPath
        /\ Js.truthy (Some audioPath) = true
        /\ Media.probeDurationSeconds P E audioPath sV = (Throws e, st')) ->
  Service.createJob P E input st = (Throws e, st')
  /\ thrownCode e = None
  /\ exists cs,
       st' = withCalls st cs
       /\ invoked cs = []
       /\ In (WriteFileSync (uploadVideoPath P (uuidAnswer E (calls st)) input)
                (Service.videoBuffer input)) cs.
Proof.
  intros Hprobe. rewrite createJob_from_upload.
  set (jobId := uuidAnswer E (calls st)) in *.
  destruct (afterUpload_calls P E input st) as (cs0 & Hup & Hi0 & Hwritten).
  fold jobId in Hwritten.
  destruct Hprobe as [Hv|(v & sV & audioPath & Hv & Hpath & Htruthy & Ht)].
  - rewrite (bind_throws _ _ _ _ _ Hv). split; [reflexivity|].
    split; [exact (MediaLaws.probeDurationSeconds_throws _ _ _ _ _ _ Hv)|].
    pose proof (SysFacts.probeDurationSeconds_frame P E (uploadVideoPath P jobId input)
                  (afterUpload P E input st)) as (cs1 & Hs1 & Hi1).
    rewrite Hv in Hs1. cbn [snd] in Hs1.
    rewrite Hs1, Hup, withCalls_withCalls.
    eexists. split; [reflexivity|]. split.
    + now rewrite invoked_app, Hi0, Hi1.
    + apply in_or_app. now left.
  - rewrite (bind_returns _ _ _ _ _ Hv).
    assert (Htarget :
      match uploadAudioPath P jobId input with
      | Some audioPath =>
          if Js.truthy (uploadAudioPath P jobId input)
          then Media.probeDurationSeconds P E audioPath
          else ret v
      | None => ret v
      end sV = (Throws e, st')).
    { rewrite Hpath, Htruthy. exact Ht. }
    rewrite (bind_throws _ _ _ _ _ Htarget). split; [reflexivity|].
    split; [exact (MediaLaws.probeDurationSeconds_throws _ _ _ _ _ _ Ht)|].
    pose proof (SysFacts.probeDurationSeconds_frame P E (uploadVideoPath P jobId input)
                  (afterUpload P E input st)) as (cs1 & Hs1 & Hi1).
    rewrite Hv in Hs1. cbn [snd] in Hs1.
    pose proof (SysFacts.probeDurationSeconds_frame P E audioPath sV) as (cs2 & Hs2 & Hi2).
    rewrite Ht in Hs2. cbn [snd] in Hs2.
    rewrite Hs2, Hs1, Hup, !withCalls_withCalls.
    eexists. split; [reflexivity|]. split.
    + now rewrite !invoked_app, Hi0, Hi1, Hi2.
    + apply in_or_app. now left.
Qed.

Lemma createJob_failure_stores_nothing_witness :
  exists e st',
    Service.createJob Samples.platform Samples.failingTools (Samples.upload false)
      Samples.stored = (Throws e, st')
    /\ thrownCode e = None
    /\ jobs st' = jobs Samples.stored
    /\ jobEvents st' = jobEvents Samples.stored.
Proof.
  edestruct (createJob_failure_stores_nothing Samples.platform Samples.failingTools
               (Samples.upload false) Samples.stored)
    as (Hrun & Hplain & cs & Hst & _).
  - left. vm_compute. reflexivity.
  - eexists _, _. split; [exact Hrun|]. split; [exact Hplain|]. split; reflexivity.
Defined.

End ServiceLaws.

(** ** Observers that have left *)

Module StreamLaws.
Import Sys Spec SysFacts StreamFacts Timeline.

(** A turn that does not use the response object [res] leaves it detached
    and its output untouched. *)
Lemma turn_detached E res t st :
  usesResponse res t = false ->
  detached res st ->
  exists st',
    turn E t st = (Returns tt, st')
    /\ detached res st'
    /\ responses st' !! res = responses st !! res.
Proof.
  intros Huse Hdet.
  destruct t as [j type payload|j status message|j r|j r]; cbn [turn usesResponse] in *.
  - destruct (emit_run E j type payload st res)
      as (st' & row & event & Hrun & _ & Hc & _ & _ & _ & _ & Hr).
    exists st'. split; [exact Hrun|]. split.
    + intros j'. unfold observers. rewrite Hc. apply Hdet.
    + destruct (decide (res ∈ observers j st)) as [Hin|]; [|exact Hr].
      exfalso. exact (Hdet j Hin).
  - destruct (broadcast_run E j status message st res)
      as (st' & event & Hrun & _ & Hc & _ & _ & Hr).
    exists st'. split; [exact Hrun|]. split.
    + intros j'. unfold observers. rewrite Hc. apply Hdet.
    + destruct (decide (res ∈ observers j st)) as [Hin|]; [|exact Hr].
      exfalso. exact (Hdet j Hin).
  - apply Nat.eqb_neq in Huse.
    destruct (attach_other_run j r st res Huse) as (st' & Hrun & _ & _ & Hr & Ho).
    exists st'. split; [exact Hrun|]. split; [|exact Hr].
    intros j'. destruct (Ho j') as [->|[_ ->]]; [apply Hdet|].
    rewrite elem_of_union, elem_of_singleton.
    intros [Hin|]; [exact (Hdet j' Hin) | congruence].
  - apply Nat.eqb_neq in Huse.
    destruct (close_other_run j r st res Huse) as (st' & Hrun & _ & _ & Hr & Ho).
    exists st'. split; [exact Hrun|]. split; [|exact Hr].
    intros j'. destruct (Ho j') as [->|[_ ->]]; [apply Hdet|].
    rewrite elem_of_difference. intros [Hin _]. exact (Hdet j' Hin).
Qed.

Lemma run_detached E res ts : forall st,
  forallb (fun t => negb (usesResponse res t)) ts = true ->
  detached res st ->
  exists st',
    run E ts st = (Returns tt, st')
    /\ detached res st'
    /\ responses st' !! res = responses st !! res.
Proof.
  induction ts as [|t ts IH]; intros st Huse Hdet.
  - exists st. repeat split. exact Hdet.
  - cbn [forallb] in Huse. apply andb_true_iff in Huse. destruct Huse as [Ht Hts].
    apply negb_true_iff in Ht.
    destruct (turn_detached E res t st Ht Hdet) as (st1 & Hrun1 & Hdet1 & Hr1).
    destruct (IH st1 Hts Hdet1) as (st2 & Hrun2 & Hdet2 & Hr2).
    exists st2. split.
    + unfold run in *. cbn [forEach]. rewrite (bind_returns _ _ _ _ _ Hrun1). exact Hrun2.
    + split; [exact Hdet2 | congruence].
Qed.

(** X29: an observer whose connection has closed receives nothing more.
    After the close listener has run for an attached response, the response
    is registered with no job and its output ends with the closing of the
    stream, whatever is emitted, broadcast, attached or closed afterwards
    for this job or any other. *)
Theorem closed_observer_receives_nothing
    (E : Env) (jobId : string) (res : nat) (st : State) (ts : list Turn)
    (out : list Sent) (rows : list Job.JobEventRow) :
  tracks jobId res st out rows ->
  forallb (fun t => negb (usesResponse res t)) ts = true ->
  exists st',
    run E (Close jobId res :: ts) st = (Returns tt, st')
    /\ responses st' !! res = Some (out ++ [End])
    /\ detached res st'.
Proof.
  intros (Hin & Hout & Hres & _) Huse.
  destruct (removeClient_run jobId res st) as (st1 & Hrun1 & _ & _ & Hr1 & Ho1).
  destruct (send_lookup res End st1 res) as (st2 & Hrun2 & _ & _ & Hc2 & Hr2).
  assert (Hdet : detached res st2).
  { intros j. unfold observers. rewrite Hc2. fold (observers j st1). rewrite Ho1.
    destruct (decide (jobId = j)) as [<-|Hne].
    - rewrite elem_of_difference, elem_of_singleton. intros [_ H]. now apply H.
    - apply Hout. congruence. }
  destruct (run_detached E res ts st2 Huse Hdet) as (st3 & Hrun3 & Hdet3 & Hr3).
  exists st3. split; [|split; [|exact Hdet3]].
  - unfold run in *. cbn [forEach turn]. unfold Server.onClose.
    unfold bind at 1. unfold bind at 1. rewrite Hrun1, Hrun2. exact Hrun3.
  - rewrite Hr3, Hr2. destruct (decide (res = res)); [|congruence].
    rewrite Hr1, Hres. reflexivity.
Qed.

Lemma closed_observer_receives_nothing_witness :
  exists st',
    run (Samples.env "8.0" "8.0")
      [ Close "job-1" 7%nat;
        Emit "job-1" "log" (Job.mkPayload None (Some "Transcribing audio.") None None) ]
      Samples.observed
    = (Returns tt, st')
    /\ responses st' !! 7%nat = Some [Head 200; End].
Proof.
  assert (Htracks : tracks "job-1" 7%nat Samples.observed [Head 200] []).
  { unfold tracks, observers, Samples.observed. cbn [clients responses].
    split; [|split; [|split]].
    - rewrite lookup_singleton_eq. cbn. now apply elem_of_singleton.
    - intros j Hj. rewrite lookup_singleton_ne by congruence. cbn.
      apply not_elem_of_empty.
    - apply lookup_singleton_eq.
    - reflexivity. }
  destruct (closed_observer_receives_nothing (Samples.env "8.0" "8.0") "job-1" 7%nat
              Samples.observed
              [Emit "job-1" "log"
                 (Job.mkPayload None (Some "Transcribing audio.") None None)]
              [Head 200] [] Htracks eq_refl)
    as (st' & Hrun & Hr & _).
  exists st'. split; assumption.
Defined.

(** X30: asking for the events of a job that does not exist gives one
    answer and no subscription: the handler writes the 404 answer
    JOB_NOT_FOUND to the response, registers it with no job and replays
    nothing, and nothing that happens afterwards is written to it. *)
Theorem unknown_job_gets_only_not_found
    (E : Env) (jobId : string) (res : nat) (st : State) (ts : list Turn) :
  jobs st !! jobId = None ->
  detached res st ->
  forallb (fun t => negb (usesResponse res t)) ts = true ->
  exists st',
    run E (Attach jobId res :: ts) st = (Returns tt, st')
    /\ responses st' !! res
       = Some (default [] (responses st !! res)
               ++ [Json 404 JOB_NOT_FOUND ("Job " +:+ jobId +:+ " not found.")])
    /\ detached res st'.
Proof.
  intros Hnone Hdet Huse.
  destruct (send_lookup res (Json 404 JOB_NOT_FOUND ("Job " +:+ jobId +:+ " not found."))
              st res) as (st1 & Hrun1 & _ & _ & Hc1 & Hr1).
  assert (Hdet1 : detached res st1).
  { intros j. unfold observers. rewrite Hc1. apply Hdet. }
  destruct (run_detached E res ts st1 Huse Hdet1) as (st2 & Hrun2 & Hdet2 & Hr2).
  exists st2. split; [|split; [|exact Hdet2]].
  - unfold run in *. cbn [forEach turn].
    assert (Hattach : Server.getJobEvents jobId res st = (Returns tt, st1)).
    { unfold Server.getJobEvents.
      rewrite (bind_returns _ _ _ _ _ (ServiceLaws.getJob_run jobId st)), Hnone.
      exact Hrun1. }
    rewrite (bind_returns _ _ _ _ _ Hattach). exact Hrun2.
  - rewrite Hr2, Hr1. destruct (decide (res = res)); [reflexivity | congruence].
Qed.

Lemma unknown_job_gets_only_not_found_witness :
  exists st',
    run (Samples.env "8.0" "8.0")
      [ Attach "job-9" 8%nat;
        Emit "job-9" "log" (Job.mkPayload None (Some "Transcribing audio.") None None) ]
      Samples.observed
    = (Returns tt, st')
    /\ responses st' !! 8%nat = Some [Json 404 JOB_NOT_FOUND "Job job-9 not found."].
Proof.
  assert (Hdet : detached 8%nat Samples.observed).
  { intros j. unfold observers, Samples.observed. cbn [clients].
    destruct (decide ("job-1" = j)) as [<-|Hne].
    - rewrite lookup_singleton_eq. cbn. rewrite elem_of_singleton. discriminate.
    - rewrite lookup_singleton_ne by assumption. cbn. apply not_elem_of_empty. }
  destruct (unknown_job_gets_only_not_found (Samples.env "8.0" "8.0") "job-9" 8%nat
              Samples.observed
              [Emit "job-9" "log"
                 (Job.mkPayload None (Some "Transcribing audio.") None None)]
              eq_refl Hdet eq_refl)
    as (st' & Hrun & Hr & _).
  exists st'. split; [exact Hrun | exact Hr].
Defined.

End StreamLaws.

(** ** Rounding *)

Module Binary64Facts.
Import Binary64.

(** *** Powers of two *)

Lemma pow2_power e : pow2 e == 2 ^ e.
Proof.
  destruct e as [|p|p]; cbn [pow2].
  - reflexivity.
  - rewrite <- (Zpower_Qpower 2 (Zpos p)) by lia. now rewrite Pos2Z.inj_pow.
  - change (Z.neg p) with (- Z.pos p)%Z.
    rewrite Qpower_opp, <- (Zpower_Qpower 2 (Zpos p)) by lia.
    rewrite <- Pos2Z.inj_pow. reflexivity.
Qed.

Lemma pow2_positive e : 0 < pow2 e.
Proof. destruct e; reflexivity. Qed.

Lemma pow2_plus a b : pow2 (a + b) == pow2 a * pow2 b.
Proof. rewrite !pow2_power. apply Qpower_plus. discriminate. Qed.

Lemma pow2_le a b : (a <= b)%Z -> pow2 a <= pow2 b.
Proof. intros H. rewrite !pow2_power. apply Qpower_le_compat_l; [assumption|discriminate]. Qed.

Lemma pow2_lt a b : (a < b)%Z -> pow2 a < pow2 b.
Proof. intros H. rewrite !pow2_power. apply Qpower_lt_compat_l; [assumption|reflexivity]. Qed.

Lemma pow2_lt_inv a b : pow2 a < pow2 b -> (a < b)%Z.
Proof.
  intros H. destruct (Z_lt_le_dec a b) as [|Hle]; [assumption|].
  apply pow2_le in Hle. lra.
Qed.

Lemma pow2_nonneg_exponent a : (0 <= a)%Z -> pow2 a == inject_Z (2 ^ a).
Proof. intros H. rewrite pow2_power. symmetry. now apply Zpower_Qpower. Qed.

(** *** The exponent of a positive number *)

Lemma exponent_spec x : 0 < x -> pow2 (exponent x) <= x /\ x < pow2 (exponent x + 1).
Proof.
  intros Hx. destruct x as [n d].
  assert (Hn : (0 < n)%Z) by (unfold Qlt in Hx; cbn in Hx; lia).
  unfold exponent. cbn [Qnum Qden].
  set (a := Z.log2 n). set (b := Z.log2 (Z.pos d)).
  assert (Ha : (0 <= a)%Z) by apply Z.log2_nonneg.
  assert (Hb : (0 <= b)%Z) by apply Z.log2_nonneg.
  destruct (Z.log2_spec n Hn) as [Hn1 Hn2]. fold a in Hn1, Hn2.
  destruct (Z.log2_spec (Z.pos d) eq_refl) as [Hd1 Hd2]. fold b in Hd1, Hd2.
  rewrite Zle_Qle in Hn1, Hd1. rewrite Zlt_Qlt in Hn2, Hd2.
  rewrite <- pow2_nonneg_exponent in Hn1, Hd1 by lia.
  rewrite <- !pow2_nonneg_exponent in Hn2, Hd2 by lia.
  unfold Z.succ in *.
  pose proof (pow2_positive a) as Hpa. pose proof (pow2_positive b) as Hpb.
  assert (Hx' : n # d == inject_Z n / inject_Z (Z.pos d)) by apply Qmake_Qdiv.
  assert (Hd0 : 0 < inject_Z (Z.pos d)) by reflexivity.
  assert (Hn0 : 0 < inject_Z n) by (change 0 with (inject_Z 0); now rewrite <- Zlt_Qlt).
  destruct (Qle_bool (pow2 (a - b)) (n # d)) eqn:Hc.
  - apply Qle_bool_iff in Hc. split; [assumption|].
    replace (a - b + 1)%Z with ((a + 1) + - b)%Z by lia.
    rewrite Hx'.
    apply Qlt_shift_div_r; [assumption|].
    assert (E : pow2 (a + 1 + - b) * pow2 b == pow2 (a + 1)).
    { rewrite <- pow2_plus. now replace (a + 1 + - b + b)%Z with (a + 1)%Z by lia. }
    pose proof (pow2_positive (a + 1 + - b)) as Hp.
    nra.
  - assert (Hlt : n # d < pow2 (a - b)).
    { destruct (Qlt_le_dec (n # d) (pow2 (a - b))) as [|Hle]; [assumption|].
      apply Qle_bool_iff in Hle. congruence. }
    split; [|now replace (a - b - 1 + 1)%Z with (a - b)%Z by lia].
    rewrite Hx'. apply Qle_shift_div_l; [assumption|].
    assert (E : pow2 (a - b - 1) * pow2 (b + 1) == pow2 a).
    { rewrite <- pow2_plus. now replace (a - b - 1 + (b + 1))%Z with a by lia. }
    pose proof (pow2_positive (a - b - 1)) as Hp.
    nra.
Qed.

Lemma exponent_le x y : 0 < x -> x <= y -> (exponent x <= exponent y)%Z.
Proof.
  intros Hx Hxy.
  destruct (exponent_spec x Hx) as [Hx1 _].
  destruct (exponent_spec y) as [_ Hy2]; [lra|].
  assert (H : pow2 (exponent x) < pow2 (exponent y + 1)) by lra.
  apply pow2_lt_inv in H. lia.
Qed.

(** *** Rounding to an integer *)

Lemma nearestEven_floor y : (Qfloor y <= nearestEven y <= Qfloor y + 1)%Z.
Proof. unfold nearestEven. destruct (Qcompare _ _); [destruct (Z.even _)| |]; lia. Qed.

Lemma nearestEven_above z y : inject_Z z <= y -> (z <= nearestEven y)%Z.
Proof.
  intros H. apply Qfloor_resp_le in H. rewrite Qfloor_Z in H.
  pose proof (nearestEven_floor y). lia.
Qed.

Lemma nearestEven_below z y : y <= inject_Z z -> (nearestEven y <= z)%Z.
Proof.
  intros H. pose proof (Qfloor_le y) as Hf.
  destruct (Z_lt_le_dec (Qfloor y) z) as [Hlt|Hge].
  - pose proof (nearestEven_floor y). lia.
  - assert (Hz : inject_Z z <= inject_Z (Qfloor y)) by now rewrite <- Zle_Qle.
    assert (Hy : y == inject_Z (Qfloor y)).
    { apply Qle_antisym; [|assumption]. now apply Qle_trans with (inject_Z z). }
    assert (Hfz : Qfloor y = z).
    { apply Z.le_antisymm; [|assumption]. rewrite Zle_Qle. now rewrite <- Hy. }
    unfold nearestEven.
    assert (Hc : Qcompare (y - inject_Z (Qfloor y)) (1 # 2) = Lt).
    { apply (proj1 (Qlt_alt _ _)). clear - Hy. revert Hy. generalize (inject_Z (Qfloor y)).
      intros f Hy. lra. }
    rewrite Hc. lia.
Qed.

Lemma nearestEven_le y y' : y <= y' -> (nearestEven y <= nearestEven y')%Z.
Proof.
  intros H. pose proof (Qfloor_resp_le _ _ H) as Hf.
  destruct (Z_lt_le_dec (Qfloor y) (Qfloor y')) as [Hlt|Hge].
  - pose proof (nearestEven_floor y). pose proof (nearestEven_floor y'). lia.
  - assert (E : Qfloor y = Qfloor y') by lia.
    unfold nearestEven. rewrite <- E.
    destruct (Qcompare (y - inject_Z (Qfloor y)) (1 # 2)) eqn:C1;
      destruct (Qcompare (y' - inject_Z (Qfloor y)) (1 # 2)) eqn:C2;
      try (destruct (Z.even (Qfloor y))); try lia;
      exfalso;
      repeat match goal with
             | h : Qcompare _ _ = Eq |- _ => apply Qeq_alt in h
             | h : Qcompare _ _ = Lt |- _ => apply Qlt_alt in h
             | h : Qcompare _ _ = Gt |- _ => apply Qgt_alt in h
             end; lra.
Qed.

Lemma nearestEven_nonneg y : 0 <= y -> (0 <= nearestEven y)%Z.
Proof. intros H. now apply nearestEven_above. Qed.

(** *** Rounding to a double *)

Lemma ulp_positive x : 0 < ulp x.
Proof. apply pow2_positive. Qed.

Lemma Qabs_positive x : 0 < x -> Qabs x = x.
Proof.
  destruct x as [[|n|n] d]; intros H; try reflexivity;
    unfold Qlt in H; cbn in H; lia.
Qed.

Lemma round_positive x :
  0 < x -> round x == inject_Z (nearestEven (x / ulp x)) * ulp x.
Proof.
  intros Hx. unfold round.
  destruct (Qeq_bool x 0) eqn:Hz; [apply Qeq_bool_iff in Hz; lra|].
  assert (Hle : Qle_bool 0 x = true) by (apply Qle_bool_iff; lra).
  rewrite Hle, (Qabs_positive x Hx). apply Qred_correct.
Qed.

Lemma round_zero x : x == 0 -> round x = 0.
Proof. intros H. unfold round. apply Qeq_bool_iff in H. now rewrite H. Qed.

Lemma round_opp x : round (- x) == - round x.
Proof.
  unfold round.
  assert (Habs : Qabs (- x) = Qabs x).
  { destruct x as [[|n|n] d]; reflexivity. }
  rewrite Habs.
  destruct (Qeq_bool x 0) eqn:Hz.
  - apply Qeq_bool_iff in Hz.
    assert (Hz' : Qeq_bool (- x) 0 = true) by (apply Qeq_bool_iff; lra).
    rewrite Hz'. reflexivity.
  - assert (Hz' : Qeq_bool (- x) 0 = false).
    { destruct (Qeq_bool (- x) 0) eqn:H; [|reflexivity].
      apply Qeq_bool_iff in H.
      assert (H0 : x == 0) by lra. apply Qeq_bool_iff in H0. congruence. }
    rewrite Hz'. cbv zeta.
    destruct (Qle_bool 0 x) eqn:Hp.
    + apply Qle_bool_iff in Hp.
      assert (Hn : Qle_bool 0 (- x) = false).
      { destruct (Qle_bool 0 (- x)) eqn:H; [|reflexivity].
        apply Qle_bool_iff in H.
        assert (H0 : x == 0) by lra. apply Qeq_bool_iff in H0. congruence. }
      rewrite Hn. reflexivity.
    + assert (Hn : Qle_bool 0 (- x) = true).
      { apply Qle_bool_iff.
        destruct (Qlt_le_dec x 0) as [|Hge]; [lra|].
        apply Qle_bool_iff in Hge. congruence. }
      rewrite Hn. symmetry. apply Qopp_involutive.
Qed.

(** Rounding keeps the sign. *)
Lemma round_nonneg x : 0 <= x -> 0 <= round x.
Proof.
  intros Hx. destruct (Qlt_le_dec 0 x) as [Hpos|Hle].
  - rewrite (round_positive x Hpos).
    apply Qmult_le_0_compat; [|apply Qlt_le_weak, ulp_positive].
    change 0 with (inject_Z 0). rewrite <- Zle_Qle. apply nearestEven_nonneg.
    apply Qle_shift_div_l; [apply ulp_positive|]. lra.
  - rewrite (round_zero x) by lra. lra.
Qed.

Lemma round_nonpos x : x <= 0 -> round x <= 0.
Proof.
  intros Hx. assert (H : 0 <= round (- x)) by (apply round_nonneg; lra).
  rewrite round_opp in H. lra.
Qed.

Lemma round_le_positive x y : 0 < x -> x <= y -> round x <= round y.
Proof.
  intros Hx Hxy. assert (Hy : 0 < y) by lra.
  rewrite (round_positive x Hx), (round_positive y Hy).
  pose proof (exponent_le x y Hx Hxy) as He.
  destruct (exponent_spec x Hx) as [_ Hx2].
  destruct (exponent_spec y Hy) as [Hy1 _].
  unfold ulp.
  set (ex := Z.max (exponent x) (-1022)). set (ey := Z.max (exponent y) (-1022)).
  pose proof (pow2_positive (ex - 52)) as Hux.
  pose proof (pow2_positive (ey - 52)) as Huy.
  destruct (Z_lt_le_dec ex ey) as [Hlt|Hge].
  - assert (Hey : ey = exponent y) by lia.
    apply Qle_trans with (pow2 (ex + 1)); [|apply Qle_trans with (pow2 ey)].
    + assert (E : pow2 (ex + 1) == inject_Z (2 ^ 53) * pow2 (ex - 52)).
      { rewrite <- (pow2_nonneg_exponent 53) by lia. rewrite <- pow2_plus.
        now replace (53 + (ex - 52))%Z with (ex + 1)%Z by lia. }
      rewrite E. apply Qmult_le_compat_r; [|lra].
      rewrite <- Zle_Qle. apply nearestEven_below.
      apply Qle_shift_div_r; [assumption|]. rewrite <- E.
      apply Qle_trans with (pow2 (exponent x + 1)); [lra|].
      apply pow2_le. lia.
    + apply pow2_le. lia.
    + assert (E : pow2 ey == inject_Z (2 ^ 52) * pow2 (ey - 52)).
      { rewrite <- (pow2_nonneg_exponent 52) by lia. rewrite <- pow2_plus.
        now replace (52 + (ey - 52))%Z with ey by lia. }
      rewrite E. apply Qmult_le_compat_r; [|lra].
      rewrite <- Zle_Qle. apply nearestEven_above.
      apply Qle_shift_div_l; [assumption|]. rewrite <- E, Hey. assumption.
  - assert (E : ex = ey) by lia. rewrite E.
    apply Qmult_le_compat_r; [|lra].
    rewrite <- Zle_Qle. apply nearestEven_le.
    apply Qmult_le_compat_r; [assumption|].
    apply Qlt_le_weak, Qinv_lt_0_compat. assumption.
Qed.

(** Rounding is monotone. *)
Lemma round_le x y : x <= y -> round x <= round y.
Proof.
  intros Hxy.
  destruct (Qlt_le_dec 0 x) as [Hx|Hx].
  - now apply round_le_positive.
  - destruct (Qlt_le_dec y 0) as [Hy|Hy].
    + assert (H : round (- y) <= round (- x)) by (apply round_le_positive; lra).
      rewrite !round_opp in H. lra.
    + pose proof (round_nonpos x Hx). pose proof (round_nonneg y Hy). lra.
Qed.

(** *** The values of doubles *)

Lemma exponent_unique x k : pow2 k <= x -> x < pow2 (k + 1) -> exponent x = k.
Proof.
  intros H1 H2.
  assert (Hx : 0 < x) by (pose proof (pow2_positive k); lra).
  destruct (exponent_spec x Hx) as [E1 E2].
  assert (A : pow2 k < pow2 (exponent x + 1)) by lra.
  assert (B : pow2 (exponent x) < pow2 (k + 1)) by lra.
  apply pow2_lt_inv in A. apply pow2_lt_inv in B. lia.
Qed.

Lemma nearestEven_integer z : nearestEven (inject_Z z) = z.
Proof.
  apply Z.le_antisymm.
  - apply nearestEven_below. apply Qle_refl.
  - apply nearestEven_above. apply Qle_refl.
Qed.

Lemma round_multiple m e :
  (0 < m <= 2 ^ 53)%Z -> (-1022 <= e)%Z ->
  (e = (-1022)%Z \/ (2 ^ 52 <= m)%Z) ->
  round (inject_Z m * pow2 (e - 52)) == inject_Z m * pow2 (e - 52).
Proof.
  intros [Hm0 Hm] He Hnormal.
  set (u := pow2 (e - 52)). set (r := inject_Z m * u).
  pose proof (pow2_positive (e - 52)) as Hu. fold u in Hu.
  assert (Hm0' : 0 < inject_Z m) by (change 0 with (inject_Z 0); now rewrite <- Zlt_Qlt).
  assert (Hr : 0 < r) by (unfold r; nra).
  assert (E52 : pow2 e == inject_Z (2 ^ 52) * u).
  { unfold u. rewrite <- (pow2_nonneg_exponent 52) by lia. rewrite <- pow2_plus.
    now replace (52 + (e - 52))%Z with e by lia. }
  assert (E53 : pow2 (e + 1) == inject_Z (2 ^ 53) * u).
  { unfold u. rewrite <- (pow2_nonneg_exponent 53) by lia. rewrite <- pow2_plus.
    now replace (53 + (e - 52))%Z with (e + 1)%Z by lia. }
  rewrite (round_positive r Hr).
  destruct (Z_lt_le_dec m (2 ^ 53)) as [Hlt|Hge].
  - (* the spacing around [r] is [u] *)
    assert (Hulp : ulp r = u).
    { unfold ulp, u. f_equal. f_equal.
      assert (Hup : r < pow2 (e + 1)).
      { rewrite E53. unfold r. apply Qmult_lt_compat_r; [assumption|].
        now rewrite <- Zlt_Qlt. }
      destruct Hnormal as [->|H52].
      - destruct (exponent_spec r Hr) as [E1 _].
        assert (A : pow2 (exponent r) < pow2 (-1022 + 1)) by lra.
        apply pow2_lt_inv in A. lia.
      - assert (Hlow : pow2 e <= r).
        { rewrite E52. unfold r. apply Qmult_le_compat_r; [|lra].
          now rewrite <- Zle_Qle. }
        rewrite (exponent_unique r e Hlow Hup). lia. }
    rewrite Hulp.
    assert (Hq : r / u == inject_Z m) by (unfold r; field; lra).
    assert (Hn : nearestEven (r / u) = m).
    { apply Z.le_antisymm.
      - apply nearestEven_below. rewrite Hq. apply Qle_refl.
      - apply nearestEven_above. rewrite Hq. apply Qle_refl. }
    rewrite Hn. reflexivity.
  - (* [r] is the power of two that opens the next binade *)
    assert (Hm53 : m = (2 ^ 53)%Z) by lia.
    assert (Hr1 : r == pow2 (e + 1)) by (unfold r; rewrite Hm53, E53; reflexivity).
    assert (Hexp : exponent r = (e + 1)%Z).
    { apply exponent_unique; [rewrite Hr1; apply Qle_refl|].
      rewrite Hr1. apply pow2_lt. lia. }
    assert (Hulp : ulp r == 2 * u).
    { unfold ulp. rewrite Hexp.
      replace (Z.max (e + 1) (-1022) - 52)%Z with (1 + (e - 52))%Z by lia.
      rewrite pow2_plus. reflexivity. }
    assert (Hq : r / ulp r == inject_Z (2 ^ 52)).
    { rewrite Hulp. unfold r. rewrite Hm53.
      change (inject_Z (2 ^ 53)) with (2 * inject_Z (2 ^ 52)). field. lra. }
    assert (Hn : nearestEven (r / ulp r) = (2 ^ 52)%Z).
    { apply Z.le_antisymm.
      - apply nearestEven_below. rewrite Hq. apply Qle_refl.
      - apply nearestEven_above. rewrite Hq. apply Qle_refl. }
    rewrite Hn, Hulp. unfold r. rewrite Hm53.
    change (inject_Z (2 ^ 53)) with (2 * inject_Z (2 ^ 52)). ring.
Qed.

(** Rounding depends on the value only, not on the fraction that
    represents it. *)
Lemma round_proper x y : x == y -> round x == round y.
Proof.
  intros H. apply Qle_antisym; apply round_le; lra.
Qed.

Lemma round_round_positive y : 0 < y -> round (round y) == round y.
Proof.
  intros Hy.
  pose proof (round_positive y Hy) as Hr.
  set (e := Z.max (exponent y) (-1022)) in *.
  assert (Hulp : ulp y = pow2 (e - 52)) by reflexivity.
  rewrite Hulp in Hr.
  set (m := nearestEven (y / pow2 (e - 52))) in *.
  pose proof (pow2_positive (e - 52)) as Hu.
  destruct (exponent_spec y Hy) as [E1 E2].
  assert (Hm0 : (0 <= m)%Z).
  { apply nearestEven_nonneg. apply Qle_shift_div_l; [assumption|]. lra. }
  assert (E53 : pow2 (e + 1) == inject_Z (2 ^ 53) * pow2 (e - 52)).
  { rewrite <- (pow2_nonneg_exponent 53) by lia. rewrite <- pow2_plus.
    now replace (53 + (e - 52))%Z with (e + 1)%Z by lia. }
  assert (Hm53 : (m <= 2 ^ 53)%Z).
  { apply nearestEven_below. apply Qle_shift_div_r; [assumption|]. rewrite <- E53.
    apply Qle_trans with (pow2 (exponent y + 1)); [lra|]. apply pow2_le. lia. }
  destruct (Z.eq_dec m 0) as [Hz|Hnz].
  - rewrite Hz in Hr. assert (H0 : round y == 0) by (rewrite Hr; ring).
    rewrite (round_zero _ H0). lra.
  - rewrite (round_proper _ _ Hr), Hr.
    apply round_multiple; [lia | lia |].
    destruct (Z.eq_dec e (-1022)) as [|Hne]; [now left | right].
    assert (He : e = exponent y) by lia.
    assert (E52 : pow2 e == inject_Z (2 ^ 52) * pow2 (e - 52)).
    { rewrite <- (pow2_nonneg_exponent 52) by lia. rewrite <- pow2_plus.
      now replace (52 + (e - 52))%Z with e by lia. }
    apply nearestEven_above. apply Qle_shift_div_l; [assumption|].
    rewrite <- E52, He. assumption.
Qed.

(** The result of rounding is a double. *)
Lemma round_representable x : representable (round x).
Proof.
  unfold representable.
  destruct (Qlt_le_dec 0 x) as [Hx|Hx]; [now apply round_round_positive|].
  destruct (Qlt_le_dec x 0) as [Hn|Hz].
  - assert (E : round x == - round (- x)) by (rewrite round_opp; ring).
    rewrite (round_proper _ _ E), round_opp, round_round_positive by lra.
    rewrite round_opp. ring.
  - rewrite (round_zero x) by lra. reflexivity.
Qed.

(** A double is a multiple of the least positive double. *)
Lemma representable_multiple x :
  representable x -> exists k, x == inject_Z k * pow2 (-1074).
Proof.
  enough (H : forall y, 0 < y -> representable y ->
                        exists k, y == inject_Z k * pow2 (-1074)).
  { intros Hx. destruct (Qlt_le_dec 0 x) as [Hp|Hp]; [now apply H|].
    destruct (Qlt_le_dec x 0) as [Hn|Hz].
    - destruct (H (- x)) as (k & Hk); [lra | |].
      + unfold representable in *. rewrite round_opp, Hx. reflexivity.
      + exists (- k)%Z. rewrite inject_Z_opp. lra.
    - exists 0%Z. change (inject_Z 0) with 0. rewrite Qmult_0_l. lra. }
  intros y Hy Hrep. unfold representable in Hrep.
  rewrite (round_positive y Hy) in Hrep. unfold ulp in Hrep.
  set (e := Z.max (exponent y) (-1022)) in *.
  exists (nearestEven (y / pow2 (e - 52)) * 2 ^ (e + 1022))%Z.
  rewrite inject_Z_mult, <- (pow2_nonneg_exponent (e + 1022)) by lia.
  rewrite <- Qmult_assoc, <- pow2_plus.
  replace (e + 1022 + -1074)%Z with (e - 52)%Z by lia.
  symmetry. exact Hrep.
Qed.

(** The difference of two doubles rounds to a number of the same sign:
    subtraction does not underflow. *)
Lemma round_sub_sign a b :
  representable a -> representable b -> (round (a - b) <= 0 <-> a <= b).
Proof.
  intros Ha Hb. split; [|intros H; apply round_nonpos; lra].
  intros H. destruct (Qlt_le_dec b a) as [Hlt|]; [exfalso|assumption].
  destruct (representable_multiple a Ha) as (ka & Hka).
  destruct (representable_multiple b Hb) as (kb & Hkb).
  pose proof (pow2_positive (-1074)) as Hu.
  assert (Hk : (kb < ka)%Z).
  { destruct (Z_lt_le_dec kb ka) as [|Hle]; [assumption|exfalso].
    rewrite Zle_Qle in Hle. nra. }
  assert (Hd : pow2 (-1074) <= a - b).
  { assert (H1 : (1 <= ka - kb)%Z) by lia.
    rewrite Zle_Qle in H1. unfold Z.sub in H1.
    rewrite inject_Z_plus, inject_Z_opp in H1.
    change (inject_Z 1) with 1 in H1. nra. }
  apply round_le in Hd.
  assert (Hmin : round (pow2 (-1074)) == pow2 (-1074)).
  { assert (E : pow2 (-1074) == inject_Z 1 * pow2 (-1022 - 52)).
    { change (-1022 - 52)%Z with (-1074)%Z. change (inject_Z 1) with 1. ring. }
    rewrite (round_proper _ _ E).
    rewrite round_multiple by (lia || now left). symmetry. exact E. }
  lra.
Qed.

End Binary64Facts.

(** ** The computations in double precision *)

Module RoundedFacts.
Import Range Spec RangeFacts RangeLaws Rounded RoundedSpec.
Local Open Scope double_scope.

(** The literals of the sources are positive. *)
Lemma literals_positive :
  0 < SPEECH_PADDING_SEC /\ 0 < OVERLAP_TOLERANCE_SEC /\ 0 < num 0.01
  /\ 0 < num 0.25 /\ 0.001 <= num 0.001.
Proof. repeat split; vm_compute; congruence. Qed.

Lemma acceptable_as_computed input candidate :
  acceptable input candidate =
  negb (Js.gtb (overlapWithRanges (Engine.trimRanges candidate) (protectedOf input))
          OVERLAP_TOLERANCE_SEC)
  && negb (negb (Engine.withinDuration (Engine.candKeepRange candidate)
                   (Engine.videoDurationSec input))).
Proof.
  unfold acceptable, Js.gtb, Js.ltb, Js.leb. now rewrite !negb_involutive.
Qed.

(** *** The loop over the candidates *)

Lemma tryCandidates_none input tn candidates :
  existsb (acceptable input) candidates = false ->
  tryCandidates input tn (protectedOf input) candidates = None.
Proof.
  induction candidates as [|c rest IH]; simpl; [reflexivity|].
  intros H. apply orb_false_iff in H as [Hc Hrest].
  rewrite acceptable_as_computed in Hc.
  destruct (Js.gtb _ _); [now apply IH|].
  simpl in Hc. destruct (negb (Engine.withinDuration _ _)); [now apply IH | discriminate].
Qed.

Lemma tryCandidates_none_refused input tn candidates :
  tryCandidates input tn (protectedOf input) candidates = None ->
  existsb (acceptable input) candidates = false.
Proof.
  induction candidates as [|c rest IH]; [reflexivity|].
  cbn [tryCandidates existsb]. rewrite acceptable_as_computed.
  destruct (Js.gtb _ OVERLAP_TOLERANCE_SEC); cbn [negb andb orb]; [exact IH|].
  destruct (Engine.withinDuration _ _); cbn [negb orb]; [discriminate | exact IH].
Qed.

Lemma tryCandidates_find input tn candidates c :
  List.find (acceptable input) candidates = Some c ->
  exists d,
    tryCandidates input tn (protectedOf input) candidates = Some d
    /\ strategy d = Engine.candStrategy c /\ keepRange d = Engine.candKeepRange c
    /\ protectedRanges d = protectedOf input.
Proof.
  induction candidates as [|x rest IH]; [discriminate|].
  cbn [List.find tryCandidates]. rewrite acceptable_as_computed.
  destruct (Js.gtb _ OVERLAP_TOLERANCE_SEC); cbn [negb andb]; [exact IH|].
  destruct (Engine.withinDuration _ _); cbn [negb]; [|exact IH].
  intros [= <-]. eexists. repeat split.
Qed.

Lemma find_none {A} (f : A -> bool) l :
  List.find f l = None <-> existsb f l = false.
Proof.
  induction l as [|x l IH]; [easy|].
  cbn [List.find existsb]. destruct (f x); [easy | exact IH].
Qed.

Lemma tryCandidates_some input tn prot candidates d :
  tryCandidates input tn prot candidates = Some d -> protectedRanges d = prot.
Proof.
  induction candidates as [|c rest IH]; simpl; [discriminate|].
  destruct (Js.gtb _ _); [assumption|].
  destruct (negb (Engine.withinDuration _ _)); [assumption|].
  intros [= <-]. reflexivity.
Qed.

Lemma computeTrimDecision_protected input d :
  computeTrimDecision input = Returns d -> protectedRanges d = protectedOf input.
Proof.
  unfold computeTrimDecision. destruct (Js.ltb _ _); [discriminate|].
  fold (protectedOf input).
  destruct (tryCandidates _ _ _ _) as [d'|] eqn:Ht.
  - intros [= <-]. eapply tryCandidates_some; eassumption.
  - destruct (Engine.hasReplacementAudio input); [discriminate|].
    intros [= <-]. reflexivity.
Qed.

Lemma not_too_long input :
  ~ excess input < - num 0.01 ->
  Js.ltb (Engine.videoDurationSec input ⊖ Engine.targetDurationSec input) (- num 0.01)
  = false.
Proof. intros H. apply ltb_false. unfold excess in H. lra. Qed.

(** *** The candidates *)

Lemma buildCandidates_none_needed input :
  excess input <= 0 -> candidatesOf input = [untrimmed input].
Proof.
  intros H. unfold candidatesOf, buildCandidates. fold (excess input).
  assert (Hz : Js.leb (Qmax 0 (excess input)) 0 = true)
    by (apply leb_true; pick_minmax; lra).
  rewrite Hz. reflexivity.
Qed.

Lemma buildCandidates_needed input :
  0 < excess input ->
  candidatesOf input
  = (if Js.ltb (Qmax 0 (Engine.targetDurationSec input)) (Engine.videoDurationSec input)
     then [outroCandidate input] else [])
    ++ (if Engine.hasReplacementAudio input then []
        else introCandidate input
             :: (if Js.ltb 0 (introShare input)
                    && Js.ltb (balancedEnd input) (Engine.videoDurationSec input)
                 then [introOutroCandidate input] else [])).
Proof.
  intros H. unfold candidatesOf, buildCandidates. fold (excess input).
  assert (Hz : Js.leb (Qmax 0 (excess input)) 0 = false)
    by (apply leb_false; pick_minmax; lra).
  rewrite Hz. cbv zeta. fold (trimNeeded input).
  fold (introShare input). fold (outroShare input). fold (balancedEnd input).
  assert (Hi : Js.leb (trimNeeded input) 0 = false) by exact Hz.
  destruct (Engine.hasReplacementAudio input);
    cbn [negb app List.filter Engine.hasInvalidRange Engine.trimRanges existsb
         startSec endSec];
    rewrite ?orb_false_r; unfold Js.ltb, Js.leb in *;
    repeat match goal with
           | |- context [Qle_bool ?a ?b] => destruct (Qle_bool a b) eqn:?
           end;
    try reflexivity; congruence.
Qed.

(** *** The fallback *)

Lemma scoreFor_negates_contact analysis range : scoreFor analysis range = - contact analysis range.
Proof.
  unfold scoreFor, contact. f_equal.
  generalize 0. induction (lowInfoRegions analysis) as [|x l IH]; intros a;
    [reflexivity|].
  cbn [fold_left]. rewrite IH. destruct (overlaps range x); reflexivity.
Qed.

Lemma fallbackCandidate_higher_contact input :
  Engine.candKeepRange
    (fallbackCandidate (Engine.videoDurationSec input) (Engine.targetDurationSec input)
       (Engine.analysis input))
  = higherContactKeep input
  /\ Engine.candStrategy
       (fallbackCandidate (Engine.videoDurationSec input)
          (Engine.targetDurationSec input) (Engine.analysis input))
     = fallback_low_density.
Proof.
  split; [|reflexivity].
  unfold fallbackCandidate, higherContactKeep. cbn [Engine.candKeepRange].
  rewrite !scoreFor_negates_contact.
  change {| startSec := Engine.targetDurationSec input;
            endSec := Engine.videoDurationSec input |} with (outroEdge input).
  change {| startSec := 0;
            endSec := Qmax 0 (Engine.videoDurationSec input
                              ⊖ Engine.targetDurationSec input) |}
    with (introEdge input).
  assert (E : Js.leb (- contact (Engine.analysis input) (outroEdge input))
                (- contact (Engine.analysis input) (introEdge input))
              = Js.leb (contact (Engine.analysis input) (introEdge input))
                  (contact (Engine.analysis input) (outroEdge input))).
  { destruct (Js.leb (contact _ (introEdge input)) _) eqn:H; reflect_cmp.
    - apply leb_true. lra.
    - apply leb_false. lra. }
  rewrite E. reflexivity.
Qed.

(** The two ways in which [computeTrimDecision] returns. *)
Lemma computeTrimDecision_cases input :
  ~ excess input < - num 0.01 ->
  (forall c, List.find (acceptable input) (candidatesOf input) = Some c ->
     exists d, computeTrimDecision input = Returns d
               /\ strategy d = Engine.candStrategy c
               /\ keepRange d = Engine.candKeepRange c)
  /\ (existsb (acceptable input) (candidatesOf input) = false ->
      if Engine.hasReplacementAudio input
      then throwsCode (computeTrimDecision input) NO_SYNC_SAFE_CUT
      else exists d, computeTrimDecision input = Returns d
                     /\ strategy d = fallback_low_density
                     /\ keepRange d = higherContactKeep input).
Proof.
  intros Hlen. split.
  - intros c Hc. unfold computeTrimDecision.
    rewrite (not_too_long _ Hlen). fold (protectedOf input). fold (candidatesOf input).
    destruct (tryCandidates_find input
                (Engine.videoDurationSec input ⊖ Engine.targetDurationSec input) _ _ Hc)
      as (d & -> & Hs & Hk & _).
    exists d. repeat split; assumption.
  - intros Hnone. unfold computeTrimDecision.
    rewrite (not_too_long _ Hlen). fold (protectedOf input). fold (candidatesOf input).
    rewrite (tryCandidates_none _ _ _ Hnone).
    destruct (Engine.hasReplacementAudio input).
    + eexists _, _. reflexivity.
    + destruct (fallbackCandidate_higher_contact input) as [Hk Hs].
      eexists. split; [reflexivity|]. cbn [strategy keepRange]. split; assumption.
Qed.

(** *** Claims about [computeTrimDecision] *)

(** C1, as stated, fails: on a 10 s video with an 8 s target, speech at
    both edges and one low-information region over [{6, 10}], every ordered
    candidate is rejected, the intro edge has contact [0] and the outro edge
    a contact of about [1.8]; the fallback trims the outro edge, the one
    with the higher contact, and not the intro edge. *)
Lemma fallback_lower_contact_counterexample :
  Engine.hasReplacementAudio RoundedSamples.spokenEdges = false
  /\ existsb (acceptable RoundedSamples.spokenEdges)
       (candidatesOf RoundedSamples.spokenEdges) = false
  /\ contact (Engine.analysis RoundedSamples.spokenEdges)
       (introEdge RoundedSamples.spokenEdges)
     < contact (Engine.analysis RoundedSamples.spokenEdges)
         (outroEdge RoundedSamples.spokenEdges)
  /\ ~ (exists d, computeTrimDecision RoundedSamples.spokenEdges = Returns d
                  /\ strategy d = fallback_low_density
                  /\ keepRange d = lowerContactKeep RoundedSamples.spokenEdges).
Proof.
  split; [reflexivity|]. split; [vm_compute; reflexivity|].
  split; [vm_compute; reflexivity|].
  intros (d & Hd & _ & Hk). vm_compute in Hd. injection Hd as <-.
  vm_compute in Hk. discriminate.
Qed.

(** C1, amended: for every input without replacement audio that is not
    rejected as AUDIO_LONGER_THAN_VIDEO and in which no ordered candidate is
    accepted, [computeTrimDecision] returns a [fallback_low_density]
    decision that trims the pure intro edge or the pure outro edge with the
    HIGHER aggregate low-information contact (the outro edge on ties).  The
    contact of an edge is the sum over the low-information regions of
    [intersectionLength(trim, region) * region.score], and the two contacts
    are compared as the program computes them: in double precision, region
    after region.  (The witness is an input whose two contacts are equal as
    sums of decimals and differ in the last place as computed.) *)
Theorem computeTrimDecision_fallback_higher_contact (input : Engine.DecisionInput) :
  Engine.hasReplacementAudio input = false ->
  ~ excess input < - num 0.01 ->
  existsb (acceptable input) (candidatesOf input) = false ->
  exists d,
    computeTrimDecision input = Returns d
    /\ strategy d = fallback_low_density
    /\ keepRange d =
         (if Js.leb (contact (Engine.analysis input) (introEdge input))
                    (contact (Engine.analysis input) (outroEdge input))
          then keepWithoutOutro input else keepWithoutIntro input).
Proof.
  intros Hr Hlen Hnone.
  destruct (computeTrimDecision_cases input Hlen) as [_ H].
  specialize (H Hnone). rewrite Hr in H. exact H.
Qed.

Lemma computeTrimDecision_fallback_higher_contact_witness :
  contact (Engine.analysis RoundedSamples.nearTie) (outroEdge RoundedSamples.nearTie)
  < contact (Engine.analysis RoundedSamples.nearTie) (introEdge RoundedSamples.nearTie)
  /\ exists d,
       computeTrimDecision RoundedSamples.nearTie = Returns d
       /\ strategy d = fallback_low_density
       /\ keepRange d = mkRange (num 2.9 ⊖ num 1.83) (num 2.9).
Proof.
  split; [vm_compute; reflexivity|].
  destruct (computeTrimDecision_fallback_higher_contact RoundedSamples.nearTie)
    as (d & Hd & Hs & Hk).
  - reflexivity.
  - intros H. vm_compute in H. discriminate.
  - vm_compute. reflexivity.
  - exists d. split; [exact Hd|]. split; [exact Hs|].
    rewrite Hk. vm_compute. reflexivity.
Defined.

(** C2, as stated, fails in its last clause: with a 10 s video and a
    10.005 s target (no error is raised, the difference is within the 10 ms
    slack) the outro candidate is the one returned and its keep range ends
    at 10, the video duration, not at the target duration. *)
Lemma outro_keep_range_counterexample :
  exists d,
    computeTrimDecision RoundedSamples.slightlyLongTarget = Returns d
    /\ strategy d = outro
    /\ candidatesOf RoundedSamples.slightlyLongTarget
       = [untrimmed RoundedSamples.slightlyLongTarget]
    /\ keepRange d = mkRange 0 10
    /\ ~ endSec (keepRange d) == Engine.targetDurationSec RoundedSamples.slightlyLongTarget.
Proof.
  eexists. split; [vm_compute; reflexivity|]. split; [reflexivity|].
  split; [vm_compute; reflexivity|]. split; [reflexivity|].
  intros H. apply Qeq_bool_iff in H. vm_compute in H. discriminate.
Qed.

(** C2, amended: for every input that is not rejected as
    AUDIO_LONGER_THAN_VIDEO the candidates are generated and tried in the
    fixed order outro, intro, intro_outro, and the first accepted one is
    returned.  In full: when the computed excess
    [videoDurationSec - targetDurationSec] is not positive (for doubles:
    when the video is not longer than the target), the only candidate is an
    outro candidate that trims nothing and keeps [[0, videoDurationSec)].
    When it is positive, the candidates are, in this order: the outro
    candidate, keeping [[0, targetDurationSec)] (generated when its trim
    range [[max(0, targetDurationSec), videoDurationSec)] is not empty);
    and, only without replacement audio, the intro candidate, keeping
    [[trimNeededSec, videoDurationSec)], and the intro_outro candidate
    (generated when both its trim ranges are not empty).  A candidate is
    accepted when the overlap of its trim ranges with the merged protected
    ranges is at most 0.02 s, as computed, and its keep range has positive
    length and lies within [[0, videoDurationSec]].  The first accepted
    candidate of the list gives the strategy and the keep range of the
    decision; when none is accepted the engine fails with NO_SYNC_SAFE_CUT
    (replacement audio) or returns the fallback. *)
Theorem computeTrimDecision_first_accepted (input : Engine.DecisionInput) :
  ~ excess input < - num 0.01 ->
  (Binary64.representable (Engine.videoDurationSec input) ->
   Binary64.representable (Engine.targetDurationSec input) ->
   (excess input <= 0
    <-> Engine.videoDurationSec input <= Engine.targetDurationSec input))
  /\ (excess input <= 0 -> candidatesOf input = [untrimmed input])
  /\ (0 < excess input ->
      candidatesOf input
      = (if Js.ltb (Qmax 0 (Engine.targetDurationSec input))
              (Engine.videoDurationSec input)
         then [outroCandidate input] else [])
        ++ (if Engine.hasReplacementAudio input then []
            else introCandidate input
                 :: (if Js.ltb 0 (introShare input)
                        && Js.ltb (balancedEnd input) (Engine.videoDurationSec input)
                     then [introOutroCandidate input] else [])))
  /\ (forall c,
        List.find (acceptable input) (candidatesOf input) = Some c ->
        exists d,
          computeTrimDecision input = Returns d
          /\ strategy d = Engine.candStrategy c
          /\ keepRange d = Engine.candKeepRange c)
  /\ (List.find (acceptable input) (candidatesOf input) = None ->
      if Engine.hasReplacementAudio input
      then throwsCode (computeTrimDecision input) NO_SYNC_SAFE_CUT
      else exists d, computeTrimDecision input = Returns d
                     /\ strategy d = fallback_low_density).
Proof.
  intros Hlen.
  destruct (computeTrimDecision_cases input Hlen) as [Hsome Hnone].
  split; [apply Binary64Facts.round_sub_sign|].
  split; [apply buildCandidates_none_needed|].
  split; [apply buildCandidates_needed|].
  split; [exact Hsome|].
  intros Hf. apply find_none in Hf. specialize (Hnone Hf).
  destruct (Engine.hasReplacementAudio input); [exact Hnone|].
  destruct Hnone as (d & Hd & Hs & _). exists d. now split.
Qed.

Lemma computeTrimDecision_first_accepted_witness :
  candidatesOf RoundedSamples.spokenEnding
  = [ outroCandidate RoundedSamples.spokenEnding;
      introCandidate RoundedSamples.spokenEnding;
      introOutroCandidate RoundedSamples.spokenEnding ]
  /\ acceptable RoundedSamples.spokenEnding (outroCandidate RoundedSamples.spokenEnding)
     = false
  /\ exists d,
       computeTrimDecision RoundedSamples.spokenEnding = Returns d
       /\ strategy d = intro /\ keepRange d = mkRange 2 10.
Proof.
  assert (Hlen : ~ excess RoundedSamples.spokenEnding < - num 0.01)
    by (intros H; vm_compute in H; discriminate).
  destruct (computeTrimDecision_first_accepted RoundedSamples.spokenEnding Hlen)
    as (_ & _ & Hlist & Hfirst & _).
  split; [|split].
  - rewrite Hlist by reflexivity. vm_compute. reflexivity.
  - vm_compute. reflexivity.
  - destruct (Hfirst (introCandidate RoundedSamples.spokenEnding)) as (d & Hd & Hs & Hk).
    + vm_compute. reflexivity.
    + exists d. split; [exact Hd|]. split; [exact Hs|].
      rewrite Hk. vm_compute. reflexivity.
Defined.

(** With replacement audio, an outro candidate whose trim overlaps the
    protected ranges by more than the tolerance, as computed, leaves no way
    out. *)
Lemma no_sync_safe_cut_as_computed (input : Engine.DecisionInput) :
  Engine.hasReplacementAudio input = true ->
  (exists c, In c (candidatesOf input) /\ Engine.candStrategy c = outro
             /\ OVERLAP_TOLERANCE_SEC
                < overlapWithRanges (Engine.trimRanges c) (protectedOf input)) ->
  throwsCode (computeTrimDecision input) NO_SYNC_SAFE_CUT.
Proof.
  intros Hr (c & Hin & _ & Hov).
  pose proof literals_positive as (_ & Htol & Hslack & _).
  destruct (Qlt_le_dec 0 (excess input)) as [Hpos|Hle].
  - assert (Hlen : ~ excess input < - num 0.01) by lra.
    destruct (computeTrimDecision_cases input Hlen) as [_ Hnone].
    rewrite Hr in Hnone. apply Hnone.
    rewrite (buildCandidates_needed input Hpos), Hr, app_nil_r in Hin |- *.
    destruct (Js.ltb _ _); [|destruct Hin].
    destruct Hin as [<-|[]]. cbn [existsb]. rewrite orb_false_r.
    unfold acceptable. apply andb_false_iff. left. apply leb_false. exact Hov.
  - exfalso. rewrite (buildCandidates_none_needed input Hle) in Hin.
    destruct Hin as [<-|[]]. vm_compute in Hov. discriminate.
Qed.

(** With replacement audio, speech whose padding reaches 20 ms into the
    outro trim as decimals overlaps it by more than the tolerance as
    computed: the candidate is refused. *)
Lemma overlap_at_tolerance_example :
  OVERLAP_TOLERANCE_SEC
  < overlapWithRanges (Engine.trimRanges (outroCandidate RoundedSamples.paddingAtTolerance))
      (protectedOf RoundedSamples.paddingAtTolerance)
  /\ throwsCode (computeTrimDecision RoundedSamples.paddingAtTolerance) NO_SYNC_SAFE_CUT.
Proof.
  split; [vm_compute; reflexivity|]. eexists _, _. vm_compute. reflexivity.
Qed.

(** C8, as stated, fails.  A speech region that starts after the end of the
    video is not confined to the video: for a 10 s video and speech over
    [{11, 12}] the protected range is [{10, 10.65}].  And a region that
    starts one padding after the end of the video expands to the empty
    range [{10, 10}], which [mergeRanges] drops: no returned range contains
    that expanded region. *)
Lemma protectedRanges_cover_counterexample :
  (exists d,
     computeTrimDecision RoundedSamples.speechAfterEnd = Returns d
     /\ protectedRanges d = [mkRange 10 (num 10.65)]
     /\ ~ withinVideo (Engine.videoDurationSec RoundedSamples.speechAfterEnd)
            (protectedRanges d))
  /\ (exists d,
        computeTrimDecision RoundedSamples.speechPastEnd = Returns d
        /\ protectedRanges d = []
        /\ ~ (forall region,
                In region (speechRegions (Engine.analysis RoundedSamples.speechPastEnd)) ->
                exists p, In p (protectedRanges d)
                          /\ contains p
                               (expandRange region SPEECH_PADDING_SEC
                                  (Engine.videoDurationSec RoundedSamples.speechPastEnd)))).
Proof.
  split.
  - eexists. split; [vm_compute; reflexivity|]. split; [vm_compute; reflexivity|].
    intros H. destruct (H _ (or_introl eq_refl)) as [_ Hend].
    vm_compute in Hend. apply Hend. reflexivity.
  - eexists. split; [vm_compute; reflexivity|]. split; [reflexivity|].
    intros H. destruct (H _ (or_introl eq_refl)) as (p & [] & _).
Qed.

Lemma padded_bounds input (region : SpeechRegion) :
  0 <= Engine.videoDurationSec input ->
  0 <= endSec region ->
  startSec region ⊖ SPEECH_PADDING_SEC <= Engine.videoDurationSec input ->
  0 <= startSec (padded input region)
  /\ endSec (padded input region) <= Engine.videoDurationSec input.
Proof.
  intros Hv He Hs.
  assert (Hend : 0 <= endSec region ⊕ SPEECH_PADDING_SEC).
  { apply Binary64Facts.round_nonneg.
    pose proof literals_positive as (Hp & _). lra. }
  unfold padded, normalizeRange, expandRange. cbn [startSec endSec].
  destruct (Js.leb _ _) eqn:Hle; reflect_cmp; cbn [startSec endSec];
    split; pick_minmax; lra.
Qed.

(** C8, amended: for every input on which [computeTrimDecision] returns a
    decision, its [protectedRanges] field is the result of merging the
    speech regions expanded by the padding, where expanding a region moves
    its start back by 0.35 s but not before 0 and its end forward by 0.35 s
    but not after [videoDurationSec] (both computed in double precision).
    The returned ranges have positive length, are sorted by start and lie
    strictly apart (so they do not overlap and no two of them can be
    merged); an instant lies in one of them exactly when it lies in one of
    the expanded regions, each taken in normal order.  When
    [videoDurationSec] is not negative and every speech region ends at or
    after 0 and has a padded start that is not after the end of the video,
    every returned range lies within [[0, videoDurationSec]]; this is so in
    particular when [videoDurationSec] is a double and every speech region
    ends at or after 0 and starts at or before the end of the video. *)
Theorem computeTrimDecision_protectedRanges
    (input : Engine.DecisionInput) (d : TrimDecision) :
  computeTrimDecision input = Returns d ->
  protectedRanges d
  = mergeRanges
      (List.map (fun region : SpeechRegion =>
                   expandRange region (num 0.35) (Engine.videoDurationSec input))
         (speechRegions (Engine.analysis input)))
  /\ separated (protectedRanges d)
  /\ sortedByStart (protectedRanges d)
  /\ nonOverlapping (protectedRanges d)
  /\ (forall x,
        (exists p, In p (protectedRanges d) /\ covers p x)
        <-> (exists region, In region (speechRegions (Engine.analysis input))
                            /\ covers (padded input region) x))
  /\ (0 <= Engine.videoDurationSec input ->
      (forall region, In region (speechRegions (Engine.analysis input)) ->
         0 <= endSec region
         /\ startSec region ⊖ num 0.35 <= Engine.videoDurationSec input) ->
      withinVideo (Engine.videoDurationSec input) (protectedRanges d))
  /\ (Binary64.representable (Engine.videoDurationSec input) ->
      0 <= Engine.videoDurationSec input ->
      (forall region, In region (speechRegions (Engine.analysis input)) ->
         0 <= endSec region /\ startSec region <= Engine.videoDurationSec input) ->
      withinVideo (Engine.videoDurationSec input) (protectedRanges d)).
Proof.
  intros Hd. apply computeTrimDecision_protected in Hd. rewrite Hd.
  split; [reflexivity|].
  unfold protectedOf.
  set (expanded :=
         List.map (fun region : SpeechRegion =>
                     expandRange region SPEECH_PADDING_SEC (Engine.videoDurationSec input))
           (speechRegions (Engine.analysis input))).
  pose proof (mergeRanges_separated expanded) as Hsep.
  split; [exact Hsep|].
  split; [now apply separated_sorted|].
  split; [now apply separated_nonOverlapping|].
  split.
  - intros x. split.
    + intros (p & Hin & Hc). rewrite mergeRanges_unfold in Hin.
      destruct (List.filter _ _) as [|first rest] eqn:Hf; [destruct Hin|].
      destruct (mergeFrom_sound _ _ _ _ Hin Hc) as (r & Hr & Hcr).
      rewrite <- Hf in Hr. apply filter_In in Hr. destruct Hr as [Hr _].
      apply (Permutation_in _ (Permutation_sym (sortByStart_perm _))) in Hr.
      apply in_map_iff in Hr. destruct Hr as (r0 & <- & Hr0).
      apply in_map_iff in Hr0. destruct Hr0 as (region & <- & Hregion).
      exists region. split; assumption.
    + intros (region & Hin & Hc).
      assert (Hpos : startSec (padded input region) < endSec (padded input region)).
      { unfold covers in Hc. lra. }
      destruct (mergeRanges_covers expanded
                  (expandRange region SPEECH_PADDING_SEC (Engine.videoDurationSec input)))
        as (p & Hp & Hcp).
      * apply (in_map (fun region : SpeechRegion =>
                 expandRange region SPEECH_PADDING_SEC (Engine.videoDurationSec input))).
        exact Hin.
      * exact Hpos.
      * exists p. split; [assumption|].
        unfold covers, contains, padded in *. lra.
  - assert (Hwithin :
      0 <= Engine.videoDurationSec input ->
      (forall region, In region (speechRegions (Engine.analysis input)) ->
         0 <= endSec region
         /\ startSec region ⊖ num 0.35 <= Engine.videoDurationSec input) ->
      withinVideo (Engine.videoDurationSec input) (mergeRanges expanded)).
    { intros Hv Hall p Hin. split.
      + destruct (mergeRanges_starts _ _ Hin) as (r & Hr & ->).
        apply in_map_iff in Hr. destruct Hr as (region & <- & Hregion).
        destruct (Hall _ Hregion) as [He Hs].
        apply (padded_bounds input region Hv He Hs).
      + revert p Hin. apply mergeRanges_ends_bounded.
        intros r Hr. apply in_map_iff in Hr. destruct Hr as (region & <- & Hregion).
        destruct (Hall _ Hregion) as [He Hs].
        apply (padded_bounds input region Hv He Hs). }
    split; [exact Hwithin|].
    intros Hrep Hv Hall. apply Hwithin; [assumption|].
    intros region Hregion. destruct (Hall _ Hregion) as [He Hs].
    split; [assumption|].
    unfold Binary64.representable in Hrep.
    apply Qle_trans with (Binary64.round (Engine.videoDurationSec input));
      [|rewrite Hrep; apply Qle_refl].
    apply Binary64Facts.round_le.
    pose proof literals_positive as (Hp & _). unfold SPEECH_PADDING_SEC in Hp. lra.
Qed.

Lemma computeTrimDecision_protectedRanges_witness :
  exists d,
    computeTrimDecision RoundedSamples.spokenEnding = Returns d
    /\ protectedRanges d = [mkRange (num 8.2 ⊖ num 0.35) 10]
    /\ separated (protectedRanges d)
    /\ withinVideo 10 (protectedRanges d).
Proof.
  destruct (computeTrimDecision RoundedSamples.spokenEnding) as [d|e] eqn:Hd;
    [|vm_compute in Hd; discriminate].
  exists d.
  destruct (computeTrimDecision_protectedRanges RoundedSamples.spokenEnding d Hd)
    as (Hp & Hsep & _ & _ & _ & _ & Hin).
  split; [reflexivity|]. split; [|split; [exact Hsep|]].
  - rewrite Hp. vm_compute. reflexivity.
  - apply Hin.
    + vm_compute. reflexivity.
    + discriminate.
    + intros region [<-|[]]. split; vm_compute; discriminate.
Defined.

(** X7: the engine fails in two ways only.  It throws
    AUDIO_LONGER_THAN_VIDEO exactly when the computed difference
    [videoDurationSec - targetDurationSec] is below -0.01; otherwise it
    throws only with replacement audio, then with NO_SYNC_SAFE_CUT and only
    when no candidate is accepted; without replacement audio it returns a
    decision.  (The differences are the ones the program computes in double
    precision: a video of 0.3 s with a target of 0.31 s is rejected, the
    computed difference being below -0.01.) *)
Theorem computeTrimDecision_failures (input : Engine.DecisionInput) :
  (excess input < - num 0.01
   <-> throwsCode (computeTrimDecision input) AUDIO_LONGER_THAN_VIDEO)
  /\ (forall e, computeTrimDecision input = Throws e ->
        thrownCode e = Some AUDIO_LONGER_THAN_VIDEO
        \/ (thrownCode e = Some NO_SYNC_SAFE_CUT
            /\ Engine.hasReplacementAudio input = true
            /\ existsb (acceptable input) (candidatesOf input) = false))
  /\ (Engine.hasReplacementAudio input = false ->
      ~ excess input < - num 0.01 ->
      exists d, computeTrimDecision input = Returns d)
  /\ throwsCode (computeTrimDecision RoundedSamples.tenMillisecondsLonger)
       AUDIO_LONGER_THAN_VIDEO
  /\ throwsCode (computeTrimDecision RoundedSamples.paddingAtTolerance) NO_SYNC_SAFE_CUT.
Proof.
  split; [|split; [|split; [|split]]].
  - unfold computeTrimDecision. fold (excess input).
    destruct (Js.ltb (excess input) (- num 0.01)) eqn:Hlong.
    + apply ltb_true in Hlong. split; [intros _|intros _; exact Hlong].
      eexists _, _. reflexivity.
    + apply ltb_false in Hlong. split; [intros H; lra|].
      intros (m & s & H).
      destruct (tryCandidates _ _ _ _); [discriminate|].
      destruct (Engine.hasReplacementAudio input); discriminate.
  - intros e. unfold computeTrimDecision.
    destruct (Js.ltb _ (- num 0.01)); [intros [= <-]; now left|].
    fold (protectedOf input). fold (candidatesOf input).
    destruct (tryCandidates _ _ _ _) eqn:Htry; [discriminate|].
    destruct (Engine.hasReplacementAudio input); [|discriminate].
    intros [= <-]. right. repeat split.
    eapply tryCandidates_none_refused. exact Htry.
  - intros Hr Hlen. unfold computeTrimDecision.
    rewrite (not_too_long _ Hlen), Hr.
    destruct (tryCandidates _ _ _ _); eexists; reflexivity.
  - eexists _, _. vm_compute. reflexivity.
  - eexists _, _. vm_compute. reflexivity.
Qed.

(** *** The override validator *)

Lemma validateOverrideRange_order job keepRange :
  validateOverrideRange job keepRange
  = if negb (inBounds (Job.videoDurationSec job) keepRange
             && inTolerance (Job.targetDurationSec job) keepRange) then
      Throws (appError INVALID_OVERRIDE_RANGE
        (if Js.ltb (startSec keepRange) 0
            || Js.gtb (endSec keepRange) (Job.videoDurationSec job)
         then "Override range is outside video bounds."
         else if Js.leb (endSec keepRange) (startSec keepRange)
         then "Override end must be greater than start."
         else "Override duration must be within 0.25s of target "
                +:+ Js.toFixed 2 (Job.targetDurationSec job) +:+ "s."))
    else if Js.truthy (Job.replacementAudioPath job)
            && Js.gtb (startSec keepRange) (num 0.001) then
      Throws (appError NO_SYNC_SAFE_CUT
        "Replacement audio only supports tail-only ranges in V1.")
    else Returns tt.
Proof.
  unfold validateOverrideRange, inBounds, inTolerance.
  destruct (Js.ltb (startSec keepRange) 0 || Js.gtb _ _); [reflexivity|].
  destruct (Js.leb (endSec keepRange) _); [reflexivity|].
  destruct (Js.gtb (Qabs _) _); reflexivity.
Qed.

Lemma inTolerance_iff t r :
  inTolerance t r = true <-> ~ num 0.25 < Qabs (endSec r ⊖ startSec r ⊖ t).
Proof.
  unfold inTolerance. rewrite negb_true_iff, gtb_false. split; [lra|].
  intros H. destruct (Qlt_le_dec (num 0.25) (Qabs (endSec r ⊖ startSec r ⊖ t)));
    [contradiction | assumption].
Qed.

(** The keep range [{0.24, 2.27}] against a target of 1.78 s: the exact
    difference of the three doubles is within 0.25, the difference that the
    validator computes is not, and the range is refused, with or without
    replacement audio. *)
Lemma tolerance_rounding_example :
  Qabs (endSec RoundedSamples.quarterSecondOff - startSec RoundedSamples.quarterSecondOff
        - Job.targetDurationSec RoundedSamples.shortJob) <= num 0.25
  /\ num 0.25
     < Qabs (endSec RoundedSamples.quarterSecondOff ⊖ startSec RoundedSamples.quarterSecondOff
             ⊖ Job.targetDurationSec RoundedSamples.shortJob)
  /\ validateOverrideRange RoundedSamples.shortJob RoundedSamples.quarterSecondOff
     = Throws (appError INVALID_OVERRIDE_RANGE
                 "Override duration must be within 0.25s of target 1.78s.")
  /\ validateOverrideRange RoundedSamples.shortJobWithAudio
       RoundedSamples.quarterSecondOff
     = Throws (appError INVALID_OVERRIDE_RANGE
                 "Override duration must be within 0.25s of target 1.78s.").
Proof.
  split; [vm_compute; discriminate|]. repeat split; vm_compute; reflexivity.
Qed.

(** C4: [validateOverrideRange] throws INVALID_OVERRIDE_RANGE if and only
    if [startSec < 0], or [endSec > videoDurationSec], or
    [endSec <= startSec], or [|(endSec - startSec) - targetDurationSec| >
    0.25], the two differences being the ones the program computes in double
    precision; when none of these holds and the tail-only rule does not
    apply (no replacement audio, or [startSec <= 0.001]) it returns.  For
    [videoDurationSec = 10] and [targetDurationSec = 8], [{-1, 8}] is
    rejected as out of bounds and [{1, 8}] as out of tolerance, both with
    INVALID_OVERRIDE_RANGE, and [{0, 8}] is accepted. *)
Theorem validateOverrideRange_invalid_iff (job : Job.JobRecord) (keepRange : TimeRange) :
  (throwsCode (validateOverrideRange job keepRange) INVALID_OVERRIDE_RANGE
   <-> (startSec keepRange < 0
        \/ Job.videoDurationSec job < endSec keepRange
        \/ endSec keepRange <= startSec keepRange
        \/ num 0.25 < Qabs (endSec keepRange ⊖ startSec keepRange
                            ⊖ Job.targetDurationSec job)))
  /\ (~ (startSec keepRange < 0
         \/ Job.videoDurationSec job < endSec keepRange
         \/ endSec keepRange <= startSec keepRange
         \/ num 0.25 < Qabs (endSec keepRange ⊖ startSec keepRange
                             ⊖ Job.targetDurationSec job)) ->
      ~ (Js.truthy (Job.replacementAudioPath job) = true
         /\ num 0.001 < startSec keepRange) ->
      validateOverrideRange job keepRange = Returns tt)
  /\ validateOverrideRange Samples.job (mkRange (-1) 8)
     = Throws (appError INVALID_OVERRIDE_RANGE "Override range is outside video bounds.")
  /\ validateOverrideRange Samples.job (mkRange 1 8)
     = Throws (appError INVALID_OVERRIDE_RANGE
                 "Override duration must be within 0.25s of target 8.00s.")
  /\ validateOverrideRange Samples.job (mkRange 0 8) = Returns tt.
Proof.
  assert (Hvalid :
    inBounds (Job.videoDurationSec job) keepRange
    && inTolerance (Job.targetDurationSec job) keepRange = true
    <-> ~ (startSec keepRange < 0
           \/ Job.videoDurationSec job < endSec keepRange
           \/ endSec keepRange <= startSec keepRange
           \/ num 0.25 < Qabs (endSec keepRange ⊖ startSec keepRange
                               ⊖ Job.targetDurationSec job))).
  { rewrite andb_true_iff, RenderFacts.inBounds_true, inTolerance_iff. tauto. }
  split; [|split; [|split; [|split]]].
  - rewrite validateOverrideRange_order.
    destruct (inBounds _ _ && inTolerance _ _) eqn:Hc; simpl.
    + split.
      * intros (m & c & H).
        destruct (Js.truthy _ && Js.gtb _ _); discriminate.
      * intros H. exfalso. exact (proj1 Hvalid eq_refl H).
    + split; [intros _|intros _; eexists _, _; reflexivity].
      destruct (Qlt_le_dec (startSec keepRange) 0); [now left|].
      destruct (Qlt_le_dec (Job.videoDurationSec job) (endSec keepRange));
        [right; now left|].
      destruct (Qlt_le_dec (startSec keepRange) (endSec keepRange));
        [|right; right; now left].
      destruct (Qlt_le_dec (num 0.25)
                  (Qabs (endSec keepRange ⊖ startSec keepRange
                         ⊖ Job.targetDurationSec job)));
        [repeat right; assumption|].
      assert (Hf : false = true) by (apply Hvalid; intros [|[|[|]]]; lra).
      discriminate.
  - intros Hok Htail. rewrite validateOverrideRange_order.
    apply Hvalid in Hok. rewrite Hok. simpl.
    destruct (Js.truthy _ && Js.gtb _ _) eqn:Ht; [|reflexivity].
    exfalso. apply Htail. apply andb_true_iff in Ht as [? Hg].
    apply gtb_true in Hg. now split.
  - vm_compute. reflexivity.
  - vm_compute. reflexivity.
  - vm_compute. reflexivity.
Qed.

(** C5, as stated, fails: with replacement audio attached and a keep range
    that starts after 0.001 s, a range that fails an earlier check is
    rejected with INVALID_OVERRIDE_RANGE, not with NO_SYNC_SAFE_CUT: the
    validator does so for [{1, 8}] (duration 7 against a target of 8), the
    renderer for [{1, 12}] (beyond the 10 s video). *)
Lemma tail_only_code_counterexample :
  Js.truthy (Job.replacementAudioPath Samples.jobWithAudio) = true
  /\ num 0.001 < startSec (mkRange 1 8)
  /\ throwsCode (validateOverrideRange Samples.jobWithAudio (mkRange 1 8))
       INVALID_OVERRIDE_RANGE
  /\ ~ throwsCode (validateOverrideRange Samples.jobWithAudio (mkRange 1 8))
         NO_SYNC_SAFE_CUT
  /\ ~ throwsCode
         (fst (Render.renderVideo Samples.platform (Samples.env "8.0" "8.0")
                 (Samples.renderOptions (mkRange 1 12)) Samples.emptyState))
         NO_SYNC_SAFE_CUT.
Proof.
  split; [reflexivity|]. split; [vm_compute; reflexivity|]. split; [|split].
  - eexists _, _. vm_compute. reflexivity.
  - intros (m & c & H). vm_compute in H. discriminate.
  - intros (m & c & H). vm_compute in H. discriminate.
Qed.

(** C5, amended: whenever a replacement audio track is attached and the keep
    range starts after 0.001 s, both [validateOverrideRange] and
    [renderVideo] fail: with NO_SYNC_SAFE_CUT when the range passes the
    checks made before the tail-only rule (bounds and positive length, and
    for the validator also the duration tolerance, computed in double
    precision), with INVALID_OVERRIDE_RANGE otherwise; [renderVideo] fails
    after creating the output directory and before invoking the encoder.
    This covers ranges that pass all bounds and duration checks, such as
    [{0.5, 8.5}] with target 8. *)
Theorem replacement_audio_requires_tail_cut
    (P : Sys.Platform) (E : Sys.Env) (job : Job.JobRecord)
    (options : Render.RenderOptions) (st : Sys.State) :
  Js.truthy (Job.replacementAudioPath job) = true ->
  Js.truthy (Render.replacementAudioPath options) = true ->
  num 0.001 < startSec (Render.keepRange options) ->
  throwsCode (validateOverrideRange job (Render.keepRange options))
    (if inBounds (Job.videoDurationSec job) (Render.keepRange options)
        && inTolerance (Job.targetDurationSec job) (Render.keepRange options)
     then NO_SYNC_SAFE_CUT else INVALID_OVERRIDE_RANGE)
  /\ (exists message status,
        Render.renderVideo P E options st
        = (Throws (AppError
                     (if inBounds (Render.videoDurationSec options)
                           (Render.keepRange options)
                      then NO_SYNC_SAFE_CUT else INVALID_OVERRIDE_RANGE)
                     message status),
           withCalls st [Sys.MkdirSync (Sys.pathDirname P (Render.outputPath options))]))
  /\ encoderInvoked P [Sys.MkdirSync (Sys.pathDirname P (Render.outputPath options))]
     = false.
Proof.
  intros Hjob Hopt Hstart.
  assert (Hexact : Js.gtb (startSec (Render.keepRange options)) 0.001 = true).
  { apply gtb_true. pose proof literals_positive as (_ & _ & _ & _ & Hl). lra. }
  apply gtb_true in Hstart.
  split; [|split; [|reflexivity]].
  - rewrite validateOverrideRange_order, Hjob, Hstart.
    destruct (inBounds _ _ && inTolerance _ _); eexists _, _; reflexivity.
  - apply RenderFacts.renderVideo_rejected. unfold passesRenderChecks.
    rewrite Hopt, Hexact. apply andb_false_r.
Qed.

Lemma replacement_audio_requires_tail_cut_witness :
  throwsCode (validateOverrideRange Samples.jobWithAudio (mkRange (num 0.5) (num 8.5)))
    NO_SYNC_SAFE_CUT
  /\ throwsCode
       (fst (Render.renderVideo Samples.platform (Samples.env "8.0" "8.0")
               (Samples.renderOptions (mkRange (num 0.5) (num 8.5))) Samples.emptyState))
       NO_SYNC_SAFE_CUT.
Proof.
  destruct (replacement_audio_requires_tail_cut Samples.platform (Samples.env "8.0" "8.0")
              Samples.jobWithAudio (Samples.renderOptions (mkRange (num 0.5) (num 8.5)))
              Samples.emptyState) as (Hv & (m & c & Hr) & _).
  - reflexivity.
  - reflexivity.
  - vm_compute. reflexivity.
  - split; [exact Hv|]. rewrite Hr. exists m, c. reflexivity.
Defined.

End RoundedFacts.
